(** * Camera-pose canonicalisation notebook
    (nerfstudio/process_data/gerry00_canonicalize_camera_poses.ipynb)

    A shallow embedding of the numeric cells of the notebook: duplicate
    removal and ring selection (cells 8-9), assembly and application of the
    similarity transform (cell 10), the vectorised height estimate (cell 17)
    and the field-of-view rescale (cell 20).  The aligner that cell 9 calls
    is defined outside the notebook: it is a parameter of cell 9, and its
    closed form is modelled separately from its specification.
    The remaining cells that compute are embedded as well: the ordering of
    the frames (cell 4), the farthest pose (cell 6), the ray and the height
    estimate of the first camera (cells 15 and 16) and the ray ends that the
    two plots show (cells 18 and 21).

    Numbers.  A numpy float64 is modelled by [npfloat]: an exact real, one of
    the two infinities, or NaN.  Finite arithmetic is exact (no rounding, no
    overflow) and zero is unsigned, so [x / 0] takes the sign of [x]; the
    special values follow IEEE 754 as numpy exposes them (division by zero
    does not raise, [0 / 0] is NaN, a comparison with NaN is false).  The one
    exact comparison [==] of two computed floats (cell 16) is not decided by
    this arithmetic: its outcome on two finite values is a parameter.  Python
    scalars ([fx], [cx], ...) are exact reals whose division raises
    [ZeroDivisionError]. *)

From Stdlib Require Import Reals Lra Lia List ListDec ZArith Bool Arith.
From Stdlib Require String Ascii.
From Stdlib Require Import Permutation Sorted.
Import String.StringSyntax.
Delimit Scope string_scope with string.
Import ListNotations.
Open Scope R_scope.

(** ** Exceptions and the error monad *)

Inductive exn : Type :=
| ValueError
| AssertionError
| ZeroDivisionError
| IndexError
| InsufficientGeometry.

Definition result (A : Type) : Type := (exn + A)%type.

Definition ok {A : Type} (a : A) : result A := inr a.
Definition raise {A : Type} (e : exn) : result A := inl e.

Definition bind {A B : Type} (m : result A) (k : A -> result B) : result B :=
  match m with
  | inl e => inl e
  | inr a => k a
  end.

Notation "x <- m ;; k" := (bind m (fun x => k))
  (at level 61, m at next level, right associativity).

Definition py_assert (b : bool) : result unit :=
  if b then ok tt else raise AssertionError.

(** ** Decisions on reals, as booleans *)

Definition Reqb (a b : R) : bool := if Req_dec_T a b then true else false.
Definition Rltb (a b : R) : bool := if Rlt_dec a b then true else false.
Definition Rleb (a b : R) : bool := if Rle_dec a b then true else false.

(** ** numpy floats *)

Inductive npfloat : Type :=
| Fin (x : R)
| PInf
| NInf
| NaN.

Definition inf_of_sign (positive : bool) : npfloat :=
  if positive then PInf else NInf.

Definition np_neg (a : npfloat) : npfloat :=
  match a with
  | Fin x => Fin (- x)
  | PInf => NInf
  | NInf => PInf
  | NaN => NaN
  end.

Definition np_add (a b : npfloat) : npfloat :=
  match a, b with
  | NaN, _ | _, NaN => NaN
  | Fin x, Fin y => Fin (x + y)
  | PInf, NInf | NInf, PInf => NaN
  | PInf, _ | _, PInf => PInf
  | NInf, _ | _, NInf => NInf
  end.

Definition np_sub (a b : npfloat) : npfloat := np_add a (np_neg b).

(** infinity times a finite [x]: NaN at zero, otherwise signed *)
Definition inf_times (positive : bool) (x : R) : npfloat :=
  if Reqb x 0 then NaN
  else inf_of_sign (if Rltb 0 x then positive else negb positive).

Definition np_mul (a b : npfloat) : npfloat :=
  match a, b with
  | NaN, _ | _, NaN => NaN
  | Fin x, Fin y => Fin (x * y)
  | Fin x, PInf | PInf, Fin x => inf_times true x
  | Fin x, NInf | NInf, Fin x => inf_times false x
  | PInf, PInf | NInf, NInf => PInf
  | PInf, NInf | NInf, PInf => NInf
  end.

Definition np_div (a b : npfloat) : npfloat :=
  match a, b with
  | NaN, _ | _, NaN => NaN
  | Fin x, Fin y =>
      if Reqb y 0 then
        if Reqb x 0 then NaN else inf_of_sign (Rltb 0 x)
      else Fin (x / y)
  | Fin _, _ => Fin 0
  | PInf, Fin y => inf_of_sign (negb (Rltb y 0))
  | NInf, Fin y => inf_of_sign (Rltb y 0)
  | _, _ => NaN
  end.

Definition np_square (a : npfloat) : npfloat := np_mul a a.

Definition np_sqrt (a : npfloat) : npfloat :=
  match a with
  | Fin x => if Rltb x 0 then NaN else Fin (sqrt x)
  | PInf => PInf
  | NInf | NaN => NaN
  end.

Definition np_cos (a : npfloat) : npfloat :=
  match a with
  | Fin x => Fin (cos x)
  | _ => NaN
  end.

Definition np_sin (a : npfloat) : npfloat :=
  match a with
  | Fin x => Fin (sin x)
  | _ => NaN
  end.

(** [a < b]; false as soon as one side is NaN *)
Definition np_ltb (a b : npfloat) : bool :=
  match a, b with
  | NaN, _ | _, NaN => false
  | Fin x, Fin y => Rltb x y
  | NInf, NInf | PInf, _ => false
  | NInf, _ => true
  | Fin _, PInf => true
  | Fin _, NInf => false
  end.

Definition np_gtb (a b : npfloat) : bool := np_ltb b a.

(** [np.maximum]: NaN wins, otherwise the larger *)
Definition np_maximum (a b : npfloat) : npfloat :=
  match a, b with
  | NaN, _ | _, NaN => NaN
  | _, _ => if np_ltb a b then b else a
  end.

Definition is_nan (a : npfloat) : bool :=
  match a with NaN => true | _ => false end.

(** [np.add.reduce] over a list, starting from 0 *)
Definition np_sum (l : list npfloat) : npfloat := fold_left np_add l (Fin 0).

(** [np.max] of a flattened array; numpy raises on an empty one *)
Definition np_max (l : list npfloat) : result npfloat :=
  match l with
  | [] => raise ValueError
  | x :: tl => ok (fold_left np_maximum tl x)
  end.

(** [np.mean]: the sum over the count (NaN for an empty array) *)
Definition np_mean (l : list npfloat) : npfloat :=
  np_div (np_sum l) (Fin (INR (length l))).

(** ** Poses *)

(** A matrix is read by row and column; a Pose Set [Ts] is the list of its
    4x4 matrices ([Ts[n, i, j]] is [nth n Ts _ i j]). *)
Definition mat : Type := nat -> nat -> npfloat.
Definition vec3 : Type := (npfloat * npfloat * npfloat)%type.

Definition zeros : mat := fun _ _ => Fin 0.

Definition mat_of_rows (rows : list (list R)) : mat :=
  fun i j => Fin (nth j (nth i rows []) 0).

Definition vx (v : vec3) : npfloat := fst (fst v).
Definition vy (v : vec3) : npfloat := snd (fst v).
Definition vz (v : vec3) : npfloat := snd v.

Definition vec3_0 : vec3 := (Fin 0, Fin 0, Fin 0).

(** [Ts[:, :3, 3]] and [Ts[:, :3, 2]] *)
Definition translation_of (T : mat) : vec3 := (T 0%nat 3%nat, T 1%nat 3%nat, T 2%nat 3%nat).
Definition ray_dir_of (T : mat) : vec3 := (T 0%nat 2%nat, T 1%nat 2%nat, T 2%nat 2%nat).

Definition translations (Ts : list mat) : list vec3 := map translation_of Ts.

(** An empty frame list makes [Ts] a 1-dimensional array of shape [(0,)]:
    indexing it as [Ts[:, :3, 3]] raises [IndexError] and multiplying it on
    the left by a 4x4 matrix raises [ValueError]. *)
Definition index_poses (Ts : list mat) : result unit :=
  match Ts with
  | [] => raise IndexError
  | _ :: _ => ok tt
  end.

Definition matmul_operand (Ts : list mat) : result unit :=
  match Ts with
  | [] => raise ValueError
  | _ :: _ => ok tt
  end.

(** ** Cell 8: pairwise distances and the duplicate mask *)

(** [np.sqrt(np.sum(np.square(ts[:,:,None] - ts.T[None,:,:]), axis=1))[i, j]] *)
Definition dist (p q : vec3) : npfloat :=
  np_sqrt (np_add (np_add (np_square (np_sub (vx p) (vx q)))
                          (np_square (np_sub (vy p) (vy q))))
                  (np_square (np_sub (vz p) (vz q)))).

Definition raw_dists (ts : list vec3) (i j : nat) : npfloat :=
  dist (nth i ts vec3_0) (nth j ts vec3_0).

(** the entries of an [n] x [n] array in row-major order *)
Definition flatten (n : nat) (A : nat -> nat -> npfloat) : list npfloat :=
  flat_map (fun i => map (A i) (seq 0 n)) (seq 0 n).

(** [dists /= np.max(dists)] then [np.fill_diagonal(dists, 1)] *)
Definition normalize_fill (A : nat -> nat -> npfloat) (m : npfloat) : nat -> nat -> npfloat :=
  fun i j => if Nat.eqb i j then Fin 1 else np_div (A i j) m.

Definition dists_of (ts : list vec3) : result (nat -> nat -> npfloat) :=
  m <- np_max (flatten (length ts) (raw_dists ts)) ;;
  ok (normalize_fill (raw_dists ts) m).

(** [np.pi * (15/360) / 2] *)
Definition threshold : npfloat := Fin (PI * (15 / 360) / 2).

Definition dup_mask (dists : nat -> nat -> npfloat) (i j : nat) : bool :=
  np_ltb (dists i j) threshold.

(** ** Cell 9: removal of duplicates *)

(** [np.argwhere] of an [n] x [n] boolean array: row-major index pairs *)
Definition argwhere (n : nat) (mask : nat -> nat -> bool) : list (nat * nat) :=
  flat_map (fun i => flat_map (fun j => if mask i j then [(i, j)] else [])
                              (seq 0 n))
           (seq 0 n).

(** [list.remove]: drops the first occurrence, [ValueError] when absent *)
Fixpoint list_remove (x : nat) (l : list nat) : result (list nat) :=
  match l with
  | [] => raise ValueError
  | y :: tl =>
      if Nat.eqb y x then ok tl
      else tl' <- list_remove x tl ;; ok (y :: tl')
  end.

(** [for _, dup in pairs: to_take.remove(dup)] *)
Fixpoint remove_loop (pairs : list (nat * nat)) (to_take : list nat)
  : result (list nat) :=
  match pairs with
  | [] => ok to_take
  | (_, dup) :: rest =>
      to_take' <- list_remove dup to_take ;;
      remove_loop rest to_take'
  end.

Definition upper_pairs (duplicates : list (nat * nat)) : list (nat * nat) :=
  filter (fun dup => Nat.ltb (fst dup) (snd dup)) duplicates.

(** the duplicate filter on an [n] x [n] mask *)
Definition remove_duplicates_mask (n : nat) (mask : nat -> nat -> bool)
  : result (list nat) :=
  remove_loop (upper_pairs (argwhere n mask)) (seq 0 n).

(** the duplicate filter on a Pose Set: cell 8 and the loop of cell 9 *)
Definition remove_duplicates (Ts : list mat) : result (list nat) :=
  _ <- index_poses Ts ;;
  dists <- dists_of (translations Ts) ;;
  remove_duplicates_mask (length Ts) (dup_mask dists).

(** Python list indexing and slicing *)
Definition py_index {A : Type} (l : list A) (k : nat) : result A :=
  match nth_error l k with
  | Some a => ok a
  | None => raise IndexError
  end.

(** ** Cell 9: cardinality check, ring selection, reference ring, fit *)

(** [if dists[to_take[0], to_take[11]] > dists[to_take[24], to_take[35]]] *)
Definition select_big_circle (dists : nat -> nat -> npfloat) (to_take : list nat)
  : result (list nat) :=
  a0 <- py_index to_take 0 ;;
  a11 <- py_index to_take 11 ;;
  a24 <- py_index to_take 24 ;;
  a35 <- py_index to_take 35 ;;
  ok (if np_gtb (dists a0 a11) (dists a24 a35)
      then firstn 24 to_take
      else skipn 24 to_take).

(** [np.arange(start, stop, step)] on integers, for a positive step *)
Definition arange (start stop step : Z) : list Z :=
  map (fun k => (start + step * Z.of_nat k)%Z)
      (seq 0 (Z.to_nat ((stop - start + step - 1) / step))).

(** [theta = -(np.arange(0, 360, 15) * np.pi / 180).reshape(-1, 1)] *)
Definition theta : list npfloat :=
  map (fun a => np_neg (np_div (np_mul (Fin (IZR a)) (Fin PI)) (Fin 180)))
      (arange 0 360 15).

(** [np.hstack((np.cos(theta), np.sin(theta), np.zeros_like(theta)))] *)
Definition expected : list vec3 :=
  map (fun th => (np_cos th, np_sin th, Fin 0)) theta.

(** [ts[big_circle]] *)
Definition take_rows (ts : list vec3) (idx : list nat) : list vec3 :=
  map (fun i => nth i ts vec3_0) idx.

Record cell9_out : Type := {
  to_take : list nat;
  big_circle : list nat;
  sR : mat;
  t_fit : vec3
}.

Section Canonicalize.

(** The aligner lives in the module [canonicalize_camera_poses], which the
    notebook imports; the notebook unpacks its result as [_, sR, t].  It is
    a parameter of the cells that call it. *)
Context {Aligned : Type}.
Variable ICP_transform_with_scale :
  list vec3 -> list vec3 -> result (Aligned * mat * vec3).

(** everything in cell 9 after the removal loop *)
Definition check_and_fit (ts : list vec3) (dists : nat -> nat -> npfloat)
           (to_take : list nat) : result cell9_out :=
  _ <- py_assert (Nat.eqb (length to_take) 48) ;;
  big <- select_big_circle dists to_take ;;
  fit <- ICP_transform_with_scale (take_rows ts big) expected ;;
  ok {| to_take := to_take; big_circle := big;
        sR := snd (fst fit); t_fit := snd fit |}.

Definition cell9 (Ts : list mat) : result cell9_out :=
  _ <- index_poses Ts ;;
  let ts := translations Ts in
  dists <- dists_of ts ;;
  to_take <- remove_duplicates_mask (length Ts) (dup_mask dists) ;;
  check_and_fit ts dists to_take.

End Canonicalize.

(** ** Cell 10: the homogeneous transform and its application *)

Definition vec_nth (v : vec3) (i : nat) : npfloat :=
  match i with
  | O => vx v
  | S O => vy v
  | _ => vz v
  end.

(** [T = np.zeros((4, 4)); T[:3, :3] = sR; T[:3, 3] = t; T[3, 3] = 1] *)
Definition assemble_T (sR : mat) (t : vec3) : mat :=
  let T0 := zeros in
  let T1 := fun i j => if Nat.ltb i 3 && Nat.ltb j 3 then sR i j else T0 i j in
  let T2 := fun i j => if Nat.ltb i 3 && Nat.eqb j 3 then vec_nth t i else T1 i j in
  fun i j => if Nat.eqb i 3 && Nat.eqb j 3 then Fin 1 else T2 i j.

(** [A @ B] for 4x4 matrices *)
Definition matmul (A B : mat) : mat :=
  fun i j => np_sum (map (fun k => np_mul (A i k) (B k j)) (seq 0 4)).

(** [new_Ts = T @ Ts]: the product is broadcast over the Pose Set *)
Definition cell10 (sR : mat) (t : vec3) (Ts : list mat) : result (list mat) :=
  _ <- matmul_operand Ts ;;
  ok (map (matmul (assemble_T sR t)) Ts).

(** [s * R] on the 3x3 block *)
Definition scale_mat (s : R) (Rm : mat) : mat :=
  fun i j => np_mul (Fin s) (Rm i j).

(** ** Cell 17: vectorised height estimate and re-centring *)

(** the two columns of [ratios = v_xy / ray_xy] for one camera *)
Definition height_ratios (T : mat) : npfloat * npfloat :=
  let d := ray_dir_of T in
  let t := translation_of T in
  let x0 := np_neg (vx t) in
  let x1 := np_neg (vy t) in
  let r0 := vx d in
  let r1 := vy d in
  let num := np_add (np_mul x0 r0) (np_mul x1 r1) in
  let den := np_add (np_square r0) (np_square r1) in
  let v0 := np_div (np_mul num r0) den in
  let v1 := np_div (np_mul num r1) den in
  (np_div v0 r0, np_div v1 r1).

Definition rtol : R := / 10000000.

(** one entry of [np.testing.assert_allclose(actual, desired)] with the
    defaults [rtol=1e-7, atol=0, equal_nan=True] *)
Definition allclose_entry (actual desired : npfloat) : bool :=
  match actual, desired with
  | NaN, NaN | PInf, PInf | NInf, NInf => true
  | Fin a, Fin b => Rleb (Rabs (a - b)) (rtol * Rabs b)
  | _, _ => false
  end.

Definition assert_allclose (pairs : list (npfloat * npfloat)) : result unit :=
  py_assert (forallb (fun p => allclose_entry (fst p) (snd p)) pairs).

(** [z_height = ray_dirs[:, 2] * ratios[:, 0] + ts[:, 2]] for one camera *)
Definition camera_height (T : mat) : npfloat :=
  np_add (np_mul (vz (ray_dir_of T)) (fst (height_ratios T)))
         (vz (translation_of T)).

Definition per_camera_heights (Ts : list mat) : list npfloat :=
  map camera_height Ts.

(** [ts_new = ts; ts_new[:, 2] -= z_height]: [ts] is a view of [Ts], so the
    update lands in the Pose Set itself *)
Definition recenter_z (z_height : npfloat) (T : mat) : mat :=
  fun i j => if Nat.eqb i 2 && Nat.eqb j 3 then np_sub (T i j) z_height else T i j.

Definition cell17 (Ts : list mat) : result (npfloat * list mat) :=
  _ <- index_poses Ts ;;
  _ <- assert_allclose (map height_ratios Ts) ;;
  let z_height := np_mean (per_camera_heights Ts) in
  ok (z_height, map (recenter_z z_height) Ts).

(** ** Cell 20: rescale to the unit block *)

(** Python [/] on scalars *)
Definition py_div (a b : R) : result R :=
  if Reqb b 0 then raise ZeroDivisionError else ok (a / b).

(** Python [max(a, b)]: the first argument unless the second is larger *)
Definition py_max (a b : R) : R := if Rltb a b then b else a.

Definition radius : R := 1.

Definition scale_factor (fx fy cx cy : R) : result R :=
  max_x <- py_div (radius * cx) fx ;;
  max_y <- py_div (radius * cy) fy ;;
  py_div (5 / 10) (py_max max_x max_y).

(** [ts_new *= scale_factor], through the view *)
Definition rescale_pose (s : R) (T : mat) : mat :=
  fun i j => if Nat.ltb i 3 && Nat.eqb j 3 then np_mul (T i j) (Fin s) else T i j.

Definition cell20 (fx fy cx cy : R) (Ts : list mat) : result (list mat) :=
  s <- scale_factor fx fy cx cy ;;
  ok (map (rescale_pose s) Ts).

(** ** Vocabulary for the duplicate filter *)

(** the list without its entries equal to [x] *)
Definition drop (x : nat) (l : list nat) : list nat :=
  filter (fun y => negb (Nat.eqb y x)) l.

(** what the loop leaves: the entries that no pair names as its [dup] *)
Definition survivors (pairs : list (nat * nat)) (l : list nat) : list nat :=
  filter (fun y => negb (existsb (Nat.eqb y) (map snd pairs))) l.

(** no index is the higher member of two flagged pairs *)
Definition at_most_one_lower (n : nat) (mask : nat -> nat -> bool) : Prop :=
  forall i1 i2 j, (i1 < j)%nat -> (i2 < j)%nat -> (j < n)%nat ->
                  mask i1 j = true -> mask i2 j = true -> i1 = i2.

(** ** Pose Sets with integer translations

    Concrete Pose Sets are written with integer coordinates; the distance
    tests of cells 8 and 9 on such a set are decided on the integers
    ([zmask], [zgt]) and transferred to the cells by the lemmas below. *)

Definition zpt : Type := (Z * Z * Z)%type.

Definition vec_of_zpt (p : zpt) : vec3 :=
  (Fin (IZR (fst (fst p))), Fin (IZR (snd (fst p))), Fin (IZR (snd p))).

(** the pose with identity rotation block at an integer position *)
Definition pose_of_zpt (p : zpt) : mat :=
  mat_of_rows [[1; 0; 0; IZR (fst (fst p))];
               [0; 1; 0; IZR (snd (fst p))];
               [0; 0; 1; IZR (snd p)];
               [0; 0; 0; 1]].

Definition zdist2 (p q : zpt) : Z :=
  ((fst (fst p) - fst (fst q)) * (fst (fst p) - fst (fst q))
   + (snd (fst p) - snd (fst q)) * (snd (fst p) - snd (fst q))
   + (snd p - snd q) * (snd p - snd q))%Z.

Definition zraw (pts : list zpt) (i j : nat) : Z :=
  zdist2 (nth i pts (0, 0, 0)%Z) (nth j pts (0, 0, 0)%Z).

Definition zflatten (n : nat) (A : nat -> nat -> Z) : list Z :=
  flat_map (fun i => map (A i) (seq 0 n)) (seq 0 n).

(** the largest squared distance *)
Definition zmax2 (pts : list zpt) : Z :=
  match zflatten (length pts) (zraw pts) with
  | [] => 0%Z
  | x :: tl => fold_left Z.max tl x
  end.

(** [d / max < 1/16], which is below the threshold since [3 < PI] *)
Definition zmask (pts : list zpt) : nat -> nat -> bool :=
  let M := zmax2 pts in
  fun i j => negb (Nat.eqb i j) && (256 * zraw pts i j <? M)%Z.

(** every off-diagonal pair is either below [1/16] or at least [1/12] of the
    largest distance, so that [3 < PI <= 4] decides the threshold test *)
Definition zdecided (pts : list zpt) : bool :=
  let M := zmax2 pts in
  (0 <? M)%Z &&
  forallb (fun i =>
    forallb (fun j =>
      Nat.eqb i j
      || (256 * zraw pts i j <? M)%Z
      || (M <=? 144 * zraw pts i j)%Z)
      (seq 0 (length pts)))
    (seq 0 (length pts)).

(** the normalised, diagonal-filled distance matrix of an integer Pose Set *)
Definition zdists (pts : list zpt) : nat -> nat -> npfloat :=
  normalize_fill (raw_dists (map vec_of_zpt pts)) (Fin (sqrt (IZR (zmax2 pts)))).

(** ** Concrete Pose Sets *)

(** four poses on a line: 0 and 1 are close, 1 and 2 are close, 0 and 2 are
    not, and 3 is far away *)
Definition chain_pts : list zpt :=
  [(0, 0, 0); (5, 0, 0); (10, 0, 0); (100, 0, 0)]%Z.

(** three mutually close poses and a far one *)
Definition cluster_pts : list zpt :=
  [(0, 0, 0); (1, 0, 0); (2, 0, 0); (100, 0, 0)]%Z.

(** node [k] of a 4 x 4 x 4 grid of pitch 10 *)
Definition grid_pt (k : nat) : zpt :=
  (10 * Z.of_nat (k mod 4), 10 * Z.of_nat ((k / 4) mod 4), 10 * Z.of_nat (k / 16))%Z.

(** fifty poses on grid nodes, except that pose 27 sits next to pose 5 *)
Definition fifty_pts : list zpt :=
  map (fun k => if Nat.eqb k 27
                then (let '(x, y, z) := grid_pt 5 in (x + 1, y, z)%Z)
                else grid_pt k)
      (seq 0 50).

(** forty-eight poses on the nodes of a 4 x 4 x 3 grid: no two are close *)
Definition grid48_pts : list zpt := map grid_pt (seq 0 48).

(** a stand-in aligner for concrete runs of cell 9: it returns its source
    points, the zero block and the zero offset *)
Definition trivial_fit (P Q : list vec3) : result (list vec3 * mat * vec3) :=
  ok (P, zeros, vec3_0).

(** ** Finite matrices and points *)

Definition rmat : Type := nat -> nat -> R.
Definition pt : Type := (R * R * R)%type.

Definition lift (A : rmat) : mat := fun i j => Fin (A i j).
Definition vec_of_pt (p : pt) : vec3 :=
  (Fin (fst (fst p)), Fin (snd (fst p)), Fin (snd p)).

Definition pt_nth (p : pt) (i : nat) : R :=
  match i with
  | O => fst (fst p)
  | S O => snd (fst p)
  | _ => snd p
  end.

Definition rmat_of_rows (rows : list (list R)) : rmat :=
  fun i j => nth j (nth i rows []) 0.

Definition identity4 : rmat :=
  rmat_of_rows [[1; 0; 0; 0]; [0; 1; 0; 0]; [0; 0; 1; 0]; [0; 0; 0; 1]].

(** the pose with identity rotation block at (1, 0, 0) *)
Definition pose_at_e1 : rmat :=
  rmat_of_rows [[1; 0; 0; 1]; [0; 1; 0; 0]; [0; 0; 1; 0]; [0; 0; 0; 1]].

(** the 3x3 product [A . B] at row [i], column [j] *)
Definition mul3 (A B : rmat) (i j : nat) : R :=
  A i 0%nat * B 0%nat j + A i 1%nat * B 1%nat j + A i 2%nat * B 2%nat j.

(** the 3x3 block [A] applied to the translation column of [P] *)
Definition mul3_col (A P : rmat) (i : nat) : R := mul3 A P i 3%nat.

Definition det3 (A : rmat) : R :=
  A 0%nat 0%nat * (A 1%nat 1%nat * A 2%nat 2%nat - A 1%nat 2%nat * A 2%nat 1%nat)
  - A 0%nat 1%nat * (A 1%nat 0%nat * A 2%nat 2%nat - A 1%nat 2%nat * A 2%nat 0%nat)
  + A 0%nat 2%nat * (A 1%nat 0%nat * A 2%nat 1%nat - A 1%nat 1%nat * A 2%nat 0%nat).

Definition transpose (A : rmat) : rmat := fun i j => A j i.

Definition kron (i j : nat) : R := if Nat.eqb i j then 1 else 0.

(** [A] is in SO(3): orthonormal with determinant 1 *)
Definition is_rotation (A : rmat) : Prop :=
  (forall i j, (i < 3)%nat -> (j < 3)%nat -> mul3 (transpose A) A i j = kron i j)
  /\ det3 A = 1.

(** the bottom row of a pose is [0, 0, 0, 1] *)
Definition is_pose (P : rmat) : Prop :=
  P 3%nat 0%nat = 0 /\ P 3%nat 1%nat = 0 /\ P 3%nat 2%nat = 0 /\ P 3%nat 3%nat = 1.

(** ** Cameras for the height estimate *)

(** two cameras whose viewing rays pass through (1, 2, 3) *)
Definition cam_a : rmat :=
  rmat_of_rows [[1 / 3; - 2 / 3; 2 / 3; - 1];
                [2 / 3; 2 / 3; 1 / 3; 1];
                [- 2 / 3; 1 / 3; 2 / 3; 1];
                [0; 0; 0; 1]].

Definition cam_b : rmat :=
  rmat_of_rows [[2 / 3; 1 / 3; - 2 / 3; 3];
                [1 / 3; 2 / 3; 2 / 3; 0];
                [2 / 3; - 2 / 3; 1 / 3; 2];
                [0; 0; 0; 1]].

(** the same two orientations, with rays through (0, 0, 3) *)
Definition cam_c : rmat :=
  rmat_of_rows [[1 / 3; - 2 / 3; 2 / 3; - 2];
                [2 / 3; 2 / 3; 1 / 3; - 1];
                [- 2 / 3; 1 / 3; 2 / 3; 1];
                [0; 0; 0; 1]].

Definition cam_d : rmat :=
  rmat_of_rows [[2 / 3; 1 / 3; - 2 / 3; 2];
                [1 / 3; 2 / 3; 2 / 3; - 2];
                [2 / 3; - 2 / 3; 1 / 3; 2];
                [0; 0; 0; 1]].

(** a camera whose third axis is the world y axis *)
Definition cam_y : rmat :=
  rmat_of_rows [[1; 0; 0; 0];
                [0; 0; 1; - 2];
                [0; - 1; 0; 1];
                [0; 0; 0; 1]].

(** a camera above the origin whose third axis is the world z axis *)
Definition cam_down : rmat :=
  rmat_of_rows [[1; 0; 0; 0];
                [0; 1; 0; 0];
                [0; 0; 1; 5];
                [0; 0; 0; 1]].

(** the viewing ray of pose [P] (origin: translation; direction: third
    column of the rotation block) passes through the point [c] *)
Definition ray_through (P : rmat) (c : pt) : Prop :=
  exists lam : R,
    P 0%nat 3%nat + lam * P 0%nat 2%nat = fst (fst c) /\
    P 1%nat 3%nat + lam * P 1%nat 2%nat = snd (fst c) /\
    P 2%nat 3%nat + lam * P 2%nat 2%nat = snd c.

(** the averaging the specification describes: NaN estimates are skipped *)
Definition spec_nan_excluding_mean (l : list npfloat) : npfloat :=
  np_mean (filter (fun z => negb (is_nan z)) l).

(** a camera whose ray has non-zero x and y components *)
Definition regular (P : rmat) : Prop := P 0%nat 2%nat <> 0 /\ P 1%nat 2%nat <> 0.

(** the abscissa along the ray of the point nearest to the vertical axis *)
Definition ray_abscissa (P : rmat) : R :=
  (- P 0%nat 3%nat * P 0%nat 2%nat + - P 1%nat 3%nat * P 1%nat 2%nat)
  / (P 0%nat 2%nat * P 0%nat 2%nat + P 1%nat 2%nat * P 1%nat 2%nat).

(** a camera whose ray has no horizontal component at all *)
Definition vertical (P : rmat) : Prop := P 0%nat 2%nat = 0 /\ P 1%nat 2%nat = 0.

(** ** Nearest-neighbour spacing and ring membership

    These two notions come from the specification's description of the
    ring selection; the notebook does not compute them. *)

(** [np.minimum]: NaN wins, otherwise the smaller *)
Definition np_minimum (a b : npfloat) : npfloat :=
  match a, b with
  | NaN, _ | _, NaN => NaN
  | _, _ => if np_ltb b a then b else a
  end.

Definition np_min (l : list npfloat) : result npfloat :=
  match l with
  | [] => raise ValueError
  | x :: tl => ok (fold_left np_minimum tl x)
  end.

(** the distances between members at distinct positions of a group *)
Definition intra_group {A : Type} (D : nat -> nat -> A) (group : list nat) : list A :=
  flat_map (fun k =>
              map (fun l => D (nth k group 0%nat) (nth l group 0%nat))
                  (filter (fun l => negb (Nat.eqb l k)) (seq 0 (length group))))
           (seq 0 (length group)).

(** the nearest-neighbour spacing of a group: its smallest intra-group distance *)
Definition nn_spacing (D : nat -> nat -> npfloat) (group : list nat) : result npfloat :=
  np_min (intra_group D group).

(** the finite Euclidean distance *)
Definition rdist (p q : pt) : R :=
  sqrt ((fst (fst p) - fst (fst q)) * (fst (fst p) - fst (fst q))
        + (snd (fst p) - snd (fst q)) * (snd (fst p) - snd (fst q))
        + (snd p - snd q) * (snd p - snd q)).

(** the poses of [group] lie at distance [sqrt r2] from the centre [c] *)
Definition on_circle (ts : list vec3) (group : list nat) (c : vec3) (r2 : R) : Prop :=
  forall a, In a group -> dist (nth a ts vec3_0) c = Fin (sqrt r2).

(** [q] is the image of [p] under the homothety of centre [c] and ratio [rho] *)
Definition homothetic (c : pt) (rho : R) (p q : pt) : Prop :=
  fst (fst q) = fst (fst c) + rho * (fst (fst p) - fst (fst c)) /\
  snd (fst q) = snd (fst c) + rho * (snd (fst p) - snd (fst c)) /\
  snd q = snd c + rho * (snd p - snd c).

(** ** Two concentric rings with integer coordinates

    Twenty-four points of the circle of radius 229 * 241 * 169 about the
    origin, about 15 degrees apart (from Pythagorean triples), listed
    counter-clockwise. *)

Definition ring_radius : Z := 9326941.

Definition ring_quadrant : list (Z * Z) :=
  [(9326941, 0); (221 * 40729, 60 * 40729); (209 * 38701, 120 * 38701);
   (119 * 55189, 120 * 55189); (120 * 38701, 209 * 38701);
   (60 * 40729, 221 * 40729)]%Z.

Definition quarter_turn (p : Z * Z) : Z * Z := (- snd p, fst p)%Z.

Definition unit_ring : list (Z * Z) :=
  ring_quadrant
    ++ map quarter_turn ring_quadrant
    ++ map quarter_turn (map quarter_turn ring_quadrant)
    ++ map quarter_turn (map quarter_turn (map quarter_turn ring_quadrant)).

Definition ring_pt (k : Z) (p : Z * Z) : zpt := (k * fst p, k * snd p, 0)%Z.

(** an outer ring of radius 4 followed by an inner ring of radius 3, both in
    angular order *)
Definition rings_pts : list zpt :=
  map (ring_pt 4) unit_ring ++ map (ring_pt 3) unit_ring.

(** The ring 61 times larger, and the same ring with its member 1 moved
    from about 15 degrees to about 10.4 degrees (the triple 11, 60, 61):
    still in angular order, with members 0 and 1 closer together. *)
Definition ring61 : list (Z * Z) :=
  map (fun p => (61 * fst p, 61 * snd p)%Z) unit_ring.

Definition close_pt : Z * Z := (60 * ring_radius, 11 * ring_radius)%Z.

Definition uneven_ring : list (Z * Z) :=
  match ring61 with
  | p0 :: _ :: tl => p0 :: close_pt :: tl
  | l => l
  end.

(** an evenly sampled inner ring of radius 3 followed by the unevenly
    sampled outer ring of radius 4, both in angular order *)
Definition rings_uneven_pts : list zpt :=
  map (ring_pt 3) ring61 ++ map (ring_pt 4) uneven_ring.

Definition zmin_list (l : list Z) : Z :=
  match l with
  | [] => 0%Z
  | x :: tl => fold_left Z.min tl x
  end.

(** the smallest squared intra-group distance *)
Definition znn2 (pts : list zpt) (group : list nat) : Z :=
  zmin_list (intra_group (zraw pts) group).

Definition pt_0 : pt := (0, 0, 0).

(** the distance matrix of a finite point list *)
Definition rraw (ps : list pt) (i j : nat) : R :=
  rdist (nth i ps pt_0) (nth j ps pt_0).

Definition pt_of_zpt (p : zpt) : pt :=
  (IZR (fst (fst p)), IZR (snd (fst p)), IZR (snd p)).

(** ** The similarity aligner

    The notebook calls the aligner as
    [canonicalize_camera_poses.ICP_transform_with_scale]; the module that
    defines it is not among the sources, so its closed-form fit is modelled
    from section 4.2 of the specification, on exact reals.  The singular
    value decomposition is numpy's: it is a parameter [svd] of the model,
    constrained in the theorems by its contract [is_svd]. *)

(** 3x3 real matrices, row by row *)
Record m3 : Type := mk3 {
  m00 : R; m01 : R; m02 : R;
  m10 : R; m11 : R; m12 : R;
  m20 : R; m21 : R; m22 : R
}.

Definition mI : m3 := mk3 1 0 0 0 1 0 0 0 1.

Definition diag3 (a b c : R) : m3 := mk3 a 0 0 0 b 0 0 0 c.

Definition mT (A : m3) : m3 :=
  mk3 (m00 A) (m10 A) (m20 A)
      (m01 A) (m11 A) (m21 A)
      (m02 A) (m12 A) (m22 A).

Definition mmul (A B : m3) : m3 :=
  mk3 (m00 A * m00 B + m01 A * m10 B + m02 A * m20 B)
      (m00 A * m01 B + m01 A * m11 B + m02 A * m21 B)
      (m00 A * m02 B + m01 A * m12 B + m02 A * m22 B)
      (m10 A * m00 B + m11 A * m10 B + m12 A * m20 B)
      (m10 A * m01 B + m11 A * m11 B + m12 A * m21 B)
      (m10 A * m02 B + m11 A * m12 B + m12 A * m22 B)
      (m20 A * m00 B + m21 A * m10 B + m22 A * m20 B)
      (m20 A * m01 B + m21 A * m11 B + m22 A * m21 B)
      (m20 A * m02 B + m21 A * m12 B + m22 A * m22 B).

Definition madd (A B : m3) : m3 :=
  mk3 (m00 A + m00 B) (m01 A + m01 B) (m02 A + m02 B)
      (m10 A + m10 B) (m11 A + m11 B) (m12 A + m12 B)
      (m20 A + m20 B) (m21 A + m21 B) (m22 A + m22 B).

Definition mscale (s : R) (A : m3) : m3 :=
  mk3 (s * m00 A) (s * m01 A) (s * m02 A)
      (s * m10 A) (s * m11 A) (s * m12 A)
      (s * m20 A) (s * m21 A) (s * m22 A).

Definition mzero : m3 := mk3 0 0 0 0 0 0 0 0 0.

Definition mdet (A : m3) : R :=
  m00 A * (m11 A * m22 A - m12 A * m21 A)
  - m01 A * (m10 A * m22 A - m12 A * m20 A)
  + m02 A * (m10 A * m21 A - m11 A * m20 A).

Definition mtrace (A : m3) : R := m00 A + m11 A + m22 A.

(** vectors of R^3 *)
Definition px (p : pt) : R := fst (fst p).
Definition py (p : pt) : R := snd (fst p).
Definition pz (p : pt) : R := snd p.

Definition padd (p q : pt) : pt := (px p + px q, py p + py q, pz p + pz q).
Definition psub (p q : pt) : pt := (px p - px q, py p - py q, pz p - pz q).
Definition pscale (s : R) (p : pt) : pt := (s * px p, s * py p, s * pz p).
Definition dot (p q : pt) : R := px p * px q + py p * py q + pz p * pz q.
Definition cross (p q : pt) : pt :=
  (py p * pz q - pz p * py q, pz p * px q - px p * pz q, px p * py q - py p * px q).

Definition mv (A : m3) (p : pt) : pt :=
  (m00 A * px p + m01 A * py p + m02 A * pz p,
   m10 A * px p + m11 A * py p + m12 A * pz p,
   m20 A * px p + m21 A * py p + m22 A * pz p).

(** the outer product [p . q^T] *)
Definition outer (p q : pt) : m3 :=
  mk3 (px p * px q) (px p * py q) (px p * pz q)
      (py p * px q) (py p * py q) (py p * pz q)
      (pz p * px q) (pz p * py q) (pz p * pz q).

Definition psum (l : list pt) : pt := fold_right padd (0, 0, 0) l.
Definition msum (l : list m3) : m3 := fold_right madd mzero l.
Definition rsum (l : list R) : R := fold_right Rplus 0 l.

(** Modelled from the spec: step 1 of the aligner (absent from the sources),
    the centroids and the centred sets *)
Definition centroid (P : list pt) : pt := pscale (/ INR (length P)) (psum P).
Definition centered (P : list pt) : list pt := map (fun p => psub p (centroid P)) P.

(** Modelled from the spec: step 2 of the aligner (absent from the sources),
    the cross-covariance [H = Pc^T . Qc] of index-paired sets *)
Definition cross_cov (Pc Qc : list pt) : m3 :=
  msum (map (fun pq => outer (fst pq) (snd pq)) (combine Pc Qc)).

(** the image of a point under the similarity (s, R, t) *)
Definition similarity (s : R) (Rm : m3) (t : pt) (p : pt) : pt :=
  padd (pscale s (mv Rm p)) t.

(** Modelled from the spec: the degeneracy test of the aligner (absent from
    the sources); some three points of the set are not collinear *)
Definition has_noncollinear (P : list pt) : bool :=
  existsb (fun a =>
    existsb (fun b =>
      existsb (fun c => negb (Reqb (dot (cross (psub b a) (psub c a))
                                        (cross (psub b a) (psub c a))) 0))
              P) P) P.

(** Modelled from the spec: [fit_similarity], the aligner that the notebook
    calls as [ICP_transform_with_scale] and whose definition is absent from
    the sources; steps 3 to 6 of section 4.2 and the failure on degenerate
    input.  It returns the scale, the rotation, the offset and the aligned
    point set. *)
Definition fit_similarity (svd : m3 -> m3 * pt * m3) (P Q : list pt)
  : result (R * m3 * pt * list pt) :=
  if negb (has_noncollinear P) then raise InsufficientGeometry
  else
    let Pc := centered P in
    let Qc := centered Q in
    let H := cross_cov Pc Qc in
    let '(U, sg, V) := svd H in
    let Rm := mmul (mmul V (diag3 1 1 (mdet (mmul V (mT U))))) (mT U) in
    let s := (px sg + py sg + pz sg) / rsum (map (fun p => dot p p) Pc) in
    let t := psub (centroid Q) (pscale s (mv Rm (centroid P))) in
    ok (s, Rm, t, map (similarity s Rm t) P).

(** the contract of the singular value decomposition [H = U . diag(sg) . V^T]:
    orthogonal factors and non-negative singular values in descending order *)
Definition orthogonal (X : m3) : Prop :=
  mmul (mT X) X = mI /\ mmul X (mT X) = mI.

Definition is_svd (H : m3) (usv : m3 * pt * m3) : Prop :=
  let '(U, sg, V) := usv in
  orthogonal U /\ orthogonal V
  /\ px sg >= py sg /\ py sg >= pz sg /\ pz sg >= 0
  /\ H = mmul (mmul U (diag3 (px sg) (py sg) (pz sg))) (mT V).

(** [A] is in SO(3) *)
Definition rotation (A : m3) : Prop := orthogonal A /\ mdet A = 1.

(** the least-squares objective of the fit *)
Definition residual (s : R) (Rm : m3) (t : pt) (P Q : list pt) : R :=
  rsum (map (fun pq => dot (psub (similarity s Rm t (fst pq)) (snd pq))
                           (psub (similarity s Rm t (fst pq)) (snd pq)))
            (combine P Q)).

Definition psd (A : m3) : Prop := forall x : pt, 0 <= dot x (mv A x).
Definition symmetric (A : m3) : Prop := mT A = A.

(** the scatter matrix of a (centred) point set *)
Definition scatter (l : list pt) : m3 := msum (map (fun p => outer p p) l).

(** three points of the set span a plane *)
Definition noncollinear (P : list pt) : Prop :=
  exists pa pb pc, In pa P /\ In pb P /\ In pc P /\
                   cross (psub pb pa) (psub pc pa) <> (0, 0, 0).

(** a square in the plane z = 0, the quarter turn about the z axis, and the
    decomposition numpy would return for the cross-covariance of the square
    against its image under the scale 2, that rotation and the offset
    (1, 2, 3) *)
Definition square_pts : list pt := [(1, 0, 0); (-1, 0, 0); (0, 1, 0); (0, -1, 0)].

Definition quarter_turn_z : m3 := mk3 0 (-1) 0 1 0 0 0 0 1.

Definition square_svd (H : m3) : m3 * pt * m3 := (mI, (4, 4, 0), quarter_turn_z).

(** ** Cell 4: the frames in file order *)

(** A frame of [transforms.json], as the notebook reads it: the path of its
    image and its 4x4 camera-to-world matrix. *)
Record frame : Type := {
  file_path : String.string;
  transform_matrix : mat
}.

(** [sorted(iterable, key=...)] with string keys.  Python compares two
    keys with [<] only and its sort is stable, which fixes the result; the
    insertion sort below is one such sort.  Strings compare by code point,
    the order of [String.ltb] on their bytes. *)
Fixpoint sorted_insert {A : Type} (key : A -> String.string) (x : A) (l : list A)
  : list A :=
  match l with
  | [] => [x]
  | y :: tl =>
      if String.ltb (key y) (key x) then y :: sorted_insert key x tl
      else x :: y :: tl
  end.

Definition sorted {A : Type} (key : A -> String.string) (l : list A) : list A :=
  fold_right (sorted_insert key) [] l.

(** [frames = sorted(data['frames'], key=lambda frame: frame['file_path'])]
    and [Ts = np.array([frame['transform_matrix'] for frame in frames])] *)
Definition cell4 (frames : list frame) : list frame * list mat :=
  let frames := sorted file_path frames in
  (frames, map transform_matrix frames).

(** [a] does not come after [b]: not [key b < key a] *)
Definition key_le {A : Type} (key : A -> String.string) (a b : A) : Prop :=
  String.ltb (key b) (key a) = false.

(** the frames of a given path, in list order *)
Definition with_path (s : String.string) (frames : list frame) : list frame :=
  filter (fun f => String.eqb (file_path f) s) frames.

(** frames of a concrete file, out of order *)
Definition frame_a : frame :=
  {| file_path := "images/frame_00001.png"%string; transform_matrix := lift identity4 |}.
Definition frame_b : frame :=
  {| file_path := "images/frame_00002.png"%string; transform_matrix := lift pose_at_e1 |}.
Definition frame_c : frame :=
  {| file_path := "images/frame_00010.png"%string; transform_matrix := lift cam_a |}.

(** ** Cell 6: the pose farthest from the first *)

(** [np.argmax] scans for the first entry that is not [<=] the running
    maximum and stops at the first NaN *)
Fixpoint np_argmax_from (l : list npfloat) (k : nat) (best : npfloat) (at_best : nat)
  : nat :=
  match l with
  | [] => at_best
  | x :: tl =>
      if is_nan best then at_best
      else if is_nan x || np_gtb x best then np_argmax_from tl (S k) x k
      else np_argmax_from tl (S k) best at_best
  end.

(** numpy raises on an empty sequence *)
Definition np_argmax (l : list npfloat) : result nat :=
  match l with
  | [] => raise ValueError
  | x :: tl => ok (np_argmax_from tl 1 x 0)
  end.

(** [ts = Ts[:, :3, 3]], the unnormalised [dists] and
    [farthest_image = np.argmax(dists[0][:25])] *)
Definition cell6 (Ts : list mat) : result nat :=
  _ <- index_poses Ts ;;
  let ts := translations Ts in
  np_argmax (firstn 25 (map (raw_dists ts 0) (seq 0 (length ts)))).

(** ** Finite distance matrices *)

(** the entries of the distance matrix of a finite point list, row-major,
    and the largest of them *)
Definition rflat (ps : list pt) : list R :=
  flat_map (fun i => map (rraw ps i) (seq 0 (length ps))) (seq 0 (length ps)).

Definition rmax_dist (ps : list pt) : R :=
  match rflat ps with
  | [] => 0
  | x :: tl => fold_left Rmax tl x
  end.

(** the translation of a finite pose *)
Definition position (P : rmat) : pt := (P 0%nat 3%nat, P 1%nat 3%nat, P 2%nat 3%nat).

(** the image of the point [p] under [x |-> s.R.x + t] *)
Definition similar_pt (s : R) (Rm : rmat) (tv p : pt) : pt :=
  (s * (Rm 0%nat 0%nat * fst (fst p) + Rm 0%nat 1%nat * snd (fst p) + Rm 0%nat 2%nat * snd p)
   + fst (fst tv),
   s * (Rm 1%nat 0%nat * fst (fst p) + Rm 1%nat 1%nat * snd (fst p) + Rm 1%nat 2%nat * snd p)
   + snd (fst tv),
   s * (Rm 2%nat 0%nat * fst (fst p) + Rm 2%nat 1%nat * snd (fst p) + Rm 2%nat 2%nat * snd p)
   + snd tv).

(** the duplicate mask of a finite point list *)
Definition rmask (ps : list pt) (i j : nat) : bool :=
  dup_mask (normalize_fill (fun a b => Fin (rraw ps a b)) (Fin (rmax_dist ps))) i j.

(** a quarter turn about the z axis, as a pose at the origin *)
Definition turn_z : rmat :=
  rmat_of_rows [[0; - 1; 0; 0]; [1; 0; 0; 0]; [0; 0; 1; 0]; [0; 0; 0; 1]].

(** ** Finite homogeneous transforms *)

(** the matrix [T] of cell 10 for a finite block and offset, and the 4x4
    product, on reals *)
Definition assemble_r (M : rmat) (tv : pt) : rmat :=
  fun i j =>
    if Nat.eqb i 3 && Nat.eqb j 3 then 1
    else if Nat.ltb i 3 && Nat.eqb j 3 then pt_nth tv i
    else if Nat.ltb i 3 && Nat.ltb j 3 then M i j
    else 0.

Definition mul4 (A B : rmat) : rmat :=
  fun i j => A i 0%nat * B 0%nat j + A i 1%nat * B 1%nat j
             + A i 2%nat * B 2%nat j + A i 3%nat * B 3%nat j.

(** ** Finite cameras *)

(** exactly one of the two horizontal ray components is zero *)
Definition half_horizontal (P : rmat) : Prop :=
  (P 0%nat 2%nat = 0 /\ P 1%nat 2%nat <> 0)
  \/ (P 0%nat 2%nat <> 0 /\ P 1%nat 2%nat = 0).

(** the matrix [T] holds the finite entries of [P] *)
Definition reads_as (T : mat) (P : rmat) : Prop :=
  forall i j, T i j = Fin (P i j).

(** the height estimate of a regular camera, and the mean of a list *)
Definition height_r (P : rmat) : R :=
  P 2%nat 2%nat * ray_abscissa P + P 2%nat 3%nat.

Definition mean_r (l : list R) : R := fold_left Rplus l 0 / INR (length l).

(** [recenter_z] and [rescale_pose] on finite poses *)
Definition shift_z (z : R) (P : rmat) : rmat :=
  fun i j => if Nat.eqb i 2 && Nat.eqb j 3 then P i j - z else P i j.

Definition scale_t (s : R) (P : rmat) : rmat :=
  fun i j => if Nat.ltb i 3 && Nat.eqb j 3 then P i j * s else P i j.

(** ** Cells 15 and 16: the ray of the first camera *)

(** [np.linalg.norm] of a 3-vector: the root of its dot product with
    itself *)
Definition np_norm (v : vec3) : npfloat :=
  np_sqrt (np_sum [np_square (vx v); np_square (vy v); np_square (vz v)]).

(** [ray_angle = R[:, 2].reshape(-1, 1)] is a view of the third column of
    the rotation block of [Ts[0]]; [ray_angle /= np.linalg.norm(ray_angle)]
    divides that column in place. *)
Definition normalize_ray (T : mat) : mat :=
  let n := np_norm (ray_dir_of T) in
  fun i j => if Nat.ltb i 3 && Nat.eqb j 2 then np_div (T i j) n else T i j.

(** cell 15: the Pose Set after the in-place division, [t] and
    [ray_angle]; [Ts[0, ...]] raises [IndexError] on an empty Pose Set *)
Definition cell15 (Ts : list mat) : result (list mat * vec3 * vec3) :=
  match Ts with
  | [] => raise IndexError
  | T0 :: rest =>
      let T0' := normalize_ray T0 in
      ok (T0' :: rest, translation_of T0', ray_dir_of T0')
  end.

Section Cell16.

(** Line 214 compares two quotients with [==].  The two are computed, and
    rounded, along different paths, and whether two finite floats come out
    equal is not determined by the exact arithmetic of this model: the
    outcome of [==] on two finite values is the parameter [float_eq], about
    which nothing is assumed.  A NaN never compares equal, an infinity only
    to itself. *)
Variable float_eq : R -> R -> bool.

Definition np_eqb (a b : npfloat) : bool :=
  match a, b with
  | Fin x, Fin y => float_eq x y
  | PInf, PInf | NInf, NInf => true
  | _, _ => false
  end.

(** cell 16: [z_height], the three-component [v_xy] and [end_of_ray] *)
Definition cell16 (t ray_angle : vec3) : result (npfloat * vec3 * vec3) :=
  let x0 := np_neg (vx t) in
  let x1 := np_neg (vy t) in
  let r0 := vx ray_angle in
  let r1 := vy ray_angle in
  let num := np_add (np_mul x0 r0) (np_mul x1 r1) in
  let den := np_add (np_square r0) (np_square r1) in
  let v0 := np_div (np_mul num r0) den in
  let v1 := np_div (np_mul num r1) den in
  _ <- py_assert (np_eqb (np_div v0 r0) (np_div v1 r1)) ;;
  let dz_height := np_div (np_mul (vz ray_angle) v0) r0 in
  let z_height := np_add dz_height (vz t) in
  ok (z_height, (v0, v1, dz_height),
      (np_add (vx t) v0, np_add (vy t) v1, np_add (vz t) dz_height)).

End Cell16.

(** the squared length of the third column of the rotation block *)
Definition ray_sq (P : rmat) : R :=
  P 0%nat 2%nat * P 0%nat 2%nat + P 1%nat 2%nat * P 1%nat 2%nat
  + P 2%nat 2%nat * P 2%nat 2%nat.

(** the point of the viewing ray at the abscissa [ray_abscissa] *)
Definition ray_foot (P : rmat) : pt :=
  (P 0%nat 3%nat + ray_abscissa P * P 0%nat 2%nat,
   P 1%nat 3%nat + ray_abscissa P * P 1%nat 2%nat,
   P 2%nat 3%nat + ray_abscissa P * P 2%nat 2%nat).

(** a finite pose whose third rotation column is divided by its length *)
Definition unit_ray (P : rmat) : rmat :=
  fun i j => if Nat.ltb i 3 && Nat.eqb j 2 then P i j / sqrt (ray_sq P) else P i j.

(** ** Cells 18 and 21: the plotted ray ends *)

(** a row of the three-column [v_xy] that cell 17 leaves behind *)
Definition v_xy_of (T : mat) : vec3 :=
  let d := ray_dir_of T in
  let t := translation_of T in
  let x0 := np_neg (vx t) in
  let x1 := np_neg (vy t) in
  let r0 := vx d in
  let r1 := vy d in
  let num := np_add (np_mul x0 r0) (np_mul x1 r1) in
  let den := np_add (np_square r0) (np_square r1) in
  let v0 := np_div (np_mul num r0) den in
  let v1 := np_div (np_mul num r1) den in
  (v0, v1, np_mul (vz d) (np_div v0 r0)).

Definition vec_add (a b : vec3) : vec3 :=
  (np_add (vx a) (vx b), np_add (vy a) (vy b), np_add (vz a) (vz b)).

Definition vec_scale (a : vec3) (s : R) : vec3 :=
  (np_mul (vx a) (Fin s), np_mul (vy a) (Fin s), np_mul (vz a) (Fin s)).

(** cell 18, [end_of_ray = ts + v_xy]: [ts] is the array that cell 17 has
    re-centred in place, [v_xy] was computed before *)
Definition cell18 (Ts : list mat) : result (list vec3) :=
  out <- cell17 Ts ;;
  ok (map (fun p => vec_add (fst p) (snd p))
          (combine (translations (snd out)) (map v_xy_of Ts))).

(** cell 21, [end_of_ray = ts_new + v_xy * scale_factor], after the
    in-place rescale of cell 20 *)
Definition cell21 (fx fy cx cy : R) (Ts : list mat) : result (list vec3) :=
  out <- cell17 Ts ;;
  s <- scale_factor fx fy cx cy ;;
  Ts20 <- cell20 fx fy cx cy (snd out) ;;
  ok (map (fun p => vec_add (fst p) (vec_scale (snd p) s))
          (combine (translations Ts20) (map v_xy_of Ts))).

(** the point [ray_foot] seen from the height [z] *)
Definition plot_end (z : R) (P : rmat) : pt :=
  (fst (fst (ray_foot P)), snd (fst (ray_foot P)), snd (ray_foot P) - z).

(** * Properties *)

(** ** The removal loop *)

Lemma bind_ok {A B : Type} (m : result A) (k : A -> result B) (b : B) :
  bind m k = ok b -> exists a, m = ok a /\ k a = ok b.
Proof.
  destruct m as [e | a]; simpl; intros H.
  - discriminate.
  - exists a. split; [reflexivity | exact H].
Qed.

Lemma list_remove_absent (x : nat) (l : list nat) :
  ~ In x l -> list_remove x l = raise ValueError.
Proof.
  induction l as [| y tl IH]; simpl; intros Hn.
  - reflexivity.
  - destruct (Nat.eqb_spec y x) as [-> | Hne].
    + exfalso. apply Hn. now left.
    + rewrite IH; [reflexivity |]. intros Hin. apply Hn. now right.
Qed.

Lemma drop_absent (x : nat) (l : list nat) : ~ In x l -> drop x l = l.
Proof.
  induction l as [| y tl IH]; simpl; intros Hn; [reflexivity |].
  destruct (Nat.eqb_spec y x) as [-> | Hne]; simpl.
  - exfalso. apply Hn. now left.
  - f_equal. apply IH. intros Hin. apply Hn. now right.
Qed.

Lemma list_remove_present (x : nat) (l : list nat) :
  NoDup l -> In x l -> list_remove x l = ok (drop x l).
Proof.
  induction l as [| y tl IH]; simpl; intros Hnd Hin; [contradiction |].
  inversion Hnd as [| ? ? Hy Htl]; subst.
  destruct (Nat.eqb_spec y x) as [-> | Hne]; simpl.
  - now rewrite drop_absent.
  - destruct Hin as [-> | Hin]; [contradiction |].
    now rewrite IH.
Qed.

Lemma drop_NoDup (x : nat) (l : list nat) : NoDup l -> NoDup (drop x l).
Proof. intros H. now apply NoDup_filter. Qed.

Lemma drop_In (x y : nat) (l : list nat) : In y (drop x l) <-> In y l /\ y <> x.
Proof.
  unfold drop. rewrite filter_In. split; intros [H1 H2]; split; trivial.
  - destruct (Nat.eqb_spec y x); [discriminate | assumption].
  - destruct (Nat.eqb_spec y x); [contradiction | reflexivity].
Qed.

Lemma existsb_eqb_In (y : nat) (l : list nat) :
  existsb (Nat.eqb y) l = true <-> In y l.
Proof.
  rewrite existsb_exists. split.
  - intros [x [Hin He]]. apply Nat.eqb_eq in He. now subst.
  - intros Hin. exists y. split; [assumption | apply Nat.eqb_refl].
Qed.

Lemma survivors_In (pairs : list (nat * nat)) (l : list nat) (y : nat) :
  In y (survivors pairs l) <-> In y l /\ ~ In y (map snd pairs).
Proof.
  unfold survivors. rewrite filter_In, negb_true_iff.
  rewrite <- (existsb_eqb_In y (map snd pairs)).
  destruct (existsb (Nat.eqb y) (map snd pairs)); split; intros [H1 H2];
    split; trivial; try discriminate; try (intros H; discriminate).
  exfalso. now apply H2.
Qed.

Lemma survivors_drop (pairs : list (nat * nat)) (x : nat) (l : list nat) :
  survivors pairs (drop x l) = survivors ((0%nat, x) :: pairs) l.
Proof.
  unfold survivors, drop. induction l as [| y tl IH]; simpl; [reflexivity |].
  destruct (Nat.eqb y x); simpl.
  - exact IH.
  - destruct (existsb (Nat.eqb y) (map snd pairs)); simpl; [exact IH | now f_equal].
Qed.

(** The loop completes exactly when the [dup]s are pairwise distinct
    members of the list; it then leaves the survivors. *)
Lemma remove_loop_ok (pairs : list (nat * nat)) (l : list nat) :
  NoDup l -> NoDup (map snd pairs) -> incl (map snd pairs) l ->
  remove_loop pairs l = ok (survivors pairs l).
Proof.
  revert l. induction pairs as [| [i x] rest IH]; intros l Hl Hnd Hincl; simpl.
  - unfold survivors. simpl. f_equal. clear.
    induction l as [| y tl IH]; simpl; [reflexivity | now f_equal].
  - simpl in Hnd, Hincl. inversion Hnd as [| ? ? Hx Hrest]; subst.
    rewrite list_remove_present; [simpl | assumption | apply Hincl; now left].
    rewrite IH.
    + now rewrite survivors_drop.
    + now apply drop_NoDup.
    + assumption.
    + intros y Hy. apply drop_In. split.
      * apply Hincl. now right.
      * intros ->. contradiction.
Qed.

Lemma remove_loop_subset (pairs : list (nat * nat)) (l out : list nat) :
  remove_loop pairs l = ok out -> incl (map snd pairs) l.
Proof.
  revert l out. induction pairs as [| [i x] rest IH]; intros l out H; simpl in *.
  - intros y [].
  - apply bind_ok in H. destruct H as [l' [H1 H2]].
    assert (Hx : In x l).
    { destruct (in_dec Nat.eq_dec x l) as [Hin | Hn]; [assumption |].
      rewrite list_remove_absent in H1 by assumption. discriminate. }
    intros y [<- | Hy]; [assumption |].
    specialize (IH _ _ H2 y Hy).
    clear - H1 IH. revert l' H1 IH.
    induction l as [| z tl IHl]; simpl; intros l' H1 Hin; [discriminate |].
    destruct (Nat.eqb z x).
    + inversion H1; subst. now right.
    + apply bind_ok in H1. destruct H1 as [tl' [H1 H2]].
      inversion H2; subst. destruct Hin as [-> | Hin]; [now left |].
      right. eapply IHl; eauto.
Qed.

Lemma list_remove_error (x : nat) (l : list nat) (e : exn) :
  list_remove x l = inl e -> e = ValueError.
Proof.
  revert e. induction l as [| z tl IH]; simpl; intros e H.
  - now inversion H.
  - destruct (Nat.eqb z x); [discriminate |].
    destruct (list_remove x tl) as [e' | tl'] eqn:E; simpl in H.
    + inversion H; subst. now apply IH.
    + discriminate.
Qed.

Lemma remove_loop_error (pairs : list (nat * nat)) (l : list nat) (e : exn) :
  remove_loop pairs l = inl e -> e = ValueError.
Proof.
  revert l. induction pairs as [| [a b] rest IH]; simpl; intros l H.
  - discriminate.
  - destruct (list_remove b l) as [e' | l'] eqn:E; simpl in H.
    + inversion H; subst. eapply list_remove_error; eauto.
    + eapply IH; eauto.
Qed.

Lemma remove_loop_repeated (pairs : list (nat * nat)) (l : list nat) :
  NoDup l -> ~ NoDup (map snd pairs) ->
  remove_loop pairs l = raise ValueError.
Proof.
  intros Hl Hnd.
  destruct (remove_loop pairs l) as [e | out] eqn:E.
  - apply remove_loop_error in E. now subst.
  - exfalso. apply Hnd. clear Hnd. revert l out Hl E.
    induction pairs as [| [i x] rest IH]; intros l out Hl E; simpl in *.
    + constructor.
    + apply bind_ok in E. destruct E as [l' [E1 E2]].
      destruct (in_dec Nat.eq_dec x l) as [Hin | Hn].
      * rewrite list_remove_present in E1 by assumption.
        inversion E1; subst l'. constructor.
        -- intros Hxr. apply remove_loop_subset in E2.
           specialize (E2 x Hxr). apply drop_In in E2. now destruct E2.
        -- eapply IH; [| exact E2]. now apply drop_NoDup.
      * rewrite list_remove_absent in E1 by assumption. discriminate.
Qed.

(** ** [argwhere] and the filtered pairs *)

Lemma NoDup_flat_map_disjoint {A B : Type} (f : A -> list B) (l : list A) :
  NoDup l ->
  (forall x, In x l -> NoDup (f x)) ->
  (forall x y b, In x l -> In y l -> In b (f x) -> In b (f y) -> x = y) ->
  NoDup (flat_map f l).
Proof.
  induction 1 as [| x l Hx Hl IH]; simpl; intros Hf Hdisj.
  - constructor.
  - apply NoDup_app.
    + apply Hf. now left.
    + apply IH.
      * intros y Hy. apply Hf. now right.
      * intros y z b Hy Hz. apply Hdisj; now right.
    + intros b Hb Hb'. apply in_flat_map in Hb'. destruct Hb' as [y [Hy Hby]].
      assert (E : x = y).
      { apply (Hdisj x y b); [now left | now right | assumption | assumption]. }
      subst. contradiction.
Qed.

Lemma NoDup_map_injective {A B : Type} (f : A -> B) (l : list A) :
  NoDup (map f l) ->
  forall x y, In x l -> In y l -> f x = f y -> x = y.
Proof.
  induction l as [| a l IH]; simpl; intros Hnd x y Hx Hy Hxy; [contradiction |].
  inversion Hnd as [| ? ? Ha Hl]; subst.
  destruct Hx as [-> | Hx], Hy as [-> | Hy].
  - reflexivity.
  - exfalso. apply Ha. rewrite Hxy. now apply in_map.
  - exfalso. apply Ha. rewrite <- Hxy. now apply in_map.
  - now apply IH.
Qed.

Lemma argwhere_row_In (n i : nat) (mask : nat -> nat -> bool) (p : nat * nat) :
  In p (flat_map (fun j => if mask i j then [(i, j)] else []) (seq 0 n)) <->
  fst p = i /\ (snd p < n)%nat /\ mask i (snd p) = true.
Proof.
  rewrite in_flat_map. split.
  - intros [j [Hj Hp]]. apply in_seq in Hj.
    destruct (mask i j) eqn:E; simpl in Hp; [| contradiction].
    destruct Hp as [<- | []]. simpl. repeat split; [lia | assumption].
  - intros [<- [Hn Hm]]. exists (snd p). split; [apply in_seq; lia |].
    rewrite Hm. left. now destruct p.
Qed.

Lemma argwhere_In (n : nat) (mask : nat -> nat -> bool) (i j : nat) :
  In (i, j) (argwhere n mask) <-> (i < n)%nat /\ (j < n)%nat /\ mask i j = true.
Proof.
  unfold argwhere. rewrite in_flat_map. split.
  - intros [i' [Hi Hp]]. apply in_seq in Hi. apply argwhere_row_In in Hp.
    simpl in Hp. destruct Hp as [<- [Hj Hm]]. repeat split; [lia | | ]; assumption.
  - intros [Hi [Hj Hm]]. exists i. split; [apply in_seq; lia |].
    apply argwhere_row_In. now simpl.
Qed.

Lemma argwhere_NoDup (n : nat) (mask : nat -> nat -> bool) :
  NoDup (argwhere n mask).
Proof.
  unfold argwhere. apply NoDup_flat_map_disjoint.
  - apply seq_NoDup.
  - intros i _. apply NoDup_flat_map_disjoint.
    + apply seq_NoDup.
    + intros j _. destruct (mask i j); repeat constructor. intros [].
    + intros j j' b _ _ Hb Hb'.
      destruct (mask i j); [| contradiction].
      destruct (mask i j'); [| contradiction].
      destruct Hb as [<- | []], Hb' as [E | []]. now inversion E.
  - intros i i' b _ _ Hb Hb'.
    apply argwhere_row_In in Hb, Hb'. destruct Hb as [<- _], Hb' as [<- _].
    reflexivity.
Qed.

Lemma flat_map_ext_in {A B : Type} (f g : A -> list B) (l : list A) :
  (forall a, In a l -> f a = g a) -> flat_map f l = flat_map g l.
Proof.
  induction l as [| a l IH]; simpl; intros H; [reflexivity |].
  rewrite H by now left. f_equal. apply IH. intros b Hb. apply H. now right.
Qed.

Lemma argwhere_ext (n : nat) (m1 m2 : nat -> nat -> bool) :
  (forall i j, (i < n)%nat -> (j < n)%nat -> m1 i j = m2 i j) ->
  argwhere n m1 = argwhere n m2.
Proof.
  intros H. unfold argwhere.
  apply flat_map_ext_in. intros i Hi. apply in_seq in Hi.
  apply flat_map_ext_in. intros j Hj. apply in_seq in Hj.
  rewrite H by lia. reflexivity.
Qed.

Lemma upper_pairs_In (n : nat) (mask : nat -> nat -> bool) (i j : nat) :
  In (i, j) (upper_pairs (argwhere n mask)) <->
  (i < j)%nat /\ (j < n)%nat /\ mask i j = true.
Proof.
  unfold upper_pairs. rewrite filter_In, argwhere_In. simpl.
  rewrite Nat.ltb_lt. split.
  - intros [[Hi [Hj Hm]] Hlt]. auto.
  - intros [Hlt [Hj Hm]]. repeat split; trivial. lia.
Qed.

Lemma upper_pairs_NoDup (n : nat) (mask : nat -> nat -> bool) :
  NoDup (upper_pairs (argwhere n mask)).
Proof. apply NoDup_filter, argwhere_NoDup. Qed.

Lemma upper_pairs_dups (n : nat) (mask : nat -> nat -> bool) (j : nat) :
  In j (map snd (upper_pairs (argwhere n mask))) <->
  (j < n)%nat /\ exists i, (i < j)%nat /\ mask i j = true.
Proof.
  rewrite in_map_iff. split.
  - intros [[i j'] [E Hin]]. simpl in E. subst j'.
    apply upper_pairs_In in Hin. destruct Hin as [Hlt [Hj Hm]].
    split; [assumption |]. now exists i.
  - intros [Hj [i [Hlt Hm]]]. exists (i, j). split; [reflexivity |].
    now apply upper_pairs_In.
Qed.

Lemma at_most_one_lower_NoDup (n : nat) (mask : nat -> nat -> bool) :
  at_most_one_lower n mask <-> NoDup (map snd (upper_pairs (argwhere n mask))).
Proof.
  split.
  - intros H. apply NoDup_map_NoDup_ForallPairs; [| apply upper_pairs_NoDup].
    intros [i1 j1] [i2 j2] H1 H2 E. simpl in E. subst j2.
    apply upper_pairs_In in H1, H2.
    destruct H1 as [? [? ?]], H2 as [? [? ?]].
    f_equal. eapply H; eauto.
  - intros Hnd i1 i2 j Hi1 Hi2 Hj Hm1 Hm2.
    assert (E : (i1, j) = (i2, j)).
    { eapply NoDup_map_injective; [exact Hnd | | | reflexivity];
        apply upper_pairs_In; auto. }
    now inversion E.
Qed.

Lemma remove_duplicates_mask_ok (n : nat) (mask : nat -> nat -> bool) :
  at_most_one_lower n mask ->
  remove_duplicates_mask n mask =
  ok (survivors (upper_pairs (argwhere n mask)) (seq 0 n)).
Proof.
  intros H. unfold remove_duplicates_mask. apply remove_loop_ok.
  - apply seq_NoDup.
  - now apply at_most_one_lower_NoDup.
  - intros j Hj. apply upper_pairs_dups in Hj. apply in_seq. lia.
Qed.

Lemma remove_duplicates_mask_raises (n : nat) (mask : nat -> nat -> bool) :
  ~ at_most_one_lower n mask ->
  remove_duplicates_mask n mask = raise ValueError.
Proof.
  intros H. unfold remove_duplicates_mask. apply remove_loop_repeated.
  - apply seq_NoDup.
  - intros Hnd. apply H. now apply at_most_one_lower_NoDup.
Qed.

Lemma remove_duplicates_mask_complete (n : nat) (mask : nat -> nat -> bool)
      (out : list nat) :
  remove_duplicates_mask n mask = ok out ->
  at_most_one_lower n mask /\
  out = survivors (upper_pairs (argwhere n mask)) (seq 0 n).
Proof.
  intros H.
  assert (Hnd : NoDup (map snd (upper_pairs (argwhere n mask)))).
  { destruct (NoDup_dec Nat.eq_dec
                (map snd (upper_pairs (argwhere n mask)))) as [Hy | Hn];
      [assumption |].
    unfold remove_duplicates_mask in H.
    rewrite remove_loop_repeated in H; [discriminate | apply seq_NoDup | assumption]. }
  apply at_most_one_lower_NoDup in Hnd. split; [assumption |].
  rewrite remove_duplicates_mask_ok in H by assumption. now inversion H.
Qed.

(** membership in the output of a completed filter *)
Lemma remove_duplicates_mask_In (n : nat) (mask : nat -> nat -> bool)
      (out : list nat) (j : nat) :
  remove_duplicates_mask n mask = ok out ->
  (In j out <->
   (j < n)%nat /\ forall i, (i < j)%nat -> mask i j = false).
Proof.
  intros H. apply remove_duplicates_mask_complete in H. destruct H as [_ ->].
  rewrite survivors_In, in_seq, upper_pairs_dups. split.
  - intros [Hj Hno]. split; [lia |]. intros i Hi.
    destruct (mask i j) eqn:E; [| reflexivity].
    exfalso. apply Hno. split; [lia |]. now exists i.
  - intros [Hj Hno]. split; [lia |]. intros [_ [i [Hi Hm]]].
    rewrite Hno in Hm by assumption. discriminate.
Qed.

(** ** Transfer from integer coordinates *)

Lemma Rltb_true (a b : R) : a < b -> Rltb a b = true.
Proof. intros H. unfold Rltb. destruct (Rlt_dec a b); [reflexivity | contradiction]. Qed.

Lemma Rltb_false (a b : R) : b <= a -> Rltb a b = false.
Proof. intros H. unfold Rltb. destruct (Rlt_dec a b); [lra | reflexivity]. Qed.

Lemma Rleb_true (a b : R) : a <= b -> Rleb a b = true.
Proof. intros H. unfold Rleb. destruct (Rle_dec a b); [reflexivity | contradiction]. Qed.

Lemma Reqb_true (a b : R) : a = b -> Reqb a b = true.
Proof. intros H. unfold Reqb. destruct (Req_dec_T a b); [reflexivity | contradiction]. Qed.

Lemma Reqb_false (a b : R) : a <> b -> Reqb a b = false.
Proof. intros H. unfold Reqb. destruct (Req_dec_T a b); [contradiction | reflexivity]. Qed.

Lemma translation_of_zpt (p : zpt) : translation_of (pose_of_zpt p) = vec_of_zpt p.
Proof. reflexivity. Qed.

Lemma translations_zpts (pts : list zpt) :
  translations (map pose_of_zpt pts) = map vec_of_zpt pts.
Proof.
  unfold translations. rewrite map_map. apply map_ext. intros p.
  apply translation_of_zpt.
Qed.

Lemma zdist2_nonneg (p q : zpt) : (0 <= zdist2 p q)%Z.
Proof.
  unfold zdist2.
  pose proof (Z.square_nonneg (fst (fst p) - fst (fst q))).
  pose proof (Z.square_nonneg (snd (fst p) - snd (fst q))).
  pose proof (Z.square_nonneg (snd p - snd q)).
  lia.
Qed.

Lemma dist_zpt (p q : zpt) :
  dist (vec_of_zpt p) (vec_of_zpt q) = Fin (sqrt (IZR (zdist2 p q))).
Proof.
  destruct p as [[x y] z], q as [[x' y'] z'].
  unfold dist, vec_of_zpt, zdist2, vx, vy, vz. simpl.
  rewrite Rltb_false.
  - f_equal. f_equal.
    rewrite !plus_IZR, !mult_IZR, !minus_IZR. ring.
  - pose proof (Rle_0_sqr (IZR x + - IZR x')).
    pose proof (Rle_0_sqr (IZR y + - IZR y')).
    pose proof (Rle_0_sqr (IZR z + - IZR z')).
    unfold Rsqr in *. lra.
Qed.

Lemma raw_dists_zpts (pts : list zpt) (i j : nat) :
  raw_dists (map vec_of_zpt pts) i j = Fin (sqrt (IZR (zraw pts i j))).
Proof.
  unfold raw_dists, zraw.
  change vec3_0 with (vec_of_zpt (0, 0, 0)%Z).
  rewrite !map_nth. apply dist_zpt.
Qed.

Lemma flatten_zpts (n : nat) (pts : list zpt) :
  flatten n (raw_dists (map vec_of_zpt pts)) =
  map (fun d => Fin (sqrt (IZR d))) (zflatten n (zraw pts)).
Proof.
  unfold flatten, zflatten.
  generalize (seq 0 n) at 2 4. intros rows.
  induction rows as [| i rows IH]; simpl; [reflexivity |].
  rewrite map_app, IH. f_equal.
  rewrite map_map. apply map_ext. intros j. apply raw_dists_zpts.
Qed.

Lemma np_maximum_sqrt (a b : Z) :
  np_maximum (Fin (sqrt (IZR a))) (Fin (sqrt (IZR b))) =
  Fin (sqrt (IZR (Z.max a b))).
Proof.
  simpl. unfold Rltb.
  destruct (Rlt_dec (sqrt (IZR a)) (sqrt (IZR b))) as [Hlt | Hge].
  - destruct (Z.max_spec a b) as [[Hab ->] | [Hab ->]]; [reflexivity |].
    exfalso. apply IZR_le in Hab. apply sqrt_le_1_alt in Hab. lra.
  - destruct (Z.max_spec a b) as [[Hab ->] | [Hab ->]]; [| reflexivity].
    f_equal. apply Z.lt_le_incl, IZR_le, sqrt_le_1_alt in Hab. lra.
Qed.

Lemma fold_maximum_sqrt (l : list Z) (a : Z) :
  fold_left np_maximum (map (fun d => Fin (sqrt (IZR d))) l) (Fin (sqrt (IZR a))) =
  Fin (sqrt (IZR (fold_left Z.max l a))).
Proof.
  revert a. induction l as [| b l IH]; intros a; simpl fold_left; [reflexivity |].
  rewrite <- IH. f_equal. apply np_maximum_sqrt.
Qed.

Lemma np_max_zpts (pts : list zpt) :
  pts <> [] ->
  np_max (flatten (length pts) (raw_dists (map vec_of_zpt pts))) =
  ok (Fin (sqrt (IZR (zmax2 pts)))).
Proof.
  intros Hne. rewrite flatten_zpts. unfold zmax2.
  destruct (zflatten (length pts) (zraw pts)) as [| x tl] eqn:E.
  - exfalso. destruct pts as [| p pts]; [now apply Hne |].
    unfold zflatten in E. simpl in E. discriminate.
  - simpl. f_equal. apply fold_maximum_sqrt.
Qed.

Lemma dists_of_zpts (pts : list zpt) :
  pts <> [] ->
  dists_of (translations (map pose_of_zpt pts)) = ok (zdists pts).
Proof.
  intros Hne. rewrite translations_zpts. unfold dists_of.
  rewrite length_map, np_max_zpts by assumption. reflexivity.
Qed.

Lemma threshold_bounds : 1 / 16 < PI * (15 / 360) / 2 <= 1 / 12.
Proof.
  pose proof PI2_3_2. pose proof PI_4. split; lra.
Qed.

Lemma sqrt_scale (k x : R) : 0 <= k -> 0 <= x -> sqrt (k * k * x) = k * sqrt x.
Proof.
  intros Hk Hx. rewrite sqrt_mult by nra. now rewrite sqrt_square.
Qed.

Lemma zmax2_pos_sqrt (pts : list zpt) :
  (0 < zmax2 pts)%Z -> 0 < sqrt (IZR (zmax2 pts)).
Proof. intros H. apply sqrt_lt_R0. now apply IZR_lt. Qed.

Lemma zdists_off_diagonal (pts : list zpt) (i j : nat) :
  (0 < zmax2 pts)%Z -> i <> j ->
  zdists pts i j = Fin (sqrt (IZR (zraw pts i j)) / sqrt (IZR (zmax2 pts))).
Proof.
  intros HM Hij. unfold zdists, normalize_fill.
  destruct (Nat.eqb_spec i j) as [| _]; [contradiction |].
  rewrite raw_dists_zpts. simpl.
  rewrite Reqb_false; [reflexivity |].
  pose proof (zmax2_pos_sqrt pts HM). lra.
Qed.

Lemma zdists_diagonal (pts : list zpt) (i : nat) : zdists pts i i = Fin 1.
Proof. unfold zdists, normalize_fill. now rewrite Nat.eqb_refl. Qed.

Lemma zraw_nonneg (pts : list zpt) (i j : nat) : (0 <= zraw pts i j)%Z.
Proof. apply zdist2_nonneg. Qed.

Lemma zdecided_pair (pts : list zpt) (i j : nat) :
  zdecided pts = true -> (i < length pts)%nat -> (j < length pts)%nat ->
  i <> j ->
  (256 * zraw pts i j < zmax2 pts)%Z \/ (zmax2 pts <= 144 * zraw pts i j)%Z.
Proof.
  unfold zdecided. cbv zeta. intros H Hi Hj Hij.
  apply andb_true_iff in H. destruct H as [_ H].
  rewrite forallb_forall in H. specialize (H i).
  rewrite forallb_forall in H.
  assert (Hi' : In i (seq 0 (length pts))) by (apply in_seq; lia).
  assert (Hj' : In j (seq 0 (length pts))) by (apply in_seq; lia).
  specialize (H Hi' j Hj').
  apply orb_true_iff in H. destruct H as [H | H].
  - apply orb_true_iff in H. destruct H as [H | H].
    + apply Nat.eqb_eq in H. contradiction.
    + left. now apply Z.ltb_lt.
  - right. now apply Z.leb_le.
Qed.

Lemma zdecided_pos (pts : list zpt) : zdecided pts = true -> (0 < zmax2 pts)%Z.
Proof.
  unfold zdecided. cbv zeta. intros H. apply andb_true_iff in H. destruct H as [H _].
  now apply Z.ltb_lt.
Qed.

(** on a decided integer Pose Set the duplicate mask of cell 8 is [zmask] *)
Lemma dup_mask_zdists (pts : list zpt) (i j : nat) :
  zdecided pts = true -> (i < length pts)%nat -> (j < length pts)%nat ->
  dup_mask (zdists pts) i j = zmask pts i j.
Proof.
  intros Hd Hi Hj. unfold dup_mask, zmask, threshold. cbv zeta.
  pose proof threshold_bounds as [Hlo Hhi].
  destruct (Nat.eqb_spec i j) as [-> | Hij].
  - rewrite zdists_diagonal. simpl. apply Rltb_false. lra.
  - pose proof (zdecided_pos pts Hd) as HM.
    rewrite zdists_off_diagonal by assumption. cbn [np_ltb negb andb].
    pose proof (zmax2_pos_sqrt pts HM) as Hs.
    pose proof (zraw_nonneg pts i j) as Hd0.
    assert (Hsd : 0 <= sqrt (IZR (zraw pts i j))) by apply sqrt_pos.
    destruct (zdecided_pair pts i j Hd Hi Hj Hij) as [Hlt | Hge].
    + assert (E : (256 * zraw pts i j <? zmax2 pts)%Z = true) by now apply Z.ltb_lt.
      rewrite E. apply Rltb_true.
      assert (H16 : 16 * sqrt (IZR (zraw pts i j)) < sqrt (IZR (zmax2 pts))).
      { rewrite <- sqrt_scale by (try lra; now apply IZR_le).
        apply sqrt_lt_1_alt. split.
        - apply IZR_le in Hd0. lra.
        - apply IZR_lt in Hlt. rewrite mult_IZR in Hlt. lra. }
      apply Rlt_trans with (1 / 16); [| assumption].
      apply Rmult_lt_reg_r with (sqrt (IZR (zmax2 pts))); [assumption |].
      unfold Rdiv at 1. rewrite Rmult_assoc, Rinv_l by lra. lra.
    + assert (E : (256 * zraw pts i j <? zmax2 pts)%Z = false) by (apply Z.ltb_ge; lia).
      rewrite E. apply Rltb_false.
      assert (H12 : sqrt (IZR (zmax2 pts)) <= 12 * sqrt (IZR (zraw pts i j))).
      { rewrite <- sqrt_scale by (try lra; now apply IZR_le).
        apply sqrt_le_1_alt.
        apply IZR_le in Hge. rewrite mult_IZR in Hge. lra. }
      apply Rle_trans with (1 / 12); [assumption |].
      apply Rmult_le_reg_r with (sqrt (IZR (zmax2 pts))); [assumption |].
      unfold Rdiv at 2. rewrite Rmult_assoc, Rinv_l by lra. lra.
Qed.

(** the duplicate filter on a decided integer Pose Set runs on [zmask] *)
Lemma remove_duplicates_zpts (pts : list zpt) :
  zdecided pts = true ->
  remove_duplicates (map pose_of_zpt pts) =
  remove_duplicates_mask (length pts) (zmask pts).
Proof.
  intros Hd.
  assert (Hne : pts <> []).
  { intros ->. discriminate. }
  unfold remove_duplicates.
  replace (index_poses (map pose_of_zpt pts)) with (@ok unit tt)
    by (destruct pts; [contradiction | reflexivity]).
  cbn [bind ok]. rewrite dists_of_zpts by assumption. simpl.
  rewrite length_map. unfold remove_duplicates_mask. f_equal. f_equal.
  apply argwhere_ext. intros i j Hi Hj. now apply dup_mask_zdists.
Qed.

(** the comparison of cell 9 on an integer Pose Set *)
Lemma np_gtb_zdists (pts : list zpt) (a b c d : nat) :
  (0 < zmax2 pts)%Z -> a <> b -> c <> d ->
  np_gtb (zdists pts a b) (zdists pts c d) = (zraw pts c d <? zraw pts a b)%Z.
Proof.
  intros HM Hab Hcd. rewrite !zdists_off_diagonal by assumption.
  unfold np_gtb. simpl.
  pose proof (zmax2_pos_sqrt pts HM) as Hs.
  pose proof (zraw_nonneg pts a b) as H1. pose proof (zraw_nonneg pts c d) as H2.
  destruct (Z.ltb_spec (zraw pts c d) (zraw pts a b)) as [Hlt | Hge].
  - apply Rltb_true. apply Rmult_lt_compat_r; [now apply Rinv_0_lt_compat |].
    apply sqrt_lt_1_alt. split; [now apply IZR_le | now apply IZR_lt].
  - apply Rltb_false. apply Rmult_le_compat_r.
    + left. now apply Rinv_0_lt_compat.
    + apply sqrt_le_1_alt. now apply IZR_le.
Qed.

(** ** Runs of the duplicate filter *)

Example chain_filter :
  remove_duplicates (map pose_of_zpt chain_pts) = ok [0; 3]%nat.
Proof.
  rewrite remove_duplicates_zpts by (vm_compute; reflexivity).
  vm_compute. reflexivity.
Qed.

Example cluster_filter :
  remove_duplicates (map pose_of_zpt cluster_pts) = raise ValueError.
Proof.
  rewrite remove_duplicates_zpts by (vm_compute; reflexivity).
  vm_compute. reflexivity.
Qed.

Example fifty_filter :
  remove_duplicates (map pose_of_zpt fifty_pts) = ok (seq 0 27 ++ seq 28 22).
Proof.
  rewrite remove_duplicates_zpts by (vm_compute; reflexivity).
  vm_compute. reflexivity.
Qed.

(** ** The duplicate filter (cells 8 and 9) *)

Lemma threshold_below_one : np_ltb (Fin 1) threshold = false.
Proof.
  pose proof threshold_bounds as [_ H]. simpl. apply Rltb_false. lra.
Qed.

Lemma translations_length (Ts : list mat) : length (translations Ts) = length Ts.
Proof. apply length_map. Qed.

Lemma dists_of_inv (ts : list vec3) (dists : nat -> nat -> npfloat) :
  dists_of ts = ok dists ->
  exists m, np_max (flatten (length ts) (raw_dists ts)) = ok m /\
            dists = normalize_fill (raw_dists ts) m.
Proof.
  unfold dists_of. intros H. apply bind_ok in H. destruct H as [m [Hm H]].
  exists m. split; [assumption | now inversion H].
Qed.

Lemma remove_duplicates_unfold (Ts : list mat) (dists : nat -> nat -> npfloat) :
  dists_of (translations Ts) = ok dists ->
  remove_duplicates Ts = remove_duplicates_mask (length Ts) (dup_mask dists).
Proof.
  intros H. unfold remove_duplicates. rewrite H.
  destruct Ts; [discriminate | reflexivity].
Qed.

(** C10: when some pose index is flagged as a duplicate of two distinct
    lower-indexed poses, the removal loop removes that index twice and the
    filter raises [ValueError] instead of returning a reduced Pose Set; a
    filter that completes has no index that is the higher member of two
    flagged pairs, hence no three mutually flagged poses. *)
Theorem duplicate_of_two_lower_raises (Ts : list mat)
        (dists : nat -> nat -> npfloat) :
  dists_of (translations Ts) = ok dists ->
  ((exists i1 i2 j,
       i1 <> i2 /\ (i1 < j)%nat /\ (i2 < j)%nat /\ (j < length Ts)%nat /\
       dup_mask dists i1 j = true /\ dup_mask dists i2 j = true) ->
   remove_duplicates Ts = raise ValueError)
  /\
  (forall out, remove_duplicates Ts = ok out ->
     at_most_one_lower (length Ts) (dup_mask dists) /\
     forall a b c, (a < b)%nat -> (b < c)%nat -> (c < length Ts)%nat ->
       ~ (dup_mask dists a b = true /\ dup_mask dists a c = true /\
          dup_mask dists b c = true)).
Proof.
  intros Hd. rewrite (remove_duplicates_unfold Ts dists Hd). split.
  - intros [i1 [i2 [j [Hne [H1 [H2 [Hj [Hm1 Hm2]]]]]]]].
    apply remove_duplicates_mask_raises. intros Hone.
    apply Hne. eapply Hone; eauto.
  - intros out Hout. apply remove_duplicates_mask_complete in Hout.
    destruct Hout as [Hone _]. split; [assumption |].
    intros a b c Hab Hbc Hc [_ [Hac Hbc']].
    assert (E : a = b).
    { apply (Hone a b c); [lia | assumption | assumption | assumption | assumption]. }
    lia.
Qed.

Lemma duplicate_of_two_lower_raises_witness :
  remove_duplicates (map pose_of_zpt cluster_pts) = raise ValueError.
Proof.
  assert (Hdec : zdecided cluster_pts = true) by (vm_compute; reflexivity).
  assert (Hd : dists_of (translations (map pose_of_zpt cluster_pts))
               = ok (zdists cluster_pts)).
  { apply dists_of_zpts. discriminate. }
  apply (proj1 (duplicate_of_two_lower_raises _ _ Hd)).
  exists 0%nat, 1%nat, 2%nat.
  repeat split; try (simpl; lia);
    rewrite dup_mask_zdists by (assumption || (simpl; lia));
    vm_compute; reflexivity.
Defined.

(** C2, as amended: a pair of poses is flagged exactly when the two poses
    are distinct and their distance, divided by the largest entry of the
    distance matrix (the diagonal being overwritten by 1), is below
    pi * (15/360) / 2; the filter completes when no index is the higher
    member of two flagged pairs, and a completed filter keeps exactly the
    indices that are not the higher member of a flagged pair, so it drops
    the higher index of every flagged pair and keeps the lower one unless
    that one is itself the higher member of another flagged pair; with 50
    poses of which only 5 and 27 are flagged, the output has the 49 indices
    other than 27. *)
Theorem duplicate_filter_drops_higher (Ts : list mat) (m : npfloat) :
  np_max (flatten (length Ts) (raw_dists (translations Ts))) = ok m ->
  let n := length Ts in
  let dists := normalize_fill (raw_dists (translations Ts)) m in
  (forall i j,
      In (i, j) (argwhere n (dup_mask dists)) <->
      (i < n)%nat /\ (j < n)%nat /\ i <> j /\
      np_ltb (np_div (raw_dists (translations Ts) i j) m)
             (Fin (PI * (15 / 360) / 2)) = true)
  /\
  (at_most_one_lower n (dup_mask dists) ->
   exists out, remove_duplicates Ts = ok out)
  /\
  (forall out, remove_duplicates Ts = ok out ->
     forall j, In j out <->
               (j < n)%nat /\ forall i, (i < j)%nat -> dup_mask dists i j = false)
  /\
  (n = 50%nat ->
   (forall i j, (i < j)%nat -> (j < 50)%nat ->
                (dup_mask dists i j = true <-> i = 5%nat /\ j = 27%nat)) ->
   exists out, remove_duplicates Ts = ok out /\
               out = seq 0 27 ++ seq 28 22 /\
               length out = 49%nat /\ ~ In 27%nat out /\ In 5%nat out).
Proof.
  intros Hm n dists.
  assert (Hd : dists_of (translations Ts) = ok dists).
  { unfold dists_of. rewrite translations_length, Hm. reflexivity. }
  rewrite (remove_duplicates_unfold Ts dists Hd). fold n.
  split; [| split; [| split]].
  - intros i j. rewrite argwhere_In. unfold dists, dup_mask, normalize_fill.
    fold threshold.
    destruct (Nat.eqb_spec i j) as [-> | Hij].
    + rewrite threshold_below_one. split.
      * intros [_ [_ H]]. discriminate.
      * intros [_ [_ [H _]]]. now contradiction H.
    + split.
      * intros [Hi [Hj H]]. auto.
      * intros [Hi [Hj [_ H]]]. auto.
  - intros Hone. eexists. now apply remove_duplicates_mask_ok.
  - intros out Hout j. now apply remove_duplicates_mask_In.
  - intros Hn Honly.
    assert (Hone : at_most_one_lower n (dup_mask dists)).
    { intros i1 i2 j H1 H2 Hj Hm1 Hm2. rewrite Hn in Hj.
      apply Honly in Hm1, Hm2; try assumption. lia. }
    exists (survivors (upper_pairs (argwhere n (dup_mask dists))) (seq 0 n)).
    split; [now apply remove_duplicates_mask_ok |].
    assert (E : survivors (upper_pairs (argwhere n (dup_mask dists))) (seq 0 n)
                = seq 0 27 ++ seq 28 22).
    { unfold survivors.
      rewrite (filter_ext_in _ (fun y => negb (Nat.eqb y 27))).
      - rewrite Hn. reflexivity.
      - intros y Hy. f_equal. apply eq_true_iff_eq.
        rewrite existsb_eqb_In, upper_pairs_dups, Nat.eqb_eq. split.
        + intros [Hy' [i [Hi Hmi]]]. rewrite Hn in Hy'.
          apply Honly in Hmi; try assumption. lia.
        + intros ->. split; [lia |]. exists 5%nat. split; [lia |].
          apply Honly; [lia | lia | split; reflexivity]. }
    rewrite E. split; [reflexivity |]. split; [reflexivity |]. split.
    + intros H. apply in_app_or in H. destruct H as [H | H]; apply in_seq in H; lia.
    + apply in_or_app. left. apply in_seq. lia.
Qed.

Lemma fifty_only_5_27 (i j : nat) :
  (i < j)%nat -> (j < 50)%nat ->
  (zmask fifty_pts i j = true <-> i = 5%nat /\ j = 27%nat).
Proof.
  intros Hij Hj.
  assert (H : (let mask := zmask fifty_pts in
               forallb (fun i =>
                 forallb (fun j =>
                   negb (Nat.ltb i j)
                   || Bool.eqb (mask i j) (Nat.eqb i 5 && Nat.eqb j 27))
                   (seq 0 50)) (seq 0 50)) = true) by (vm_compute; reflexivity).
  cbv zeta in H. rewrite forallb_forall in H.
  assert (Hi' : In i (seq 0 50)) by (apply in_seq; lia).
  assert (Hj' : In j (seq 0 50)) by (apply in_seq; lia).
  specialize (H i Hi'). rewrite forallb_forall in H. specialize (H j Hj').
  apply orb_true_iff in H. destruct H as [H | H].
  - apply negb_true_iff, Nat.ltb_ge in H. lia.
  - apply eqb_prop in H. rewrite H, andb_true_iff, !Nat.eqb_eq. reflexivity.
Qed.

Lemma duplicate_filter_drops_higher_witness :
  exists out,
    remove_duplicates (map pose_of_zpt fifty_pts) = ok out /\
    out = seq 0 27 ++ seq 28 22 /\
    length out = 49%nat /\ ~ In 27%nat out /\ In 5%nat out.
Proof.
  assert (Hdec : zdecided fifty_pts = true) by (vm_compute; reflexivity).
  assert (Hm : np_max (flatten (length (map pose_of_zpt fifty_pts))
                               (raw_dists (translations (map pose_of_zpt fifty_pts))))
               = ok (Fin (sqrt (IZR (zmax2 fifty_pts))))).
  { rewrite translations_zpts, length_map. apply np_max_zpts. discriminate. }
  apply (duplicate_filter_drops_higher _ _ Hm).
  - reflexivity.
  - intros i j Hij Hj. rewrite translations_zpts.
    change (normalize_fill (raw_dists (map vec_of_zpt fifty_pts))
                           (Fin (sqrt (IZR (zmax2 fifty_pts)))))
      with (zdists fifty_pts).
    rewrite dup_mask_zdists by (assumption || (change (length fifty_pts) with 50%nat; lia)).
    now apply fifty_only_5_27.
Defined.

(** C2 as stated fails on the chain: the pair (1, 2) is flagged, index 2 is
    dropped, and the lower index 1 is dropped as well, being the higher
    member of the flagged pair (0, 1). *)
Lemma duplicate_filter_keeps_lower_fails :
  ~ (forall (Ts : list mat) (dists : nat -> nat -> npfloat) (out : list nat)
            (i j : nat),
        dists_of (translations Ts) = ok dists ->
        remove_duplicates Ts = ok out ->
        (i < j)%nat -> (j < length Ts)%nat ->
        dup_mask dists i j = true ->
        ~ In j out /\ In i out).
Proof.
  intros H.
  assert (Hdec : zdecided chain_pts = true) by (vm_compute; reflexivity).
  assert (Hd : dists_of (translations (map pose_of_zpt chain_pts))
               = ok (zdists chain_pts)).
  { apply dists_of_zpts. discriminate. }
  assert (Hflag : dup_mask (zdists chain_pts) 1 2 = true).
  { rewrite dup_mask_zdists by (assumption || (simpl; lia)).
    vm_compute. reflexivity. }
  destruct (H _ _ _ 1%nat 2%nat Hd chain_filter) as [_ Hin];
    try assumption; try (simpl; lia).
  simpl in Hin. destruct Hin as [Hin | [Hin | []]]; discriminate.
Qed.

(** ** The cardinality check (cell 9) *)

Lemma remove_duplicates_mask_bound (n : nat) (mask : nat -> nat -> bool)
      (out : list nat) (j : nat) :
  remove_duplicates_mask n mask = ok out -> In j out -> (j < n)%nat.
Proof.
  intros H Hj. now apply (remove_duplicates_mask_In n mask out j H) in Hj.
Qed.

Lemma py_index_ok {A : Type} (l : list A) (k : nat) (d : A) :
  (k < length l)%nat -> py_index l k = ok (nth k l d).
Proof.
  intros H. unfold py_index. now rewrite (nth_error_nth' l d H).
Qed.

Lemma select_big_circle_ok (dists : nat -> nat -> npfloat) (tt : list nat) :
  length tt = 48%nat ->
  select_big_circle dists tt =
  ok (if np_gtb (dists (nth 0 tt 0%nat) (nth 11 tt 0%nat))
                (dists (nth 24 tt 0%nat) (nth 35 tt 0%nat))
      then firstn 24 tt else skipn 24 tt).
Proof.
  intros H. unfold select_big_circle.
  rewrite !(py_index_ok tt _ 0%nat) by lia. reflexivity.
Qed.

(** C3: when the number of poses left by the duplicate filter differs from
    48, cell 9 raises [AssertionError] whatever the aligner is, so no
    alignment result is produced; when it equals 48, cell 9 selects the big
    circle and its outcome is that of the aligner's call on it. *)
Theorem wrong_cardinality_aborts {Aligned : Type}
        (ICP : list vec3 -> list vec3 -> result (Aligned * mat * vec3))
        (Ts : list mat) (dists : nat -> nat -> npfloat) (kept : list nat) :
  dists_of (translations Ts) = ok dists ->
  remove_duplicates Ts = ok kept ->
  (length kept <> 48%nat -> cell9 ICP Ts = raise AssertionError)
  /\
  (length kept = 48%nat ->
   exists big,
     select_big_circle dists kept = ok big /\
     cell9 ICP Ts =
     (fit <- ICP (take_rows (translations Ts) big) expected ;;
      ok {| to_take := kept; big_circle := big;
            sR := snd (fst fit); t_fit := snd fit |})).
Proof.
  intros Hd Hk. rewrite (remove_duplicates_unfold Ts dists Hd) in Hk.
  unfold cell9.
  replace (index_poses Ts) with (@ok unit tt)
    by (destruct Ts; [discriminate | reflexivity]).
  cbn [bind ok]. rewrite Hd. simpl. rewrite Hk. simpl. unfold check_and_fit.
  split.
  - intros Hne. apply Nat.eqb_neq in Hne. rewrite Hne. reflexivity.
  - intros He. rewrite He. simpl.
    rewrite (select_big_circle_ok dists kept He). eexists. split; reflexivity.
Qed.

Example grid48_filter :
  remove_duplicates (map pose_of_zpt grid48_pts) = ok (seq 0 48).
Proof.
  rewrite remove_duplicates_zpts by (vm_compute; reflexivity).
  vm_compute. reflexivity.
Qed.

Lemma wrong_cardinality_aborts_witness :
  cell9 trivial_fit (map pose_of_zpt chain_pts) = raise AssertionError
  /\ exists out, cell9 trivial_fit (map pose_of_zpt grid48_pts) = ok out
                 /\ to_take out = seq 0 48.
Proof.
  split.
  - refine (proj1 (wrong_cardinality_aborts trivial_fit _ (zdists chain_pts)
                     [0; 3]%nat _ chain_filter) _).
    + apply dists_of_zpts. discriminate.
    + simpl. lia.
  - destruct (proj2 (wrong_cardinality_aborts trivial_fit
                       (map pose_of_zpt grid48_pts) (zdists grid48_pts)
                       (seq 0 48)
                       (dists_of_zpts grid48_pts ltac:(discriminate))
                       grid48_filter) eq_refl) as [big [Hbig Hrun]].
    rewrite Hrun. unfold trivial_fit. simpl. eexists. split; reflexivity.
Defined.

(** ** The reference ring (cell 9) *)

Lemma arange_0_360_15 : arange 0 360 15 = map (fun k => (15 * Z.of_nat k)%Z) (seq 0 24).
Proof. reflexivity. Qed.

Lemma nth_map_in {A B : Type} (f : A -> B) (l : list A) (k : nat) (d : B) (d' : A) :
  (k < length l)%nat -> nth k (map f l) d = f (nth k l d').
Proof.
  intros H. rewrite (nth_indep _ d (f d')) by now rewrite length_map.
  apply map_nth.
Qed.

Lemma theta_nth (k : nat) :
  (k < 24)%nat ->
  nth k theta NaN = Fin (- (INR k * (15 * PI / 180))).
Proof.
  intros Hk. unfold theta. rewrite arange_0_360_15, map_map.
  rewrite (nth_map_in _ _ k NaN 0%nat) by (rewrite length_seq; exact Hk).
  rewrite seq_nth by exact Hk. simpl Nat.add.
  cbn [np_mul np_div np_neg]. rewrite Reqb_false by lra.
  cbn [np_neg]. f_equal. rewrite mult_IZR, <- INR_IZR_INZ. field.
Qed.

(** C9: the reference ring has 24 points; point [k] is
    (cos theta_k, sin theta_k, 0) with theta_k = -(k * increment) and an
    increment of 15 degrees, so the ring lies in the plane z = 0 on the unit
    circle about the origin, starts at (1, 0, 0) and runs clockwise (a
    quarter turn later, at k = 6, it is at (0, -1, 0)); the big circle
    selected among 48 kept poses has as many members as the ring. *)
Theorem expected_is_clockwise_unit_ring :
  length expected = 24%nat
  /\ (forall k, (k < 24)%nat ->
        exists th,
          th = - (INR k * (15 * PI / 180)) /\
          nth k expected vec3_0 = (Fin (cos th), Fin (sin th), Fin 0) /\
          cos th * cos th + sin th * sin th = 1)
  /\ nth 0 expected vec3_0 = (Fin 1, Fin 0, Fin 0)
  /\ nth 6 expected vec3_0 = (Fin 0, Fin (-1), Fin 0)
  /\ (forall dists kept big,
        length kept = 48%nat -> select_big_circle dists kept = ok big ->
        length big = length expected).
Proof.
  assert (Hlen : length theta = 24%nat) by reflexivity.
  assert (Hnth : forall k, (k < 24)%nat ->
            nth k expected vec3_0 =
            (Fin (cos (- (INR k * (15 * PI / 180)))),
             Fin (sin (- (INR k * (15 * PI / 180)))), Fin 0)).
  { intros k Hk. unfold expected.
    rewrite (nth_map_in _ _ k vec3_0 NaN) by (rewrite Hlen; exact Hk).
    rewrite theta_nth by exact Hk. reflexivity. }
  split; [| split; [| split; [| split]]].
  - unfold expected. now rewrite length_map.
  - intros k Hk. eexists. split; [reflexivity |]. split; [now apply Hnth |].
    pose proof (sin2_cos2 (- (INR k * (15 * PI / 180)))) as H.
    unfold Rsqr in H. lra.
  - rewrite Hnth by lia. simpl INR.
    replace (- (0 * (15 * PI / 180))) with 0 by ring.
    now rewrite cos_0, sin_0.
  - rewrite Hnth by lia.
    replace (- (INR 6 * (15 * PI / 180))) with (- (PI / 2)) by (simpl; field).
    rewrite cos_neg, sin_neg, cos_PI2, sin_PI2. reflexivity.
  - intros dists kept big Hk Hsel.
    rewrite (select_big_circle_ok dists kept Hk) in Hsel.
    unfold expected. rewrite length_map, Hlen.
    unfold ok in Hsel. destruct (np_gtb _ _).
    + assert (E : firstn 24 kept = big) by congruence.
      rewrite <- E, length_firstn. lia.
    + assert (E : skipn 24 kept = big) by congruence.
      rewrite <- E, length_skipn. lia.
Qed.

Lemma expected_is_clockwise_unit_ring_witness :
  (exists th, th = - (INR 1 * (15 * PI / 180)) /\
              nth 1 expected vec3_0 = (Fin (cos th), Fin (sin th), Fin 0) /\
              cos th * cos th + sin th * sin th = 1)
  /\ length (skipn 24 (seq 0 48)) = length expected.
Proof.
  destruct expected_is_clockwise_unit_ring as [_ [Hk [_ [_ Hbig]]]].
  split.
  - apply (Hk 1%nat). lia.
  - apply (Hbig (fun _ _ => Fin 0) (seq 0 48)); [reflexivity |].
    rewrite select_big_circle_ok by reflexivity.
    unfold np_gtb. cbn [np_ltb]. now rewrite Rltb_false by lra.
Defined.

(** ** Applying the similarity transform (cell 10) *)

Lemma vec_nth_pt (tv : pt) (i : nat) :
  vec_nth (vec_of_pt tv) i = Fin (pt_nth tv i).
Proof. destruct tv as [[a b] c], i as [| [| i]]; reflexivity. Qed.

Lemma matmul_assemble_block (M P : rmat) (tv : pt) (i j : nat) :
  (i < 3)%nat ->
  matmul (assemble_T (lift M) (vec_of_pt tv)) (lift P) i j =
  Fin (mul3 M P i j + pt_nth tv i * P 3%nat j).
Proof.
  intros Hi. unfold matmul, np_sum, assemble_T, lift, zeros, mul3.
  assert (Hlt : Nat.ltb i 3 = true) by now apply Nat.ltb_lt.
  assert (Hne : Nat.eqb i 3 = false) by (apply Nat.eqb_neq; lia).
  rewrite Hlt, Hne, vec_nth_pt. simpl. f_equal. ring.
Qed.

Lemma matmul_assemble_lift (s : R) (Rm P : rmat) (tv : pt) (i j : nat) :
  (i < 3)%nat ->
  matmul (assemble_T (scale_mat s (lift Rm)) (vec_of_pt tv)) (lift P) i j =
  Fin (s * mul3 Rm P i j + pt_nth tv i * P 3%nat j).
Proof.
  intros Hi.
  change (scale_mat s (lift Rm)) with (lift (fun a b => s * Rm a b)).
  rewrite matmul_assemble_block by assumption. f_equal. unfold mul3. ring.
Qed.

(** C1, as amended: the transform is applied to every pose of the input
    Pose Set; the new translation is s.R.old_t + t and the new rotation
    block is s.R.old_R_block: the scale multiplies the rotation block as
    well, since the same 4x4 matrix with block s.R multiplies the whole
    pose. *)
Theorem similarity_applied_to_every_pose
        (s : R) (Rm : rmat) (tv : pt) (Ps : list rmat) (n : nat) :
  (n < length Ps)%nat ->
  is_pose (nth n Ps identity4) ->
  exists new_Ts,
    cell10 (scale_mat s (lift Rm)) (vec_of_pt tv) (map lift Ps) = ok new_Ts
    /\ length new_Ts = length Ps
    /\ (forall i, (i < 3)%nat ->
          nth n new_Ts zeros i 3%nat
          = Fin (s * mul3_col Rm (nth n Ps identity4) i + pt_nth tv i))
    /\ (forall i j, (i < 3)%nat -> (j < 3)%nat ->
          nth n new_Ts zeros i j = Fin (s * mul3 Rm (nth n Ps identity4) i j)).
Proof.
  intros Hn [H0 [H1 [H2 H3]]].
  set (P := nth n Ps identity4) in *.
  set (T := assemble_T (scale_mat s (lift Rm)) (vec_of_pt tv)).
  exists (map (matmul T) (map lift Ps)).
  assert (HP' : nth n (map (matmul T) (map lift Ps)) zeros = matmul T (lift P)).
  { rewrite map_map. unfold P. now rewrite (nth_map_in _ _ n zeros identity4). }
  split; [| split; [| split]].
  - unfold cell10. fold T. destruct Ps; [simpl in Hn; lia | reflexivity].
  - now rewrite !length_map.
  - intros i Hi. rewrite HP'. unfold T. rewrite matmul_assemble_lift by assumption.
    rewrite H3. unfold mul3_col. f_equal. ring.
  - intros i j Hi Hj. rewrite HP'. unfold T.
    rewrite matmul_assemble_lift by assumption. f_equal.
    destruct j as [| [| [| j]]]; [rewrite H0 | rewrite H1 | rewrite H2 | lia]; ring.
Qed.

Lemma identity4_is_pose : is_pose identity4.
Proof. repeat split; reflexivity. Qed.

Lemma identity4_is_rotation : is_rotation identity4.
Proof.
  split.
  - intros i j Hi Hj.
    destruct i as [| [| [| i]]]; destruct j as [| [| [| j]]]; try lia;
      unfold mul3, transpose, kron, identity4, rmat_of_rows; simpl; ring.
  - unfold det3, identity4, rmat_of_rows. simpl. ring.
Qed.

Lemma similarity_applied_to_every_pose_witness :
  exists new_Ts,
    cell10 (scale_mat 2 (lift identity4)) (vec_of_pt (1, 0, 0))
           (map lift [identity4]) = ok new_Ts
    /\ nth 0 new_Ts zeros 0%nat 3%nat
       = Fin (2 * mul3_col identity4 identity4 0 + 1)
    /\ nth 0 new_Ts zeros 0%nat 0%nat = Fin (2 * mul3 identity4 identity4 0 0).
Proof.
  destruct (similarity_applied_to_every_pose 2 identity4 (1, 0, 0) [identity4] 0%nat)
    as [new_Ts [Hrun [_ [Ht Hr]]]].
  - simpl. lia.
  - exact identity4_is_pose.
  - exists new_Ts. split; [exact Hrun |]. split.
    + apply (Ht 0%nat). lia.
    + apply (Hr 0%nat 0%nat); lia.
Defined.

Lemma pose_at_e1_is_pose : is_pose pose_at_e1.
Proof. repeat split; reflexivity. Qed.

(** C1 as stated fails for scale 2, the identity rotation and a zero
    offset, whatever 3x3 block the aligner hands to cell 10: on the pose at
    (1, 0, 0) with identity rotation block, the claimed translation
    s.R.old_t + t needs the block to be 2.I, the claimed rotation block
    R.old_R_block needs it to be I. *)
Lemma rotation_block_carries_scale :
  ~ (exists M : rmat,
        forall (Ps : list rmat) (n : nat),
          (n < length Ps)%nat -> is_pose (nth n Ps identity4) ->
          is_rotation identity4 ->
          exists new_Ts,
            cell10 (lift M) (vec_of_pt (0, 0, 0)) (map lift Ps) = ok new_Ts
            /\ (forall i, (i < 3)%nat ->
                  nth n new_Ts zeros i 3%nat
                  = Fin (2 * mul3_col identity4 (nth n Ps identity4) i
                         + pt_nth (0, 0, 0) i))
            /\ (forall i j, (i < 3)%nat -> (j < 3)%nat ->
                  nth n new_Ts zeros i j
                  = Fin (mul3 identity4 (nth n Ps identity4) i j))).
Proof.
  intros [M H].
  destruct (H [pose_at_e1] 0%nat) as [new_Ts [Hrun [Ht Hr]]];
    [simpl; lia | exact pose_at_e1_is_pose | exact identity4_is_rotation |].
  unfold cell10 in Hrun. simpl in Hrun. inversion Hrun; subst new_Ts. clear Hrun.
  specialize (Ht 0%nat ltac:(lia)). specialize (Hr 0%nat 0%nat ltac:(lia) ltac:(lia)).
  simpl in Ht, Hr. rewrite matmul_assemble_block in Ht, Hr by lia.
  unfold mul3_col, mul3, identity4, pose_at_e1, rmat_of_rows, pt_nth in Ht, Hr.
  cbn [nth fst snd] in Ht, Hr.
  injection Ht as Et. injection Hr as Er. lra.
Qed.

(** ** The rescale (cell 20) *)

Lemma py_max_Rmax (a b : R) : py_max a b = Rmax a b.
Proof.
  unfold py_max, Rltb, Rmax.
  destruct (Rlt_dec a b), (Rle_dec a b); try reflexivity; lra.
Qed.

Lemma py_div_ok (a b : R) : b <> 0 -> py_div a b = ok (a / b).
Proof. intros H. unfold py_div. now rewrite Reqb_false. Qed.

(** C6, as amended: for intrinsics on which the three divisions of the
    cell are defined (fx, fy and the maximum non-zero), the rescale
    multiplies the three translation entries of every pose by the one factor
    0.5 / max(radius.cx/fx, radius.cy/fy), radius = 1, and leaves every
    other entry (rotation block, bottom row) as it was; the larger of the
    two frustum half-widths radius.cx/fx and radius.cy/fy, once scaled, is
    exactly 0.5. *)
Theorem rescale_is_uniform_pure_scale (fx fy cx cy : R) (Ts : list mat) :
  fx <> 0 -> fy <> 0 ->
  Rmax (radius * cx / fx) (radius * cy / fy) <> 0 ->
  exists s new_Ts,
    radius = 1
    /\ s = (5 / 10) / Rmax (radius * cx / fx) (radius * cy / fy)
    /\ scale_factor fx fy cx cy = ok s
    /\ cell20 fx fy cx cy Ts = ok new_Ts
    /\ length new_Ts = length Ts
    /\ (forall n, (n < length Ts)%nat ->
          let T := nth n Ts zeros in
          let T' := nth n new_Ts zeros in
          (forall i, (i < 3)%nat -> T' i 3%nat = np_mul (T i 3%nat) (Fin s))
          /\ (forall i x, (i < 3)%nat -> T i 3%nat = Fin x ->
                          T' i 3%nat = Fin (x * s))
          /\ (forall i j, j <> 3%nat \/ (3 <= i)%nat -> T' i j = T i j))
    /\ s * Rmax (radius * cx / fx) (radius * cy / fy) = 5 / 10
    /\ (radius * cy / fy <= radius * cx / fx -> s * (radius * cx / fx) = 5 / 10)
    /\ (radius * cx / fx <= radius * cy / fy -> s * (radius * cy / fy) = 5 / 10).
Proof.
  intros Hfx Hfy Hmax.
  set (M := Rmax (radius * cx / fx) (radius * cy / fy)) in *.
  exists ((5 / 10) / M), (map (rescale_pose ((5 / 10) / M)) Ts).
  assert (Hs : scale_factor fx fy cx cy = ok ((5 / 10) / M)).
  { unfold scale_factor. rewrite !py_div_ok by assumption. simpl.
    rewrite py_max_Rmax. fold M. now rewrite py_div_ok. }
  split; [reflexivity |]. split; [reflexivity |]. split; [exact Hs |].
  split; [unfold cell20; now rewrite Hs |].
  split; [apply length_map |]. split; [| split; [| split]].
  - intros n Hn T T'.
    assert (HT' : T' = rescale_pose ((5 / 10) / M) T).
    { unfold T'. now rewrite (nth_map_in _ _ n zeros zeros). }
    rewrite HT'. split; [| split].
    + intros i Hi. unfold rescale_pose.
      apply Nat.ltb_lt in Hi. now rewrite Hi.
    + intros i x Hi Hx. unfold rescale_pose.
      apply Nat.ltb_lt in Hi. rewrite Hi, Hx. reflexivity.
    + intros i j Hij. unfold rescale_pose.
      destruct Hij as [Hj | Hi].
      * apply Nat.eqb_neq in Hj. rewrite Hj, andb_false_r. reflexivity.
      * apply Nat.ltb_ge in Hi. rewrite Hi. reflexivity.
  - field. exact Hmax.
  - intros Hle. assert (E : M = radius * cx / fx).
    { unfold M. now apply Rmax_left. }
    rewrite <- E. field. exact Hmax.
  - intros Hle. assert (E : M = radius * cy / fy).
    { unfold M. now apply Rmax_right. }
    rewrite <- E. field. exact Hmax.
Qed.

Lemma rescale_is_uniform_pure_scale_witness :
  exists s new_Ts,
    s = (5 / 10) / Rmax (radius * 4 / 2) (radius * 2 / 2)
    /\ cell20 2 2 4 2 [lift cam_a; lift pose_at_e1] = ok new_Ts
    /\ s * Rmax (radius * 4 / 2) (radius * 2 / 2) = 5 / 10
    /\ nth 0 new_Ts zeros 0%nat 3%nat = Fin (- 1 * s)
    /\ nth 0 new_Ts zeros 1%nat 3%nat = Fin (1 * s)
    /\ nth 0 new_Ts zeros 2%nat 3%nat = Fin (1 * s)
    /\ nth 1 new_Ts zeros 0%nat 3%nat = Fin (1 * s)
    /\ nth 0 new_Ts zeros 0%nat 0%nat = Fin (1 / 3).
Proof.
  destruct (rescale_is_uniform_pure_scale 2 2 4 2 [lift cam_a; lift pose_at_e1])
    as [s [new_Ts [_ [Hs [_ [Hrun [_ [Hall [Hmax _]]]]]]]]].
  - lra.
  - lra.
  - unfold radius, Rmax. destruct (Rle_dec (1 * 4 / 2) (1 * 2 / 2)); lra.
  - exists s, new_Ts.
    destruct (Hall 0%nat ltac:(simpl; lia)) as [_ [H0 H0']].
    destruct (Hall 1%nat ltac:(simpl; lia)) as [_ [H1 _]].
    split; [exact Hs |]. split; [exact Hrun |]. split; [exact Hmax |].
    split; [apply H0; [lia | reflexivity] |].
    split; [apply H0; [lia | reflexivity] |].
    split; [apply H0; [lia | reflexivity] |].
    split; [apply H1; [lia | reflexivity] |].
    rewrite H0' by (left; lia). reflexivity.
Defined.

Lemma scale_factor_4421 : scale_factor 4 4 2 1 = ok 1.
Proof.
  unfold scale_factor, radius. rewrite !py_div_ok by lra. cbn [bind ok].
  rewrite py_max_Rmax, Rmax_left by lra.
  rewrite py_div_ok by lra. unfold ok. f_equal. field.
Qed.

(** C6 as stated fails twice.  It is stated for every intrinsics, but with
    a zero focal length the first division of the cell raises
    [ZeroDivisionError] and no translation is rescaled.  And the frustum
    bound does not hold as written: with fx = fy = 4, cx = 2, cy = 1 the
    factor is 1, the scaled half-widths are x = 0.5 and y = 0.25, and
    max(|x|,|y|).fx/cx = 1 and max(|x|,|y|).fy/cy = 2, neither of them within
    a tenth of 0.5. *)
Lemma frustum_bound_as_stated_fails :
  ~ (forall (fx fy cx cy : R) (Ts : list mat),
        exists new_Ts, cell20 fx fy cx cy Ts = ok new_Ts)
  /\ ~ (forall (fx fy cx cy s : R),
          0 < fx -> 0 < fy -> 0 < cx -> 0 < cy ->
          scale_factor fx fy cx cy = ok s ->
          let x := s * (radius * cx / fx) in
          let y := s * (radius * cy / fy) in
          Rabs (Rmax (Rabs x) (Rabs y) * (fx / cx) - 5 / 10) <= 1 / 10
          \/ Rabs (Rmax (Rabs x) (Rabs y) * (fy / cy) - 5 / 10) <= 1 / 10).
Proof.
  split.
  - intros H. destruct (H 0 2 1 1 [lift pose_at_e1]) as [new_Ts E].
    unfold cell20, scale_factor, py_div in E.
    rewrite (Reqb_true 0 0) in E by reflexivity. discriminate.
  - intros H.
    specialize (H 4 4 2 1 1 ltac:(lra) ltac:(lra) ltac:(lra) ltac:(lra)
                  scale_factor_4421).
    cbv zeta in H. unfold radius in H.
    replace (1 * (1 * 2 / 4)) with (1 / 2) in H by field.
    replace (1 * (1 * 1 / 4)) with (1 / 4) in H by field.
    rewrite (Rabs_pos_eq (1 / 2)), (Rabs_pos_eq (1 / 4)) in H by lra.
    rewrite Rmax_left in H by lra.
    replace (1 / 2 * (4 / 2) - 5 / 10) with (1 / 2) in H by field.
    replace (1 / 2 * (4 / 1) - 5 / 10) with (3 / 2) in H by field.
    rewrite (Rabs_pos_eq (1 / 2)), (Rabs_pos_eq (3 / 2)) in H by lra.
    destruct H as [H | H]; lra.
Qed.


(** ** The height estimate (cell 17) *)

Lemma sum_sq_pos (a b : R) : a <> 0 -> 0 < a * a + b * b.
Proof. intros H. nra. Qed.

Lemma np_div_Fin (a b : R) : b <> 0 -> np_div (Fin a) (Fin b) = Fin (a / b).
Proof. intros H. simpl. now rewrite Reqb_false. Qed.

Lemma height_ratios_regular (P : rmat) :
  regular P ->
  height_ratios (lift P) = (Fin (ray_abscissa P), Fin (ray_abscissa P)).
Proof.
  intros [H0 H1]. unfold height_ratios, ray_dir_of, translation_of, lift, vx, vy, vz.
  cbn [fst snd np_neg np_mul np_add np_square].
  pose proof (sum_sq_pos _ (P 1%nat 2%nat) H0) as Hden.
  rewrite !np_div_Fin by (try assumption; lra).
  unfold ray_abscissa. f_equal; f_equal; field; split; try assumption; lra.
Qed.

Lemma camera_height_regular (P : rmat) :
  regular P ->
  camera_height (lift P) =
  Fin (P 2%nat 2%nat * ray_abscissa P + P 2%nat 3%nat).
Proof.
  intros H. unfold camera_height. rewrite height_ratios_regular by assumption.
  reflexivity.
Qed.

Lemma allclose_entry_same (x : R) : allclose_entry (Fin x) (Fin x) = true.
Proof.
  simpl. apply Rleb_true. unfold Rminus. rewrite Rplus_opp_r, Rabs_R0.
  apply Rmult_le_pos; [| apply Rabs_pos].
  unfold rtol. left. apply Rinv_0_lt_compat. lra.
Qed.

Lemma height_ratios_degenerate (P : rmat) :
  P 0%nat 2%nat = 0 -> P 1%nat 2%nat = 0 ->
  height_ratios (lift P) = (NaN, NaN).
Proof.
  intros H0 H1. unfold height_ratios, ray_dir_of, translation_of, lift, vx, vy, vz.
  cbn [fst snd np_neg np_mul np_add np_square np_div]. rewrite H0, H1.
  rewrite !Reqb_true by ring. reflexivity.
Qed.

Lemma camera_height_degenerate (P : rmat) :
  P 0%nat 2%nat = 0 -> P 1%nat 2%nat = 0 ->
  camera_height (lift P) = NaN.
Proof.
  intros H0 H1. unfold camera_height. rewrite height_ratios_degenerate by assumption.
  reflexivity.
Qed.

Lemma np_add_NaN_r (a : npfloat) : np_add a NaN = NaN.
Proof. now destruct a. Qed.

Lemma fold_add_NaN (l : list npfloat) : fold_left np_add l NaN = NaN.
Proof. induction l as [| a l IH]; simpl; [reflexivity | exact IH]. Qed.

Lemma np_sum_NaN (l : list npfloat) : In NaN l -> np_sum l = NaN.
Proof.
  unfold np_sum. generalize (Fin 0).
  induction l as [| a l IH]; simpl; intros acc Hin; [contradiction |].
  destruct Hin as [-> | Hin].
  - rewrite np_add_NaN_r. apply fold_add_NaN.
  - now apply IH.
Qed.

Lemma np_mean_NaN (l : list npfloat) : In NaN l -> np_mean l = NaN.
Proof. intros H. unfold np_mean. now rewrite np_sum_NaN. Qed.

Lemma fold_add_Fin (l : list R) (acc : R) :
  fold_left np_add (map Fin l) (Fin acc) = Fin (fold_left Rplus l acc).
Proof.
  revert acc. induction l as [| a l IH]; intros acc; simpl; [reflexivity | apply IH].
Qed.

Lemma fold_plus_const (l : list R) (h acc : R) :
  (forall x, In x l -> x = h) ->
  fold_left Rplus l acc = acc + INR (length l) * h.
Proof.
  revert acc. induction l as [| a l IH]; intros acc H.
  - simpl. ring.
  - cbn [fold_left]. rewrite IH by (intros x Hx; apply H; now right).
    rewrite (H a) by now left.
    replace (INR (length (h :: l))) with (INR (length l) + 1)
      by (cbn [length]; now rewrite S_INR).
    ring.
Qed.

Lemma np_mean_const (l : list R) (h : R) :
  l <> [] -> (forall x, In x l -> x = h) -> np_mean (map Fin l) = Fin h.
Proof.
  intros Hne H. unfold np_mean, np_sum. rewrite fold_add_Fin, length_map.
  rewrite (fold_plus_const l h 0 H).
  assert (Hn : INR (length l) <> 0).
  { apply not_0_INR. destruct l; [contradiction | discriminate]. }
  cbn [np_div]. rewrite Reqb_false by assumption. f_equal. now field.
Qed.

Lemma allclose_regular_or_vertical (Ps : list rmat) :
  (forall P, In P Ps -> regular P \/ vertical P) ->
  assert_allclose (map height_ratios (map lift Ps)) = ok tt.
Proof.
  intros H. unfold assert_allclose.
  replace (forallb (fun p => allclose_entry (fst p) (snd p))
                   (map height_ratios (map lift Ps))) with true; [reflexivity |].
  symmetry. apply forallb_forall. intros p Hp.
  rewrite map_map in Hp. apply in_map_iff in Hp. destruct Hp as [P [<- HP]].
  destruct (H P HP) as [Hr | [H0 H1]].
  - rewrite height_ratios_regular by assumption. apply allclose_entry_same.
  - rewrite height_ratios_degenerate by assumption. reflexivity.
Qed.

Lemma cell17_unfold (Ps : list rmat) :
  Ps <> [] ->
  (forall P, In P Ps -> regular P \/ vertical P) ->
  cell17 (map lift Ps) =
  ok (np_mean (per_camera_heights (map lift Ps)),
      map (recenter_z (np_mean (per_camera_heights (map lift Ps)))) (map lift Ps)).
Proof.
  intros Hne H. unfold cell17.
  replace (index_poses (map lift Ps)) with (@ok unit tt)
    by (destruct Ps; [contradiction | reflexivity]).
  cbn [bind ok]. now rewrite allclose_regular_or_vertical.
Qed.

Lemma recenter_z_NaN (T : mat) : recenter_z NaN T 2%nat 3%nat = NaN.
Proof. unfold recenter_z. simpl. unfold np_sub. apply np_add_NaN_r. Qed.

(** C4, as amended: the height estimate has no guard and excludes no
    camera.  On a non-empty Pose Set whose cameras each have either both horizontal
    ray components non-zero or both zero, cell 17 raises nothing and its
    height is the mean over all cameras; a camera with zero horizontal ray
    direction contributes NaN, so the mean and every re-centred height are
    NaN. *)
Theorem vertical_ray_is_not_excluded (Ps : list rmat) :
  Ps <> [] ->
  (forall P, In P Ps -> regular P \/ vertical P) ->
  exists new_Ts,
    cell17 (map lift Ps) = ok (np_mean (per_camera_heights (map lift Ps)), new_Ts)
    /\ length new_Ts = length Ps
    /\ forall k, (k < length Ps)%nat -> vertical (nth k Ps identity4) ->
         nth k (per_camera_heights (map lift Ps)) (Fin 0) = NaN
         /\ np_mean (per_camera_heights (map lift Ps)) = NaN
         /\ forall n, (n < length Ps)%nat ->
                      nth n new_Ts zeros 2%nat 3%nat = NaN.
Proof.
  intros Hne H. eexists. split; [now apply cell17_unfold |].
  split; [now rewrite !length_map |].
  intros k Hk [H0 H1].
  assert (Hnth : nth k (per_camera_heights (map lift Ps)) (Fin 0) = NaN).
  { unfold per_camera_heights. rewrite map_map.
    rewrite (nth_map_in _ _ k (Fin 0) identity4) by assumption.
    now apply camera_height_degenerate. }
  assert (Hmean : np_mean (per_camera_heights (map lift Ps)) = NaN).
  { apply np_mean_NaN. rewrite <- Hnth. apply nth_In.
    unfold per_camera_heights. now rewrite !length_map. }
  split; [exact Hnth |]. split; [exact Hmean |].
  intros n Hn. rewrite Hmean.
  rewrite (nth_map_in _ _ n zeros zeros) by now rewrite length_map.
  apply recenter_z_NaN.
Qed.

Lemma cam_c_regular : regular cam_c.
Proof. unfold regular, cam_c, rmat_of_rows. simpl. split; lra. Qed.

Lemma cam_d_regular : regular cam_d.
Proof. unfold regular, cam_d, rmat_of_rows. simpl. split; lra. Qed.

Lemma cam_down_vertical : vertical cam_down.
Proof. unfold vertical, cam_down, rmat_of_rows. simpl. split; reflexivity. Qed.

Lemma cam_c_down_shape (P : rmat) :
  In P [cam_c; cam_down] -> regular P \/ vertical P.
Proof.
  intros [<- | [<- | []]]; [left; exact cam_c_regular | right; exact cam_down_vertical].
Qed.

Lemma vertical_ray_is_not_excluded_witness :
  exists new_Ts,
    cell17 (map lift [cam_c; cam_down]) = ok (NaN, new_Ts)
    /\ nth 1 (per_camera_heights (map lift [cam_c; cam_down])) (Fin 0) = NaN
    /\ nth 0 new_Ts zeros 2%nat 3%nat = NaN.
Proof.
  assert (Hne : [cam_c; cam_down] <> []) by discriminate.
  destruct (vertical_ray_is_not_excluded [cam_c; cam_down] Hne cam_c_down_shape)
    as [new_Ts [Hrun [Hlen Hk]]].
  destruct (Hk 1%nat ltac:(simpl; lia) cam_down_vertical) as [Hnth [Hmean Hall]].
  exists new_Ts. rewrite Hrun, Hmean. split; [reflexivity |].
  split; [exact Hnth |]. apply Hall. simpl. lia.
Defined.

Lemma cam_c_height : camera_height (lift cam_c) = Fin 3.
Proof.
  rewrite camera_height_regular by exact cam_c_regular.
  f_equal. unfold ray_abscissa, cam_c, rmat_of_rows. simpl. field.
Qed.

(** C4 as stated fails: with a regular camera whose estimate is 3 and a
    camera looking along the vertical, the averaging that skips the
    degenerate camera yields 3, while cell 17 yields NaN. *)
Lemma vertical_ray_poisons_mean :
  ~ (forall (Ps : list rmat) (k : nat),
        (k < length Ps)%nat -> vertical (nth k Ps identity4) ->
        exists new_Ts,
          cell17 (map lift Ps)
          = ok (spec_nan_excluding_mean (per_camera_heights (map lift Ps)), new_Ts)).
Proof.
  intros H.
  destruct (H [cam_c; cam_down] 1%nat) as [new_Ts Hrun].
  - simpl. lia.
  - exact cam_down_vertical.
  - assert (Hne : [cam_c; cam_down] <> []) by discriminate.
    rewrite (cell17_unfold _ Hne cam_c_down_shape) in Hrun.
    assert (Hcode : np_mean (per_camera_heights (map lift [cam_c; cam_down])) = NaN).
    { apply np_mean_NaN. simpl. right. left.
      apply camera_height_degenerate; apply cam_down_vertical. }
    assert (Hspec : spec_nan_excluding_mean
                      (per_camera_heights (map lift [cam_c; cam_down])) = Fin 3).
    { unfold spec_nan_excluding_mean, per_camera_heights. simpl map.
      rewrite cam_c_height.
      rewrite (camera_height_degenerate cam_down) by apply cam_down_vertical.
      simpl filter. apply (np_mean_const [3] 3); [discriminate |].
      intros x [<- | []]. reflexivity. }
    rewrite Hcode, Hspec in Hrun. inversion Hrun.
Qed.

(** A ray direction with exactly one zero horizontal component makes one
    ratio 0/0 and the other finite: the projection check of cell 17 fails. *)
Example cam_y_fails_projection_check :
  cell17 (map lift [cam_y]) = raise AssertionError.
Proof.
  unfold cell17, assert_allclose. cbn [map index_poses bind ok].
  assert (E : height_ratios (lift cam_y) = (NaN, Fin 2)).
  { unfold height_ratios, ray_dir_of, translation_of, lift, vx, vy, vz,
      cam_y, rmat_of_rows.
    cbn [fst snd nth np_neg np_mul np_add np_square].
    rewrite (np_div_Fin _ (0 * 0 + 1 * 1)) by lra.
    rewrite (np_div_Fin _ (0 * 0 + 1 * 1)) by lra.
    rewrite (np_div_Fin _ 1) by lra.
    cbn [np_div]. rewrite !Reqb_true by field; try lra.
    f_equal. f_equal. field. }
  rewrite E. reflexivity.
Qed.

Lemma ray_abscissa_through_axis (P : rmat) (h : R) :
  regular P -> ray_through P (0, 0, h) ->
  P 2%nat 2%nat * ray_abscissa P + P 2%nat 3%nat = h.
Proof.
  intros [H0 H1] [lam [Hx [Hy Hz]]]. simpl in Hx, Hy, Hz.
  assert (E : ray_abscissa P = lam).
  { unfold ray_abscissa.
    replace (P 0%nat 3%nat) with (- lam * P 0%nat 2%nat) by lra.
    replace (P 1%nat 3%nat) with (- lam * P 1%nat 2%nat) by lra.
    field. pose proof (sum_sq_pos _ (P 1%nat 2%nat) H0). lra. }
  rewrite E. lra.
Qed.

(** C5, as amended: when every viewing ray passes through one point
    (0, 0, h) of the vertical axis through the origin (and has non-zero x
    and y direction components), every per-camera height estimate equals h,
    so does their mean, and the re-centring subtracts h from the third
    translation coordinate of every pose and leaves the first two alone:
    it is the shift by (0, 0, -h), which sends (0, 0, h) to the origin. *)
Theorem axis_point_height_recovered (Ps : list rmat) (h : R) :
  Ps <> [] ->
  (forall P, In P Ps -> regular P /\ ray_through P (0, 0, h)) ->
  exists new_Ts,
    cell17 (map lift Ps) = ok (Fin h, new_Ts)
    /\ (forall z, In z (per_camera_heights (map lift Ps)) -> z = Fin h)
    /\ length new_Ts = length Ps
    /\ forall n, (n < length Ps)%nat ->
         let P := nth n Ps identity4 in
         let P' := nth n new_Ts zeros in
         P' 0%nat 3%nat = Fin (P 0%nat 3%nat)
         /\ P' 1%nat 3%nat = Fin (P 1%nat 3%nat)
         /\ P' 2%nat 3%nat = Fin (P 2%nat 3%nat - h)
         /\ forall i j, (j < 3)%nat -> P' i j = Fin (P i j).
Proof.
  intros Hne H.
  assert (Hshape : forall P, In P Ps -> regular P \/ vertical P).
  { intros P HP. left. now apply H. }
  assert (Hheights : per_camera_heights (map lift Ps) = map Fin (map (fun _ => h) Ps)).
  { unfold per_camera_heights. rewrite !map_map. apply map_ext_in.
    intros P HP. destruct (H P HP) as [Hr Hthrough].
    rewrite camera_height_regular by assumption. f_equal.
    now apply ray_abscissa_through_axis. }
  assert (Hmean : np_mean (per_camera_heights (map lift Ps)) = Fin h).
  { rewrite Hheights. apply np_mean_const.
    - destruct Ps; [contradiction | discriminate].
    - intros x Hx. apply in_map_iff in Hx. now destruct Hx as [_ [<- _]]. }
  eexists. split; [rewrite (cell17_unfold Ps Hne Hshape), Hmean; reflexivity |].
  split.
  { intros z Hz. rewrite Hheights, map_map in Hz. apply in_map_iff in Hz.
    now destruct Hz as [_ [<- _]]. }
  split; [now rewrite !length_map |].
  intros n Hn P P'.
  assert (HP' : P' = recenter_z (Fin h) (lift P)).
  { unfold P'. rewrite map_map. now rewrite (nth_map_in _ _ n zeros identity4). }
  rewrite HP'. unfold recenter_z, lift. simpl. repeat split.
  intros i j Hj.
  destruct (Nat.eqb_spec j 3) as [-> | _]; [lia |].
  now rewrite andb_false_r.
Qed.

Lemma cam_c_through_axis : ray_through cam_c (0, 0, 3).
Proof. exists 3. unfold cam_c, rmat_of_rows. simpl. repeat split; lra. Qed.

Lemma cam_d_through_axis : ray_through cam_d (0, 0, 3).
Proof. exists 3. unfold cam_d, rmat_of_rows. simpl. repeat split; lra. Qed.

Lemma axis_point_height_recovered_witness :
  exists new_Ts,
    cell17 (map lift [cam_c; cam_d]) = ok (Fin 3, new_Ts)
    /\ nth 0 new_Ts zeros 2%nat 3%nat = Fin (cam_c 2%nat 3%nat - 3).
Proof.
  destruct (axis_point_height_recovered [cam_c; cam_d] 3) as [new_Ts [Hrun [_ [_ Hn]]]].
  - discriminate.
  - intros P [<- | [<- | []]]; split;
      [exact cam_c_regular | exact cam_c_through_axis
       | exact cam_d_regular | exact cam_d_through_axis].
  - exists new_Ts. split; [exact Hrun |].
    apply (Hn 0%nat). simpl. lia.
Defined.

Lemma cam_a_regular : regular cam_a.
Proof. unfold regular, cam_a, rmat_of_rows. simpl. split; lra. Qed.

Lemma cam_b_regular : regular cam_b.
Proof. unfold regular, cam_b, rmat_of_rows. simpl. split; lra. Qed.

Lemma cam_a_through : ray_through cam_a (1, 2, 3).
Proof. exists 3. unfold cam_a, rmat_of_rows. simpl. repeat split; lra. Qed.

Lemma cam_b_through : ray_through cam_b (1, 2, 3).
Proof. exists 3. unfold cam_b, rmat_of_rows. simpl. repeat split; lra. Qed.

Lemma cam_a_height : camera_height (lift cam_a) = Fin (7 / 5).
Proof.
  rewrite camera_height_regular by exact cam_a_regular.
  f_equal. unfold ray_abscissa, cam_a, rmat_of_rows. simpl. field.
Qed.

Lemma cam_b_height : camera_height (lift cam_b) = Fin (11 / 4).
Proof.
  rewrite camera_height_regular by exact cam_b_regular.
  f_equal. unfold ray_abscissa, cam_b, rmat_of_rows. simpl. field.
Qed.

(** C5 as stated fails: two cameras whose rays meet at (1, 2, 3) get the
    height estimates 7/5 and 11/4, neither within 1/10 of 3. *)
Lemma converging_rays_height_not_recovered :
  ~ (forall (Ps : list rmat) (c : pt),
        Ps <> [] ->
        (forall P, In P Ps -> regular P /\ ray_through P c) ->
        forall x, In (Fin x) (per_camera_heights (map lift Ps)) ->
                  Rabs (x - snd c) <= 1 / 10).
Proof.
  intros H.
  specialize (H [cam_a; cam_b] (1, 2, 3)).
  assert (Hx : Rabs (7 / 5 - 3) <= 1 / 10).
  { apply H.
    - discriminate.
    - intros P [<- | [<- | []]]; split;
        [exact cam_a_regular | exact cam_a_through
         | exact cam_b_regular | exact cam_b_through].
    - simpl. left. exact cam_a_height. }
  rewrite Rabs_left in Hx by lra. lra.
Qed.

(** ** Ring selection (cell 9) *)

Lemma np_minimum_sqrt (a b : Z) :
  np_minimum (Fin (sqrt (IZR a))) (Fin (sqrt (IZR b))) =
  Fin (sqrt (IZR (Z.min a b))).
Proof.
  simpl. unfold Rltb.
  destruct (Rlt_dec (sqrt (IZR b)) (sqrt (IZR a))) as [Hlt | Hge].
  - destruct (Z.min_spec a b) as [[Hab ->] | [Hab ->]]; [| reflexivity].
    exfalso. apply Z.lt_le_incl, IZR_le, sqrt_le_1_alt in Hab. lra.
  - destruct (Z.min_spec a b) as [[Hab ->] | [Hab ->]]; [reflexivity |].
    f_equal. apply IZR_le, sqrt_le_1_alt in Hab. lra.
Qed.

Lemma fold_minimum_sqrt (l : list Z) (a : Z) :
  fold_left np_minimum (map (fun d => Fin (sqrt (IZR d))) l) (Fin (sqrt (IZR a))) =
  Fin (sqrt (IZR (fold_left Z.min l a))).
Proof.
  revert a. induction l as [| b l IH]; intros a; simpl fold_left; [reflexivity |].
  rewrite <- IH. f_equal. apply np_minimum_sqrt.
Qed.

Lemma map_of_flat_map {A B C : Type} (f : B -> C) (g : A -> list B) (l : list A) :
  map f (flat_map g l) = flat_map (fun x => map f (g x)) l.
Proof.
  induction l as [| a l IH]; simpl; [reflexivity |].
  now rewrite map_app, IH.
Qed.

Lemma intra_group_map {A B : Type} (f : A -> B) (D : nat -> nat -> A)
      (E : nat -> nat -> B) (group : list nat) :
  (forall i j, E i j = f (D i j)) ->
  intra_group E group = map f (intra_group D group).
Proof.
  intros H. unfold intra_group. rewrite map_of_flat_map.
  apply flat_map_ext_in. intros k _. rewrite map_map.
  apply map_ext. intros l. apply H.
Qed.

Lemma nn_spacing_zpts (pts : list zpt) (group : list nat) :
  intra_group (zraw pts) group <> [] ->
  nn_spacing (raw_dists (map vec_of_zpt pts)) group =
  ok (Fin (sqrt (IZR (znn2 pts group)))).
Proof.
  intros Hne. unfold nn_spacing, znn2.
  rewrite (intra_group_map (fun d => Fin (sqrt (IZR d))) (zraw pts))
    by (intros i j; apply raw_dists_zpts).
  destruct (intra_group (zraw pts) group) as [| x tl]; [contradiction |].
  simpl. f_equal. apply fold_minimum_sqrt.
Qed.

Lemma np_ltb_sqrt (a b : Z) :
  (0 <= a)%Z ->
  np_ltb (Fin (sqrt (IZR a))) (Fin (sqrt (IZR b))) = (a <? b)%Z.
Proof.
  intros Ha. simpl. destruct (Z.ltb_spec a b) as [Hlt | Hge].
  - apply Rltb_true. apply sqrt_lt_1_alt. split; [now apply IZR_le | now apply IZR_lt].
  - apply Rltb_false. apply sqrt_le_1_alt. now apply IZR_le.
Qed.

Lemma fold_min_nonneg (l : list Z) (a : Z) :
  (0 <= a)%Z -> (forall x, In x l -> (0 <= x)%Z) -> (0 <= fold_left Z.min l a)%Z.
Proof.
  revert a. induction l as [| b l IH]; intros a Ha H; simpl; [assumption |].
  apply IH.
  - apply Z.min_glb; [assumption | apply H; now left].
  - intros x Hx. apply H. now right.
Qed.

Lemma intra_group_In {A : Type} (D : nat -> nat -> A) (group : list nat) (x : A) :
  In x (intra_group D group) -> exists i j, x = D i j.
Proof.
  unfold intra_group. intros H. apply in_flat_map in H.
  destruct H as [k [_ H]]. apply in_map_iff in H. destruct H as [l [<- _]].
  eauto.
Qed.

Lemma znn2_nonneg (pts : list zpt) (group : list nat) : (0 <= znn2 pts group)%Z.
Proof.
  unfold znn2, zmin_list.
  destruct (intra_group (zraw pts) group) as [| x tl] eqn:E; [lia |].
  assert (H : forall y, In y (x :: tl) -> (0 <= y)%Z).
  { intros y Hy. rewrite <- E in Hy. apply intra_group_In in Hy.
    destruct Hy as [i [j ->]]. apply zraw_nonneg. }
  apply fold_min_nonneg; [apply H; now left |].
  intros y Hy. apply H. now right.
Qed.

Lemma on_circle_zpts (pts : list zpt) (group : list nat) (c : zpt) (r : Z) :
  (0 <= r)%Z ->
  forallb (fun a => Z.eqb (zdist2 (nth a pts (0, 0, 0)%Z) c) (r * r)) group = true ->
  on_circle (map vec_of_zpt pts) group (vec_of_zpt c) (IZR r * IZR r).
Proof.
  intros Hr H a Ha. rewrite forallb_forall in H. specialize (H a Ha).
  apply Z.eqb_eq in H.
  change vec3_0 with (vec_of_zpt (0, 0, 0)%Z).
  rewrite map_nth, dist_zpt, H, mult_IZR. reflexivity.
Qed.

Example rings_filter :
  remove_duplicates (map pose_of_zpt rings_pts) = ok (seq 0 48).
Proof.
  rewrite remove_duplicates_zpts by (vm_compute; reflexivity).
  vm_compute. reflexivity.
Qed.

Example rings_uneven_filter :
  remove_duplicates (map pose_of_zpt rings_uneven_pts) = ok (seq 0 48).
Proof.
  rewrite remove_duplicates_zpts by (vm_compute; reflexivity).
  vm_compute. reflexivity.
Qed.

Example rings_uneven_selection :
  select_big_circle (zdists rings_uneven_pts) (seq 0 48) = ok (skipn 24 (seq 0 48)).
Proof.
  rewrite select_big_circle_ok by reflexivity.
  change (nth 0 (seq 0 48) 0%nat) with 0%nat.
  change (nth 11 (seq 0 48) 0%nat) with 11%nat.
  change (nth 24 (seq 0 48) 0%nat) with 24%nat.
  change (nth 35 (seq 0 48) 0%nat) with 35%nat.
  rewrite np_gtb_zdists by (try lia; vm_compute; reflexivity).
  replace (zraw rings_uneven_pts 24 35 <? zraw rings_uneven_pts 0 11)%Z
    with false by (vm_compute; reflexivity).
  reflexivity.
Qed.

(** C7 as stated fails: the 48 poses of [rings_uneven_pts] lie on two
    concentric circles, each ring listed in angular order, and survive the
    duplicate filter; the first 24 (the inner ring, evenly sampled) have the
    larger nearest-neighbour spacing, because two neighbours of the outer
    ring stand closer together than that; yet the chord between kept poses 24
    and 35 is the longer one, and the last 24 are selected: the outer ring,
    which is the bigger circle, as the comment of the cell says, and not the
    group with the larger spacing. *)
Lemma big_circle_is_not_larger_spacing :
  ~ (forall (Ts : list mat) (dists : nat -> nat -> npfloat)
            (kept big : list nat) (c : vec3) (r1 r2 : R) (m1 m2 : npfloat),
        dists_of (translations Ts) = ok dists ->
        remove_duplicates Ts = ok kept ->
        length kept = 48%nat ->
        on_circle (translations Ts) (firstn 24 kept) c r1 ->
        on_circle (translations Ts) (skipn 24 kept) c r2 ->
        nn_spacing (raw_dists (translations Ts)) (firstn 24 kept) = ok m1 ->
        nn_spacing (raw_dists (translations Ts)) (skipn 24 kept) = ok m2 ->
        select_big_circle dists kept = ok big ->
        np_ltb m2 m1 = true ->
        big = firstn 24 kept).
Proof.
  intros H.
  specialize (H (map pose_of_zpt rings_uneven_pts) (zdists rings_uneven_pts)
                (seq 0 48) (skipn 24 (seq 0 48)) (vec_of_zpt (0, 0, 0)%Z)
                (IZR (3 * 61 * ring_radius) * IZR (3 * 61 * ring_radius))
                (IZR (4 * 61 * ring_radius) * IZR (4 * 61 * ring_radius))
                (Fin (sqrt (IZR (znn2 rings_uneven_pts (firstn 24 (seq 0 48))))))
                (Fin (sqrt (IZR (znn2 rings_uneven_pts (skipn 24 (seq 0 48))))))).
  rewrite translations_zpts in H.
  assert (E : skipn 24 (seq 0 48) = firstn 24 (seq 0 48)).
  { apply H.
    - rewrite <- translations_zpts. apply dists_of_zpts. discriminate.
    - exact rings_uneven_filter.
    - reflexivity.
    - apply on_circle_zpts; [vm_compute; discriminate | vm_compute; reflexivity].
    - apply on_circle_zpts; [vm_compute; discriminate | vm_compute; reflexivity].
    - apply nn_spacing_zpts. intros E.
      apply (f_equal (@length Z)) in E. vm_compute in E. discriminate.
    - apply nn_spacing_zpts. intros E.
      apply (f_equal (@length Z)) in E. vm_compute in E. discriminate.
    - exact rings_uneven_selection.
    - rewrite np_ltb_sqrt by apply znn2_nonneg. vm_compute. reflexivity. }
  vm_compute in E. discriminate.
Qed.

Lemma dist_pt (p q : pt) : dist (vec_of_pt p) (vec_of_pt q) = Fin (rdist p q).
Proof.
  destruct p as [[x y] z], q as [[x' y'] z'].
  unfold dist, vec_of_pt, rdist, vx, vy, vz. simpl.
  rewrite Rltb_false.
  - reflexivity.
  - pose proof (Rle_0_sqr (x + - x')). pose proof (Rle_0_sqr (y + - y')).
    pose proof (Rle_0_sqr (z + - z')). unfold Rsqr in *. lra.
Qed.

Lemma raw_dists_pts (ps : list pt) (i j : nat) :
  raw_dists (map vec_of_pt ps) i j = Fin (rraw ps i j).
Proof.
  unfold raw_dists, rraw. change vec3_0 with (vec_of_pt pt_0).
  rewrite !map_nth. apply dist_pt.
Qed.

Lemma diff_sq_pos (a b : R) : a <> b -> 0 < (a - b) * (a - b).
Proof. intros H. apply (Rsqr_pos_lt (a - b)). lra. Qed.

Lemma diff_sq_nonneg (a b : R) : 0 <= (a - b) * (a - b).
Proof. apply (Rle_0_sqr (a - b)). Qed.

Lemma rdist_pos (p q : pt) : p <> q -> 0 < rdist p q.
Proof.
  destruct p as [[x y] z], q as [[x' y'] z']. intros Hne.
  unfold rdist. simpl. apply sqrt_lt_R0.
  pose proof (diff_sq_nonneg x x'). pose proof (diff_sq_nonneg y y').
  pose proof (diff_sq_nonneg z z').
  destruct (Req_dec_T x x') as [-> | Hx].
  - destruct (Req_dec_T y y') as [-> | Hy].
    + destruct (Req_dec_T z z') as [-> | Hz]; [now contradiction Hne |].
      pose proof (diff_sq_pos z z' Hz). lra.
    + pose proof (diff_sq_pos y y' Hy). lra.
  - pose proof (diff_sq_pos x x' Hx). lra.
Qed.

Lemma rdist_homothetic (c : pt) (rho : R) (p p' q q' : pt) :
  0 <= rho -> homothetic c rho p q -> homothetic c rho p' q' ->
  rdist q q' = rho * rdist p p'.
Proof.
  intros Hrho [Hx [Hy Hz]] [Hx' [Hy' Hz']].
  unfold rdist. rewrite Hx, Hy, Hz, Hx', Hy', Hz'.
  rewrite <- sqrt_scale.
  - f_equal. ring.
  - assumption.
  - pose proof (Rle_0_sqr (fst (fst p) - fst (fst p'))).
    pose proof (Rle_0_sqr (snd (fst p) - snd (fst p'))).
    pose proof (Rle_0_sqr (snd p - snd p')). unfold Rsqr in *. lra.
Qed.

Lemma fold_maximum_Fin (l : list R) (a : R) :
  fold_left np_maximum (map Fin l) (Fin a) = Fin (fold_left Rmax l a).
Proof.
  revert a. induction l as [| b l IH]; intros a; simpl fold_left; [reflexivity |].
  rewrite <- IH. f_equal. simpl. unfold Rltb, Rmax.
  destruct (Rlt_dec a b), (Rle_dec a b); try reflexivity; try lra.
  f_equal. lra.
Qed.

Lemma fold_Rmax_ge (l : list R) (a : R) :
  a <= fold_left Rmax l a /\ forall x, In x l -> x <= fold_left Rmax l a.
Proof.
  revert a. induction l as [| b l IH]; intros a; simpl.
  - split; [lra | intros x []].
  - destruct (IH (Rmax a b)) as [H1 H2]. split.
    + pose proof (Rmax_l a b). lra.
    + intros x [<- | Hx]; [pose proof (Rmax_r a b); lra | now apply H2].
Qed.

Lemma np_max_pts (ps : list pt) :
  ps <> [] ->
  exists M,
    np_max (flatten (length ps) (raw_dists (map vec_of_pt ps))) = ok (Fin M)
    /\ forall i j, (i < length ps)%nat -> (j < length ps)%nat -> rraw ps i j <= M.
Proof.
  intros Hne.
  assert (E : flatten (length ps) (raw_dists (map vec_of_pt ps)) =
              map Fin (flat_map (fun i => map (rraw ps i) (seq 0 (length ps)))
                                (seq 0 (length ps)))).
  { unfold flatten. rewrite map_of_flat_map. apply flat_map_ext_in. intros i _.
    rewrite map_map. apply map_ext. intros j. apply raw_dists_pts. }
  rewrite E.
  assert (Hin : forall i j, (i < length ps)%nat -> (j < length ps)%nat ->
            In (rraw ps i j) (flat_map (fun i => map (rraw ps i) (seq 0 (length ps)))
                                       (seq 0 (length ps)))).
  { intros i j Hi Hj. apply in_flat_map. exists i. split; [apply in_seq; lia |].
    apply in_map. apply in_seq. lia. }
  destruct (flat_map (fun i => map (rraw ps i) (seq 0 (length ps)))
                     (seq 0 (length ps))) as [| x tl] eqn:El.
  - exfalso. destruct ps as [| p ps]; [now apply Hne |].
    apply (Hin 0%nat 0%nat); simpl; lia.
  - simpl. rewrite fold_maximum_Fin. eexists. split; [reflexivity |].
    intros i j Hi Hj. destruct (fold_Rmax_ge tl x) as [H1 H2].
    destruct (Hin i j Hi Hj) as [<- | Hx]; [exact H1 | now apply H2].
Qed.

Lemma fold_minimum_Fin (l : list R) (a : R) :
  fold_left np_minimum (map Fin l) (Fin a) = Fin (fold_left Rmin l a).
Proof.
  revert a. induction l as [| b l IH]; intros a; simpl fold_left; [reflexivity |].
  rewrite <- IH. f_equal. simpl. unfold Rltb, Rmin.
  destruct (Rlt_dec b a), (Rle_dec a b); try reflexivity; lra.
Qed.

Lemma Rmin_scale (r a b : R) : 0 <= r -> Rmin (r * a) (r * b) = r * Rmin a b.
Proof.
  intros Hr. unfold Rmin.
  destruct (Rle_dec (r * a) (r * b)), (Rle_dec a b); try reflexivity; nra.
Qed.

Lemma fold_Rmin_scale (r : R) (l : list R) (a : R) :
  0 <= r ->
  fold_left Rmin (map (Rmult r) l) (r * a) = r * fold_left Rmin l a.
Proof.
  intros Hr. revert a. induction l as [| b l IH]; intros a; simpl; [reflexivity |].
  rewrite Rmin_scale by assumption. apply IH.
Qed.

Lemma fold_Rmin_pos (l : list R) (a : R) :
  0 < a -> (forall x, In x l -> 0 < x) -> 0 < fold_left Rmin l a.
Proof.
  revert a. induction l as [| b l IH]; intros a Ha H; simpl; [assumption |].
  apply IH.
  - apply Rmin_glb_lt; [assumption | apply H; now left].
  - intros x Hx. apply H. now right.
Qed.

(** the intra-group lists of two groups of equal length, entry by entry *)
Lemma intra_group_rel {A B : Type} (f : A -> B) (D : nat -> nat -> A)
      (E : nat -> nat -> B) (g1 g2 : list nat) :
  length g1 = length g2 ->
  (forall k l, (k < length g1)%nat -> (l < length g1)%nat -> k <> l ->
     E (nth k g2 0%nat) (nth l g2 0%nat) = f (D (nth k g1 0%nat) (nth l g1 0%nat))) ->
  intra_group E g2 = map f (intra_group D g1).
Proof.
  intros Hlen H. unfold intra_group. rewrite <- Hlen, map_of_flat_map.
  apply flat_map_ext_in. intros k Hk. apply in_seq in Hk.
  rewrite map_map. apply map_ext_in. intros l Hl.
  apply filter_In in Hl. destruct Hl as [Hl Hne]. apply in_seq in Hl.
  apply negb_true_iff, Nat.eqb_neq in Hne.
  apply H; lia.
Qed.

Lemma intra_group_entries {A : Type} (D : nat -> nat -> A) (g : list nat) (x : A) :
  In x (intra_group D g) ->
  exists k l, (k < length g)%nat /\ (l < length g)%nat /\ k <> l /\
              x = D (nth k g 0%nat) (nth l g 0%nat).
Proof.
  unfold intra_group. intros H. apply in_flat_map in H.
  destruct H as [k [Hk H]]. apply in_seq in Hk.
  apply in_map_iff in H. destruct H as [l [<- Hl]].
  apply filter_In in Hl. destruct Hl as [Hl Hne]. apply in_seq in Hl.
  apply negb_true_iff, Nat.eqb_neq in Hne.
  exists k, l. repeat split; lia.
Qed.

Lemma intra_group_nonempty {A : Type} (D : nat -> nat -> A) (g : list nat) :
  (2 <= length g)%nat -> intra_group D g <> [].
Proof.
  intros Hlen E.
  assert (Hin : In (D (nth 0 g 0%nat) (nth 1 g 0%nat)) (intra_group D g)).
  { unfold intra_group. apply in_flat_map. exists 0%nat. split; [apply in_seq; lia |].
    apply in_map_iff. exists 1%nat. split; [reflexivity |].
    apply filter_In. split; [apply in_seq; lia | reflexivity]. }
  rewrite E in Hin. contradiction.
Qed.

Lemma rdist_refl (p : pt) : rdist p p = 0.
Proof.
  unfold rdist.
  replace ((fst (fst p) - fst (fst p)) * (fst (fst p) - fst (fst p))
           + (snd (fst p) - snd (fst p)) * (snd (fst p) - snd (fst p))
           + (snd p - snd p) * (snd p - snd p)) with 0 by ring.
  apply sqrt_0.
Qed.

Lemma nn_spacing_pts (ps : list pt) (g : list nat) :
  (2 <= length g)%nat ->
  (forall k l, (k < length g)%nat -> (l < length g)%nat -> k <> l ->
               0 < rraw ps (nth k g 0%nat) (nth l g 0%nat)) ->
  exists m, 0 < m /\
    nn_spacing (raw_dists (map vec_of_pt ps)) g = ok (Fin m) /\
    match intra_group (rraw ps) g with
    | [] => False
    | x :: tl => m = fold_left Rmin tl x
    end.
Proof.
  intros Hlen Hpos. unfold nn_spacing.
  rewrite (intra_group_map Fin (rraw ps)) by (intros i j; apply raw_dists_pts).
  pose proof (intra_group_nonempty (rraw ps) g Hlen) as Hne.
  assert (Hall : forall x, In x (intra_group (rraw ps) g) -> 0 < x).
  { intros x Hx. apply intra_group_entries in Hx.
    destruct Hx as [k [l [Hk [Hl [Hkl ->]]]]]. now apply Hpos. }
  destruct (intra_group (rraw ps) g) as [| x tl]; [contradiction |].
  exists (fold_left Rmin tl x). split; [| split].
  - apply fold_Rmin_pos; [apply Hall; now left |].
    intros y Hy. apply Hall. now right.
  - simpl. now rewrite fold_minimum_Fin.
  - reflexivity.
Qed.

(** C7, as amended: for every Pose Set of which the duplicate filter keeps
    48 poses, the two groups are the first 24 and the last 24 kept
    poses; the first group is taken as the big circle exactly when the
    normalised distance between kept poses 0 and 11 strictly exceeds the one
    between kept poses 24 and 35, and the last group otherwise.  When the
    last group is the image of the first under a homothety of ratio rho
    about a common centre (two concentric rings sampled at the same angles
    in the same order, with distinct poses), the nearest-neighbour spacing
    of the last group is rho times that of the first, and the first group is
    selected exactly when rho < 1: the selected group is the one with the
    larger spacing.  The selection is a function of the Pose Set. *)
Theorem big_circle_by_one_chord
        (Ts : list mat) (dists : nat -> nat -> npfloat) (kept : list nat) :
  dists_of (translations Ts) = ok dists ->
  remove_duplicates Ts = ok kept ->
  length kept = 48%nat ->
  select_big_circle dists kept =
    ok (if np_gtb (dists (nth 0 kept 0%nat) (nth 11 kept 0%nat))
                  (dists (nth 24 kept 0%nat) (nth 35 kept 0%nat))
        then firstn 24 kept else skipn 24 kept)
  /\ forall (ps : list pt) (c : pt) (rho : R),
       translations Ts = map vec_of_pt ps ->
       0 < rho ->
       (forall k, (k < 24)%nat ->
          homothetic c rho (nth (nth k kept 0%nat) ps pt_0)
                           (nth (nth (24 + k) kept 0%nat) ps pt_0)) ->
       (forall k l, (k < 24)%nat -> (l < 24)%nat -> k <> l ->
          nth (nth k kept 0%nat) ps pt_0 <> nth (nth l kept 0%nat) ps pt_0) ->
       select_big_circle dists kept =
         ok (if Rltb rho 1 then firstn 24 kept else skipn 24 kept)
       /\ exists m1,
            0 < m1
            /\ nn_spacing (raw_dists (translations Ts)) (firstn 24 kept)
               = ok (Fin m1)
            /\ nn_spacing (raw_dists (translations Ts)) (skipn 24 kept)
               = ok (Fin (rho * m1)).
Proof.
  intros Hd Hk Hlen.
  assert (Hsel := select_big_circle_ok dists kept Hlen).
  split; [exact Hsel |].
  intros ps c rho Hts Hrho Hhom Hdist.
  assert (Hn : length Ts = length ps).
  { rewrite <- (translations_length Ts), Hts. apply length_map. }
  assert (Hbound : forall k, (k < 48)%nat -> (nth k kept 0%nat < length ps)%nat).
  { intros k Hk'. rewrite <- Hn.
    rewrite (remove_duplicates_unfold Ts dists Hd) in Hk.
    apply (remove_duplicates_mask_bound _ _ _ _ Hk).
    apply nth_In. lia. }
  assert (Hps : ps <> []).
  { intros ->. specialize (Hbound 0%nat). simpl in Hbound. lia. }
  rewrite Hts in Hd |- *.
  apply dists_of_inv in Hd. destruct Hd as [m [Hm ->]].
  rewrite length_map in Hm.
  destruct (np_max_pts ps Hps) as [M [HM Hle]].
  rewrite HM in Hm. inversion Hm; subst m. clear Hm.
  set (a0 := nth 0 kept 0%nat) in *. set (a11 := nth 11 kept 0%nat) in *.
  set (b0 := nth 24 kept 0%nat) in *. set (b11 := nth 35 kept 0%nat) in *.
  assert (Hd1 : 0 < rraw ps a0 a11).
  { apply rdist_pos. apply (Hdist 0%nat 11%nat); lia. }
  assert (Hd2 : rraw ps b0 b11 = rho * rraw ps a0 a11).
  { unfold rraw. apply (rdist_homothetic c rho); [lra | |].
    - apply (Hhom 0%nat). lia.
    - apply (Hhom 11%nat). lia. }
  assert (HMpos : 0 < M).
  { specialize (Hle a0 a11 (Hbound 0%nat ltac:(lia)) (Hbound 11%nat ltac:(lia))). lra. }
  assert (Ha : a0 <> a11).
  { intros E. unfold rraw in Hd1. rewrite E, rdist_refl in Hd1. lra. }
  assert (Hb : b0 <> b11).
  { intros E. unfold rraw in Hd2 at 1. rewrite E, rdist_refl in Hd2. nra. }
  assert (Hgt : np_gtb (normalize_fill (raw_dists (map vec_of_pt ps)) (Fin M) a0 a11)
                       (normalize_fill (raw_dists (map vec_of_pt ps)) (Fin M) b0 b11)
                = Rltb rho 1).
  { unfold normalize_fill.
    apply Nat.eqb_neq in Ha, Hb. rewrite Ha, Hb, !raw_dists_pts.
    rewrite !np_div_Fin by lra. unfold np_gtb. simpl. rewrite Hd2.
    assert (HMi : 0 < / M) by now apply Rinv_0_lt_compat.
    assert (Hx : 0 < rraw ps a0 a11 * / M) by now apply Rmult_lt_0_compat.
    unfold Rdiv. rewrite Rmult_assoc.
    destruct (Rlt_dec rho 1) as [Hlt | Hge].
    - rewrite (Rltb_true rho 1) by assumption. apply Rltb_true. nra.
    - rewrite (Rltb_false rho 1) by lra. apply Rltb_false. nra. }
  split; [rewrite Hsel, Hgt; reflexivity |].
  assert (Hl1 : length (firstn 24 kept) = 24%nat) by (rewrite length_firstn; lia).
  assert (Hl2 : length (skipn 24 kept) = 24%nat) by (rewrite length_skipn; lia).
  assert (Hf : forall k, (k < 24)%nat -> nth k (firstn 24 kept) 0%nat = nth k kept 0%nat).
  { intros k Hk'. rewrite nth_firstn.
    apply Nat.ltb_lt in Hk'. now rewrite Hk'. }
  assert (Hs : forall k, nth k (skipn 24 kept) 0%nat = nth (24 + k) kept 0%nat).
  { intros k. apply nth_skipn. }
  destruct (nn_spacing_pts ps (firstn 24 kept)) as [m1 [Hm1 [Hnn1 Hfold]]].
  - lia.
  - intros k l Hk' Hl' Hkl. rewrite Hl1 in Hk', Hl'. rewrite !Hf by assumption.
    apply rdist_pos. now apply Hdist.
  - exists m1. split; [assumption |]. split; [assumption |].
    unfold nn_spacing.
    rewrite (intra_group_rel (fun d => Fin (rho * d)) (rraw ps)
                             (raw_dists (map vec_of_pt ps))
                             (firstn 24 kept) (skipn 24 kept)).
    + destruct (intra_group (rraw ps) (firstn 24 kept)) as [| x tl]; [contradiction |].
      subst m1. simpl.
      rewrite <- (map_map (Rmult rho) Fin), fold_minimum_Fin.
      rewrite fold_Rmin_scale by lra. reflexivity.
    + lia.
    + intros k l Hk' Hl' Hkl. rewrite Hl1 in Hk', Hl'.
      rewrite raw_dists_pts, !Hs, !Hf by assumption. f_equal.
      unfold rraw. apply (rdist_homothetic c rho); [lra | |]; now apply Hhom.
Qed.

Lemma pt_of_zpt_inj (p q : zpt) : pt_of_zpt p = pt_of_zpt q -> p = q.
Proof.
  destruct p as [[x y] z], q as [[x' y'] z']. unfold pt_of_zpt. simpl.
  intros E. inversion E as [[Hx Hy Hz]].
  apply eq_IZR in Hx, Hy, Hz. now subst.
Qed.

Lemma zdist2_refl (p : zpt) : zdist2 p p = 0%Z.
Proof. unfold zdist2. ring. Qed.

Lemma rings_pts_nth_outer (k : nat) :
  (k < 24)%nat ->
  nth k (map pt_of_zpt rings_pts) pt_0
  = pt_of_zpt (ring_pt 4 (nth k unit_ring (0, 0)%Z)).
Proof.
  intros Hk. change pt_0 with (pt_of_zpt (0, 0, 0)%Z). rewrite map_nth.
  f_equal. unfold rings_pts.
  rewrite app_nth1 by (rewrite length_map; exact Hk).
  change (0, 0, 0)%Z with (ring_pt 4 (0, 0)%Z). apply map_nth.
Qed.

Lemma rings_pts_nth_inner (k : nat) :
  (k < 24)%nat ->
  nth (24 + k) (map pt_of_zpt rings_pts) pt_0
  = pt_of_zpt (ring_pt 3 (nth k unit_ring (0, 0)%Z)).
Proof.
  intros Hk. change pt_0 with (pt_of_zpt (0, 0, 0)%Z). rewrite map_nth.
  f_equal. unfold rings_pts.
  rewrite app_nth2 by (rewrite length_map; change (length unit_ring) with 24%nat; lia).
  rewrite length_map. change (length unit_ring) with 24%nat.
  replace (24 + k - 24)%nat with k by lia.
  change (0, 0, 0)%Z with (ring_pt 3 (0, 0)%Z). apply map_nth.
Qed.

Lemma rings_pts_distinct (k l : nat) :
  (k < 24)%nat -> (l < 24)%nat -> k <> l ->
  nth k (map pt_of_zpt rings_pts) pt_0 <> nth l (map pt_of_zpt rings_pts) pt_0.
Proof.
  intros Hk Hl Hkl E.
  change pt_0 with (pt_of_zpt (0, 0, 0)%Z) in E. rewrite !map_nth in E.
  apply pt_of_zpt_inj in E.
  assert (H : (let pts := rings_pts in
               forallb (fun k => forallb (fun l => Nat.eqb k l || (0 <? zraw pts k l)%Z)
                                         (seq 0 24)) (seq 0 24)) = true)
    by (vm_compute; reflexivity).
  cbv zeta in H. rewrite forallb_forall in H.
  specialize (H k ltac:(apply in_seq; lia)). rewrite forallb_forall in H.
  specialize (H l ltac:(apply in_seq; lia)).
  apply orb_true_iff in H. destruct H as [H | H].
  - apply Nat.eqb_eq in H. contradiction.
  - apply Z.ltb_lt in H. unfold zraw in H. rewrite E, zdist2_refl in H. lia.
Qed.

Lemma seq_nth_0 (n k : nat) : (k < n)%nat -> nth k (seq 0 n) 0%nat = k.
Proof. intros H. now rewrite seq_nth. Qed.

Lemma big_circle_by_one_chord_witness :
  select_big_circle (zdists rings_pts) (seq 0 48) = ok (firstn 24 (seq 0 48))
  /\ select_big_circle (zdists rings_uneven_pts) (seq 0 48)
     = ok (if np_gtb (zdists rings_uneven_pts 0 11) (zdists rings_uneven_pts 24 35)
           then firstn 24 (seq 0 48) else skipn 24 (seq 0 48)).
Proof.
  split.
  - destruct (big_circle_by_one_chord
                (map pose_of_zpt rings_pts) (zdists rings_pts) (seq 0 48)
                (dists_of_zpts rings_pts ltac:(discriminate))
                rings_filter eq_refl)
      as [_ Hhom].
    destruct (Hhom (map pt_of_zpt rings_pts) pt_0 (3 / 4)) as [Hsel _].
    + rewrite translations_zpts, map_map. reflexivity.
    + lra.
    + intros k Hk. rewrite !seq_nth_0 by lia.
      rewrite rings_pts_nth_outer, rings_pts_nth_inner by assumption.
      unfold homothetic, pt_of_zpt, ring_pt, pt_0. cbn [fst snd].
      rewrite !mult_IZR. repeat split; lra.
    + intros k l Hk Hl Hkl. rewrite !seq_nth_0 by lia.
      now apply rings_pts_distinct.
    + rewrite Hsel. rewrite Rltb_true by lra. reflexivity.
  - exact (proj1 (big_circle_by_one_chord
                    (map pose_of_zpt rings_uneven_pts) (zdists rings_uneven_pts)
                    (seq 0 48)
                    (dists_of_zpts rings_uneven_pts ltac:(discriminate))
                    rings_uneven_filter eq_refl)).
Defined.

(** ** The similarity aligner: matrix algebra *)

Ltac m3_destruct :=
  repeat match goal with
         | A : m3 |- _ => destruct A as [?a ?a ?a ?a ?a ?a ?a ?a ?a]
         | p : pt |- _ => destruct p as [[?x ?x] ?x]
         end.

Ltac m3_unfold :=
  unfold mmul, mT, madd, mscale, mI, mzero, diag3, mdet, mtrace, mv, dot,
         outer, padd, psub, pscale, cross, px, py, pz in *;
  cbn [m00 m01 m02 m10 m11 m12 m20 m21 m22 fst snd] in *.

Ltac m3_ring :=
  cbv zeta; intros; m3_destruct; m3_unfold;
  try ring;
  try (f_equal; ring);
  try (repeat (apply f_equal2; [| ring]); ring).

Lemma mmul_assoc (A B C : m3) : mmul (mmul A B) C = mmul A (mmul B C).
Proof. m3_ring. Qed.

Lemma mmul_I_l (A : m3) : mmul mI A = A.
Proof. m3_ring. Qed.

Lemma mmul_I_r (A : m3) : mmul A mI = A.
Proof. m3_ring. Qed.

Lemma mT_mmul (A B : m3) : mT (mmul A B) = mmul (mT B) (mT A).
Proof. m3_ring. Qed.

Lemma mT_mT (A : m3) : mT (mT A) = A.
Proof. m3_ring. Qed.

Lemma mT_diag3 (a b c : R) : mT (diag3 a b c) = diag3 a b c.
Proof. reflexivity. Qed.

Lemma mdet_mmul (A B : m3) : mdet (mmul A B) = mdet A * mdet B.
Proof. m3_ring. Qed.

Lemma mdet_mT (A : m3) : mdet (mT A) = mdet A.
Proof. m3_ring. Qed.

Lemma mtrace_mmul_comm (A B : m3) : mtrace (mmul A B) = mtrace (mmul B A).
Proof. m3_ring. Qed.

Lemma mv_mmul (A B : m3) (p : pt) : mv (mmul A B) p = mv A (mv B p).
Proof. m3_ring. Qed.

Lemma mv_I (p : pt) : mv mI p = p.
Proof. m3_ring. Qed.

Lemma dot_mv_l (A : m3) (p q : pt) : dot (mv A p) q = dot p (mv (mT A) q).
Proof. m3_ring. Qed.

Lemma mmul_diag3 (a b c a' b' c' : R) :
  mmul (diag3 a b c) (diag3 a' b' c') = diag3 (a * a') (b * b') (c * c').
Proof. m3_ring. Qed.

Lemma quadratic_nonneg_linear_zero (b c : R) :
  (forall lam, 0 <= 2 * lam * b + lam * lam * c) -> b = 0.
Proof.
  intros H.
  pose proof (H 1) as H1. pose proof (H (-1)) as H2.
  assert (Hc : 0 <= c) by lra.
  destruct (Req_dec_T b 0) as [E | Hb]; [exact E | exfalso].
  assert (Hd : 0 < / (c + 1)) by (apply Rinv_0_lt_compat; lra).
  pose proof (H (- b * / (c + 1))) as H3.
  assert (E : 2 * (- b * / (c + 1)) * b + (- b * / (c + 1)) * (- b * / (c + 1)) * c
              = - ((b * b) * / (c + 1) * (1 + / (c + 1)))).
  { field. lra. }
  rewrite E in H3.
  assert (Hbb : 0 < b * b) by (apply Rsqr_pos_lt in Hb; exact Hb).
  assert (0 < (b * b) * / (c + 1) * (1 + / (c + 1))).
  { apply Rmult_lt_0_compat; [apply Rmult_lt_0_compat; assumption | lra]. }
  lra.
Qed.

Lemma sum3_nonneg_zero (a b c : R) :
  0 <= a -> 0 <= b -> 0 <= c -> a + b + c = 0 -> a = 0 /\ b = 0 /\ c = 0.
Proof. intros. repeat split; lra. Qed.

Lemma square_zero (a : R) : a * a = 0 -> a = 0.
Proof. intros H. apply Rmult_integral in H. tauto. Qed.

(** a positive semi-definite symmetric form that vanishes at [y] kills [y] *)
Lemma psd_null (B : m3) (y : pt) :
  symmetric B -> psd B -> dot y (mv B y) = 0 -> mv B y = (0, 0, 0).
Proof.
  intros Hsym Hpsd H0.
  destruct B as [b00 b01 b02 b10 b11 b12 b20 b21 b22].
  unfold symmetric, mT in Hsym. cbn in Hsym.
  injection Hsym as E1 E2 E3 E4 E5 E6. subst b10 b20 b21.
  destruct y as [[y0 y1] y2].
  unfold psd, dot, mv, px, py, pz in *. cbn [m00 m01 m02 m10 m11 m12 m20 m21 m22 fst snd] in *.
  assert (Hx : b00 * y0 + b01 * y1 + b02 * y2 = 0).
  { apply (quadratic_nonneg_linear_zero _ b00). intros lam.
    pose proof (Hpsd (y0 + lam, y1, y2)) as Hp. cbn [fst snd] in Hp. lra. }
  assert (Hy : b01 * y0 + b11 * y1 + b12 * y2 = 0).
  { apply (quadratic_nonneg_linear_zero _ b11). intros lam.
    pose proof (Hpsd (y0, y1 + lam, y2)) as Hp. cbn [fst snd] in Hp. lra. }
  assert (Hz : b02 * y0 + b12 * y1 + b22 * y2 = 0).
  { apply (quadratic_nonneg_linear_zero _ b22). intros lam.
    pose proof (Hpsd (y0, y1, y2 + lam)) as Hp. cbn [fst snd] in Hp. lra. }
  now rewrite Hx, Hy, Hz.
Qed.

Lemma psd_madd_diag (B : m3) (a b c : R) :
  0 <= a -> 0 <= b -> 0 <= c -> psd B -> psd (madd B (diag3 a b c)).
Proof.
  intros Ha Hb Hc HB x. specialize (HB x).
  destruct B as [?a ?a ?a ?a ?a ?a ?a ?a ?a], x as [[x0 x1] x2]. m3_unfold.
  pose proof (Rle_0_sqr x0). pose proof (Rle_0_sqr x1). pose proof (Rle_0_sqr x2).
  unfold Rsqr in *.
  assert (0 <= a * (x0 * x0)) by now apply Rmult_le_pos.
  assert (0 <= b * (x1 * x1)) by now apply Rmult_le_pos.
  assert (0 <= c * (x2 * x2)) by now apply Rmult_le_pos.
  lra.
Qed.

(** the difference [B - diag(a, b, c)] and the sum [B + diag(a, b, c)] *)
Lemma anticommutator_of_squares (B : m3) (a b c : R) :
  let E := madd B (mscale (-1) (diag3 a b c)) in
  let S := madd B (diag3 a b c) in
  2 * mtrace (mmul (mmul E S) E) =
  2 * mtrace (mmul (madd (mmul B B) (mscale (-1) (diag3 (a * a) (b * b) (c * c)))) E).
Proof. m3_ring. Qed.

Lemma trace_as_columns (E Sm : m3) :
  mtrace (mmul (mmul (mT E) Sm) E)
  = dot (mv E (1, 0, 0)) (mv Sm (mv E (1, 0, 0)))
    + dot (mv E (0, 1, 0)) (mv Sm (mv E (0, 1, 0)))
    + dot (mv E (0, 0, 1)) (mv Sm (mv E (0, 0, 1))).
Proof. m3_ring. Qed.

Lemma diag_form_null (a b c : R) (y : pt) :
  0 <= a -> 0 <= b -> 0 <= c ->
  dot y (mv (diag3 a b c) y) = 0 -> mv (diag3 a b c) y = (0, 0, 0).
Proof.
  intros Ha Hb Hc H. destruct y as [[y0 y1] y2]. m3_unfold.
  pose proof (Rle_0_sqr y0) as H0. pose proof (Rle_0_sqr y1) as H1.
  pose proof (Rle_0_sqr y2) as H2. unfold Rsqr in *.
  assert (Ea : a * (y0 * y0) = 0 /\ b * (y1 * y1) = 0 /\ c * (y2 * y2) = 0).
  { apply sum3_nonneg_zero; try (now apply Rmult_le_pos). lra. }
  destruct Ea as [Ea [Eb Ec]].
  assert (Za : a * y0 = 0).
  { apply Rmult_integral in Ea. destruct Ea as [-> | Ea]; [ring |].
    apply square_zero in Ea. rewrite Ea. ring. }
  assert (Zb : b * y1 = 0).
  { apply Rmult_integral in Eb. destruct Eb as [-> | Eb]; [ring |].
    apply square_zero in Eb. rewrite Eb. ring. }
  assert (Zc : c * y2 = 0).
  { apply Rmult_integral in Ec. destruct Ec as [-> | Ec]; [ring |].
    apply square_zero in Ec. rewrite Ec. ring. }
  f_equal; [f_equal |]; lra.
Qed.

(** the positive semi-definite square root of [diag(a^2, b^2, c^2)] is
    [diag(a, b, c)] *)
Lemma psd_sqrt_diag (B : m3) (a b c : R) :
  0 <= a -> 0 <= b -> 0 <= c ->
  symmetric B -> psd B ->
  mmul B B = diag3 (a * a) (b * b) (c * c) ->
  B = diag3 a b c.
Proof.
  intros Ha Hb Hc Hsym Hpsd Hsq.
  set (E := madd B (mscale (-1) (diag3 a b c))).
  set (Sm := madd B (diag3 a b c)).
  assert (HEsym : mT E = E).
  { unfold E. unfold symmetric in Hsym. rewrite <- Hsym at 2.
    destruct B. reflexivity. }
  assert (HS : psd Sm) by now apply psd_madd_diag.
  assert (HT : mtrace (mmul (mmul (mT E) Sm) E) = 0).
  { rewrite HEsym.
    pose proof (anticommutator_of_squares B a b c) as H. cbv zeta in H.
    fold E in H. fold Sm in H. rewrite Hsq in H.
    replace (madd (diag3 (a * a) (b * b) (c * c))
                  (mscale (-1) (diag3 (a * a) (b * b) (c * c)))) with mzero in H
      by (unfold madd, mscale, diag3, mzero; cbn; f_equal; ring).
    replace (mtrace (mmul mzero E)) with 0 in H by (destruct E; unfold mtrace, mmul, mzero; cbn; ring).
    lra. }
  rewrite trace_as_columns in HT.
  assert (Hcol : forall e, dot (mv E e) (mv Sm (mv E e)) = 0 -> mv E (mv E e) = (0, 0, 0)).
  { intros e He. set (y := mv E e) in *.
    assert (HBy : 0 <= dot y (mv B y)) by apply Hpsd.
    assert (HDy : 0 <= dot y (mv (diag3 a b c) y)).
    { destruct y as [[y0 y1] y2]. m3_unfold.
      pose proof (Rle_0_sqr y0). pose proof (Rle_0_sqr y1). pose proof (Rle_0_sqr y2).
      unfold Rsqr in *.
      assert (0 <= a * (y0 * y0)) by now apply Rmult_le_pos.
      assert (0 <= b * (y1 * y1)) by now apply Rmult_le_pos.
      assert (0 <= c * (y2 * y2)) by now apply Rmult_le_pos.
      lra. }
    assert (Hsplit : dot y (mv Sm y) = dot y (mv B y) + dot y (mv (diag3 a b c) y)).
    { unfold Sm. clear. m3_ring. }
    assert (H1 : mv B y = (0, 0, 0)) by (apply psd_null; trivial; lra).
    assert (H2 : mv (diag3 a b c) y = (0, 0, 0)) by (apply diag_form_null; trivial; lra).
    assert (HE : mv E y = psub (mv B y) (mv (diag3 a b c) y)).
    { unfold E. clear. m3_ring. }
    rewrite HE, H1, H2. unfold psub, px, py, pz. cbn. f_equal; [f_equal |]; ring. }
  pose proof (HS (mv E (1, 0, 0))) as Q0.
  pose proof (HS (mv E (0, 1, 0))) as Q1.
  pose proof (HS (mv E (0, 0, 1))) as Q2.
  destruct (sum3_nonneg_zero _ _ _ Q0 Q1 Q2 HT) as [Z0 [Z1 Z2]].
  apply Hcol in Z0, Z1, Z2.
  assert (HE0 : E = mzero).
  { clear - HEsym Z0 Z1 Z2.
    destruct E as [e00 e01 e02 e10 e11 e12 e20 e21 e22].
    unfold mT in HEsym. cbn in HEsym. injection HEsym as E1 E2 E3 E4 E5 E6.
    subst e10 e20 e21. m3_unfold.
    injection Z0 as A0 _ _. injection Z1 as _ A1 _. injection Z2 as _ _ A2.
    ring_simplify in A0. ring_simplify in A1. ring_simplify in A2.
    pose proof (Rle_0_sqr e00). pose proof (Rle_0_sqr e01). pose proof (Rle_0_sqr e02).
    pose proof (Rle_0_sqr e11). pose proof (Rle_0_sqr e12). pose proof (Rle_0_sqr e22).
    unfold Rsqr in *.
    assert (e00 * e00 = 0) by lra. assert (e01 * e01 = 0) by lra.
    assert (e02 * e02 = 0) by lra. assert (e11 * e11 = 0) by lra.
    assert (e12 * e12 = 0) by lra. assert (e22 * e22 = 0) by lra.
    repeat match goal with H : ?x * ?x = 0 |- _ => apply square_zero in H end.
    subst. reflexivity. }
  unfold E in HE0. clear - HE0.
  destruct B as [b00 b01 b02 b10 b11 b12 b20 b21 b22].
  unfold madd, mscale, diag3, mzero in *. cbn in HE0.
  injection HE0 as A0 A1 A2 A3 A4 A5 A6 A7 A8.
  f_equal; lra.
Qed.

Section Kabsch.

Variables (U V Rm A : m3) (a b c : R).
Hypothesis HU : orthogonal U.
Hypothesis HV : orthogonal V.
Hypothesis HR : rotation Rm.
Hypothesis Ha : 0 <= a.
Hypothesis Hb : 0 <= b.
Hypothesis Hc : 0 <= c.
Hypothesis HAsym : symmetric A.
Hypothesis HApsd : psd A.
Hypothesis HH : mmul A (mT Rm) = mmul (mmul U (diag3 a b c)) (mT V).

Let W : m3 := mmul (mT V) Rm.
Let G : m3 := mmul W U.

Lemma kabsch_A_factor : A = mmul (mmul U (diag3 a b c)) W.
Proof.
  destruct HR as [[HR1 HR2] _].
  rewrite <- (mmul_I_r A), <- HR1, <- mmul_assoc, HH.
  unfold W. now rewrite !mmul_assoc.
Qed.

Lemma kabsch_W_orthogonal : mmul W (mT W) = mI.
Proof.
  destruct HR as [[HR1 HR2] _]. destruct HV as [HV1 HV2].
  unfold W. rewrite mT_mmul, mT_mT, mmul_assoc, <- (mmul_assoc Rm).
  now rewrite HR2, mmul_I_l.
Qed.

Lemma kabsch_G_orthogonal : mmul G (mT G) = mI.
Proof.
  destruct HU as [HU1 HU2].
  unfold G. rewrite mT_mmul, mmul_assoc, <- (mmul_assoc U).
  rewrite HU2, mmul_I_l. apply kabsch_W_orthogonal.
Qed.

Lemma kabsch_conjugate : mmul (mmul (mT U) A) U = mmul (diag3 a b c) G.
Proof.
  destruct HU as [HU1 HU2].
  rewrite kabsch_A_factor at 1. unfold G.
  rewrite <- !mmul_assoc. rewrite HU1, mmul_I_l. reflexivity.
Qed.

(** [U^T . A . U] is the diagonal matrix of the singular values *)
Lemma kabsch_spectrum : mmul (mmul (mT U) A) U = diag3 a b c.
Proof.
  destruct HU as [HU1 HU2].
  apply psd_sqrt_diag; trivial.
  - unfold symmetric. rewrite !mT_mmul, mT_mT, HAsym. now rewrite mmul_assoc.
  - intros x. specialize (HApsd (mv U x)).
    rewrite !mv_mmul, <- dot_mv_l.
    replace (mv (mT (mT U)) x) with (mv U x) by now rewrite mT_mT.
    exact HApsd.
  - assert (HAA : mmul A A = mmul (mmul U (diag3 (a * a) (b * b) (c * c))) (mT U)).
    { pose proof HAsym as Hs. unfold symmetric in Hs.
      rewrite <- Hs at 2. rewrite kabsch_A_factor.
      rewrite !mT_mmul, mT_diag3.
      rewrite (mmul_assoc (mmul U (diag3 a b c)) W), <- (mmul_assoc W (mT W)).
      rewrite kabsch_W_orthogonal, mmul_I_l.
      rewrite mmul_assoc, <- (mmul_assoc (diag3 a b c)), mmul_diag3.
      now rewrite mmul_assoc. }
    rewrite (mmul_assoc (mmul (mT U) A) U), <- (mmul_assoc U (mmul (mT U) A) U).
    rewrite <- (mmul_assoc U (mT U) A), HU2, mmul_I_l.
    rewrite (mmul_assoc (mT U) A), <- (mmul_assoc A A U), HAA.
    rewrite !mmul_assoc, HU1, mmul_I_r, <- mmul_assoc, HU1, mmul_I_l.
    reflexivity.
Qed.

Lemma kabsch_trace : mtrace A = a + b + c.
Proof.
  destruct HU as [HU1 HU2].
  assert (E : mtrace (mmul (mmul (mT U) A) U) = mtrace A).
  { rewrite mtrace_mmul_comm, <- mmul_assoc, HU2, mmul_I_l. reflexivity. }
  rewrite <- E, kabsch_spectrum. reflexivity.
Qed.

Hypothesis Hab : b <= a.
Hypothesis Hbpos : 0 < b.

Lemma kabsch_G_diag : G = diag3 1 1 (mdet (mmul V (mT U))).
Proof.
  pose proof kabsch_G_orthogonal as HG.
  pose proof kabsch_conjugate as HC. rewrite kabsch_spectrum in HC.
  assert (Hdet : mdet G = mdet (mmul V (mT U))).
  { destruct HR as [_ HRd]. unfold G, W.
    rewrite !mdet_mmul, !mdet_mT, HRd. ring. }
  rewrite <- Hdet. clear Hdet.
  destruct G as [g00 g01 g02 g10 g11 g12 g20 g21 g22].
  clear - HG HC Hab Hbpos.
  unfold mmul, mT, diag3, mI, mdet in *. cbn in HG, HC |- *.
  injection HC as C00 C01 C02 C10 C11 C12 _ _ _.
  assert (Hapos : 0 < a) by lra.
  assert (g00 = 1) by (apply (Rmult_eq_reg_l a); lra).
  assert (g01 = 0) by (apply (Rmult_eq_reg_l a); lra).
  assert (g02 = 0) by (apply (Rmult_eq_reg_l a); lra).
  assert (g10 = 0) by (apply (Rmult_eq_reg_l b); lra).
  assert (g11 = 1) by (apply (Rmult_eq_reg_l b); lra).
  assert (g12 = 0) by (apply (Rmult_eq_reg_l b); lra).
  subst.
  injection HG as _ _ G02 _ _ G12 _ _ G22.
  assert (g20 = 0) by lra. assert (g21 = 0) by lra.
  subst. f_equal; ring.
Qed.

(** step 4 of the fit returns the rotation *)
Lemma kabsch_rotation :
  mmul (mmul V (diag3 1 1 (mdet (mmul V (mT U))))) (mT U) = Rm.
Proof.
  destruct HU as [HU1 HU2]. destruct HV as [HV1 HV2].
  rewrite <- kabsch_G_diag. unfold G, W.
  rewrite !mmul_assoc, HU2, mmul_I_r, <- mmul_assoc, HV2, mmul_I_l.
  reflexivity.
Qed.

End Kabsch.

(** ** The similarity aligner: point sets *)

Lemma psum_similarity (s : R) (Rm : m3) (t : pt) (P : list pt) :
  psum (map (similarity s Rm t) P)
  = padd (pscale s (mv Rm (psum P))) (pscale (INR (length P)) t).
Proof.
  induction P as [| p P IH].
  - simpl. clear. m3_ring.
  - cbn [map psum fold_right length]. fold (psum (map (similarity s Rm t) P)).
    fold (psum P). rewrite IH, S_INR. unfold similarity. clear. m3_ring.
Qed.

Lemma centroid_similarity (s : R) (Rm : m3) (t : pt) (P : list pt) :
  P <> [] ->
  centroid (map (similarity s Rm t) P) = similarity s Rm t (centroid P).
Proof.
  intros Hne. unfold centroid. rewrite psum_similarity, length_map.
  assert (Hn : INR (length P) <> 0).
  { apply not_0_INR. destruct P; [contradiction | discriminate]. }
  generalize dependent (INR (length P)). intros n Hn.
  generalize (psum P). intros q. unfold similarity.
  destruct q as [[q0 q1] q2], t as [[t0 t1] t2], Rm.
  unfold padd, pscale, mv, px, py, pz. cbn. f_equal; [f_equal |]; field; exact Hn.
Qed.

Lemma centered_similarity (s : R) (Rm : m3) (t : pt) (P : list pt) :
  P <> [] ->
  centered (map (similarity s Rm t) P)
  = map (fun p => pscale s (mv Rm p)) (centered P).
Proof.
  intros Hne. unfold centered. rewrite centroid_similarity by assumption.
  rewrite !map_map. apply map_ext. intros p. unfold similarity. clear. m3_ring.
Qed.

Lemma combine_map_r {A B : Type} (g : A -> B) (l : list A) :
  combine l (map g l) = map (fun p => (p, g p)) l.
Proof. induction l as [| a l IH]; simpl; [reflexivity | now rewrite IH]. Qed.

Lemma outer_similar (s : R) (Rm : m3) (p : pt) :
  outer p (pscale s (mv Rm p)) = mmul (mscale s (outer p p)) (mT Rm).
Proof. m3_ring. Qed.

Lemma mmul_madd_l (X Y Z : m3) : mmul (madd X Y) Z = madd (mmul X Z) (mmul Y Z).
Proof. m3_ring. Qed.

Lemma mscale_madd (s : R) (X Y : m3) : mscale s (madd X Y) = madd (mscale s X) (mscale s Y).
Proof. m3_ring. Qed.

Lemma mmul_mzero_l (Z : m3) : mmul mzero Z = mzero.
Proof. m3_ring. Qed.

Lemma mscale_mzero (s : R) : mscale s mzero = mzero.
Proof. m3_ring. Qed.

(** step 2 on a transformed set: [H = (s . C) . R^T] *)
Lemma cross_cov_similarity (s : R) (Rm : m3) (l : list pt) :
  cross_cov l (map (fun p => pscale s (mv Rm p)) l)
  = mmul (mscale s (scatter l)) (mT Rm).
Proof.
  unfold cross_cov, scatter. rewrite combine_map_r, map_map. cbn [fst snd].
  induction l as [| p l IH].
  - simpl. now rewrite mscale_mzero, mmul_mzero_l.
  - cbn [map msum fold_right].
    fold (msum (map (fun x => outer x (pscale s (mv Rm x))) l)).
    fold (msum (map (fun p => outer p p) l)).
    rewrite IH, outer_similar, mscale_madd, mmul_madd_l. reflexivity.
Qed.

Lemma scatter_symmetric (l : list pt) : symmetric (scatter l).
Proof.
  unfold symmetric, scatter. induction l as [| p l IH]; [reflexivity |].
  cbn [map msum fold_right]. fold (msum (map (fun p => outer p p) l)).
  rewrite <- IH at 2. clear. m3_ring.
Qed.

Lemma scatter_form (l : list pt) (x : pt) :
  dot x (mv (scatter l) x) = rsum (map (fun p => dot p x * dot p x) l).
Proof.
  unfold scatter. induction l as [| p l IH].
  - simpl. clear. m3_ring.
  - cbn [map msum rsum fold_right]. fold (msum (map (fun p => outer p p) l)).
    fold (rsum (map (fun p => dot p x * dot p x) l)).
    rewrite <- IH. clear. m3_ring.
Qed.

Lemma rsum_squares_nonneg {A : Type} (f : A -> R) (l : list A) :
  0 <= rsum (map (fun p => f p * f p) l).
Proof.
  induction l as [| p l IH]; simpl; [lra |].
  pose proof (Rle_0_sqr (f p)) as H. unfold Rsqr in H.
  fold (rsum (map (fun p => f p * f p) l)). lra.
Qed.

Lemma rsum_squares_zero {A : Type} (f : A -> R) (l : list A) :
  rsum (map (fun p => f p * f p) l) = 0 -> forall p, In p l -> f p = 0.
Proof.
  induction l as [| q l IH]; intros H p Hp; [contradiction |].
  cbn [map rsum fold_right] in H. fold (rsum (map (fun p => f p * f p) l)) in H.
  pose proof (Rle_0_sqr (f q)) as Hq. unfold Rsqr in Hq.
  pose proof (rsum_squares_nonneg f l) as Hl.
  destruct Hp as [<- | Hp].
  - apply square_zero. lra.
  - apply IH; [lra | assumption].
Qed.

Lemma scatter_psd (l : list pt) : psd (scatter l).
Proof.
  intros x. rewrite scatter_form. apply (rsum_squares_nonneg (fun p => dot p x)).
Qed.

Lemma mscale_symmetric (s : R) (A : m3) : symmetric A -> symmetric (mscale s A).
Proof.
  unfold symmetric. intros H. rewrite <- H at 2. clear. m3_ring.
Qed.

Lemma mscale_form (s : R) (A : m3) (x : pt) :
  dot x (mv (mscale s A) x) = s * dot x (mv A x).
Proof. m3_ring. Qed.

Lemma mscale_psd (s : R) (A : m3) : 0 <= s -> psd A -> psd (mscale s A).
Proof.
  intros Hs HA x. rewrite mscale_form. apply Rmult_le_pos; [assumption | apply HA].
Qed.

Lemma scatter_trace (l : list pt) :
  mtrace (scatter l) = rsum (map (fun p => dot p p) l).
Proof.
  unfold scatter. induction l as [| p l IH]; [simpl; unfold mtrace; simpl; ring |].
  cbn [map msum rsum fold_right]. fold (msum (map (fun p => outer p p) l)).
  fold (rsum (map (fun p => dot p p) l)). rewrite <- IH. clear. m3_ring.
Qed.

Lemma mscale_trace (s : R) (A : m3) : mtrace (mscale s A) = s * mtrace A.
Proof. m3_ring. Qed.

Lemma cross_norm_zero (v : pt) : dot v v = 0 -> v = (0, 0, 0).
Proof.
  destruct v as [[x y] z]. unfold dot, px, py, pz. cbn. intros H.
  pose proof (Rle_0_sqr x) as Hx. pose proof (Rle_0_sqr y) as Hy.
  pose proof (Rle_0_sqr z) as Hz. unfold Rsqr in *.
  assert (x * x = 0) by lra. assert (y * y = 0) by lra. assert (z * z = 0) by lra.
  repeat match goal with H : ?a * ?a = 0 |- _ => apply square_zero in H end.
  now subst.
Qed.

Lemma has_noncollinear_true (P : list pt) :
  noncollinear P -> has_noncollinear P = true.
Proof.
  intros [pa [pb [pc [Ha [Hb [Hc Hne]]]]]]. unfold has_noncollinear.
  apply existsb_exists. exists pa. split; [assumption |].
  apply existsb_exists. exists pb. split; [assumption |].
  apply existsb_exists. exists pc. split; [assumption |].
  rewrite Reqb_false; [reflexivity |].
  intros H. apply Hne. now apply cross_norm_zero.
Qed.

Lemma columns_of_transpose (U : m3) (v : pt) :
  mv (mT U) v = (dot (mv U (1, 0, 0)) v, dot (mv U (0, 1, 0)) v, dot (mv U (0, 0, 1)) v).
Proof. m3_ring. Qed.

Lemma cross_parallel (U : m3) (al be : R) :
  cross (mv U (al, 0, 0)) (mv U (be, 0, 0)) = (0, 0, 0).
Proof. m3_ring. Qed.

(** a set with three non-collinear points has a scatter matrix of rank at
    least two: its second singular value is positive *)
Lemma second_singular_value_positive
      (U : m3) (a b c s : R) (P : list pt) :
  orthogonal U -> 0 < s -> c <= b -> 0 <= c ->
  mmul (mmul (mT U) (mscale s (scatter (centered P)))) U = diag3 a b c ->
  noncollinear P ->
  0 < b.
Proof.
  intros [HU1 HU2] Hs Hcb Hc Hspec [pa [pb [pc [Ha [Hb [Hc' Hne]]]]]].
  destruct (Rle_lt_dec b 0) as [Hb0 | Hpos]; [exfalso | exact Hpos].
  assert (Eb : b = 0) by lra. assert (Ec : c = 0) by lra. subst b c.
  set (C := scatter (centered P)) in *.
  assert (Hcol : forall e, dot e (mv (diag3 a 0 0) e) = 0 ->
                 forall p, In p P -> dot (psub p (centroid P)) (mv U e) = 0).
  { intros e He p Hp.
    rewrite <- Hspec in He. rewrite !mv_mmul, <- dot_mv_l, mscale_form in He.
    assert (H0 : dot (mv U e) (mv C (mv U e)) = 0).
    { apply Rmult_integral in He. destruct He; [lra | assumption]. }
    unfold C in H0. rewrite scatter_form in H0.
    apply (rsum_squares_zero (fun q => dot q (mv U e)) (centered P) H0
                             (psub p (centroid P))).
    unfold centered. apply (in_map (fun q => psub q (centroid P))). exact Hp. }
  assert (H1 : forall p, In p P -> dot (psub p (centroid P)) (mv U (0, 1, 0)) = 0).
  { apply Hcol. clear. m3_ring. }
  assert (H2 : forall p, In p P -> dot (psub p (centroid P)) (mv U (0, 0, 1)) = 0).
  { apply Hcol. clear. m3_ring. }
  assert (Hdiff : forall p q, In p P -> In q P ->
            exists al, psub q p = mv U (al, 0, 0)).
  { intros p q Hp Hq.
    exists (dot (mv U (1, 0, 0)) (psub q p)).
    rewrite <- (mv_I (psub q p)) at 1. rewrite <- HU2, mv_mmul, columns_of_transpose.
    assert (E1 : dot (mv U (0, 1, 0)) (psub q p) = 0).
    { pose proof (H1 p Hp) as A1. pose proof (H1 q Hq) as A2.
      revert A1 A2. generalize (mv U (0, 1, 0)) (centroid P). clear.
      intros u g A1 A2. destruct u as [[u0 u1] u2], g as [[g0 g1] g2],
        p as [[p0 p1] p2], q as [[q0 q1] q2].
      unfold dot, psub, px, py, pz in *. cbn in *. lra. }
    assert (E2 : dot (mv U (0, 0, 1)) (psub q p) = 0).
    { pose proof (H2 p Hp) as A1. pose proof (H2 q Hq) as A2.
      revert A1 A2. generalize (mv U (0, 0, 1)) (centroid P). clear.
      intros u g A1 A2. destruct u as [[u0 u1] u2], g as [[g0 g1] g2],
        p as [[p0 p1] p2], q as [[q0 q1] q2].
      unfold dot, psub, px, py, pz in *. cbn in *. lra. }
    now rewrite E1, E2. }
  destruct (Hdiff pa pb Ha Hb) as [al Eal].
  destruct (Hdiff pa pc Ha Hc') as [be Ebe].
  apply Hne. rewrite Eal, Ebe. apply cross_parallel.
Qed.

Lemma residual_nonneg (s : R) (Rm : m3) (t : pt) (P Q : list pt) :
  0 <= residual s Rm t P Q.
Proof.
  unfold residual. induction (combine P Q) as [| pq l IH]; simpl; [lra |].
  set (v := psub (similarity s Rm t (fst pq)) (snd pq)).
  assert (0 <= dot v v).
  { destruct v as [[x y] z]. unfold dot, px, py, pz. cbn.
    pose proof (Rle_0_sqr x). pose proof (Rle_0_sqr y). pose proof (Rle_0_sqr z).
    unfold Rsqr in *. lra. }
  fold (rsum (map (fun pq => dot (psub (similarity s Rm t (fst pq)) (snd pq))
                                  (psub (similarity s Rm t (fst pq)) (snd pq))) l)).
  lra.
Qed.

Lemma residual_exact (s : R) (Rm : m3) (t : pt) (P : list pt) :
  residual s Rm t P (map (similarity s Rm t) P) = 0.
Proof.
  unfold residual. rewrite combine_map_r, map_map. cbn [fst snd].
  induction P as [| p P IH]; [reflexivity |].
  cbn [map rsum fold_right]. fold (rsum (map (fun x => dot (psub (similarity s Rm t x) (similarity s Rm t x))
                                              (psub (similarity s Rm t x) (similarity s Rm t x))) P)).
  rewrite IH. generalize (similarity s Rm t p). clear. m3_ring.
Qed.

(** C8: for a scale s > 0, a rotation R of SO(3), an offset t and a point
    set P with three non-collinear points, the fit of P against
    s.R.P + t returns exactly (s, R, t) (and the aligned set s.R.P + t),
    whatever valid singular value decomposition it is given; its residual is
    zero, hence minimal among all similarity transforms. *)
Theorem fit_similarity_round_trip
        (svd : m3 -> m3 * pt * m3) (s : R) (Rm : m3) (t : pt) (P : list pt) :
  0 < s -> rotation Rm -> noncollinear P ->
  is_svd (cross_cov (centered P) (centered (map (similarity s Rm t) P)))
         (svd (cross_cov (centered P) (centered (map (similarity s Rm t) P)))) ->
  fit_similarity svd P (map (similarity s Rm t) P)
  = ok (s, Rm, t, map (similarity s Rm t) P)
  /\ residual s Rm t P (map (similarity s Rm t) P) = 0
  /\ forall s' Rm' t',
       residual s Rm t P (map (similarity s Rm t) P)
       <= residual s' Rm' t' P (map (similarity s Rm t) P).
Proof.
  intros Hs HR Hnc Hsvd.
  assert (Hne : P <> []).
  { destruct Hnc as [pa [_ [_ [Ha _]]]]. intros ->. contradiction. }
  split; [| split].
  - unfold fit_similarity. rewrite (has_noncollinear_true P Hnc). cbn [negb].
    cbv zeta.
    destruct (svd (cross_cov (centered P) (centered (map (similarity s Rm t) P))))
      as [[U sg] V] eqn:Esvd.
    destruct Hsvd as [HU [HV [Hab [Hbc [Hc HH]]]]].
    rewrite centered_similarity, cross_cov_similarity in HH by assumption.
    set (A := mscale s (scatter (centered P))) in *.
    assert (HAsym : symmetric A) by (apply mscale_symmetric, scatter_symmetric).
    assert (HApsd : psd A) by (apply mscale_psd; [lra | apply scatter_psd]).
    assert (Hspec := kabsch_spectrum U V Rm A (px sg) (py sg) (pz sg)
                       HU HV HR ltac:(lra) ltac:(lra) ltac:(lra) HAsym HApsd HH).
    assert (Hb : 0 < py sg).
    { apply (second_singular_value_positive U (px sg) (py sg) (pz sg) s P);
        trivial; lra. }
    assert (Hrot := kabsch_rotation U V Rm A (px sg) (py sg) (pz sg)
                      HU HV HR ltac:(lra) ltac:(lra) ltac:(lra) HAsym HApsd HH
                      ltac:(lra) Hb).
    assert (Htr := kabsch_trace U V Rm A (px sg) (py sg) (pz sg)
                     HU HV HR ltac:(lra) ltac:(lra) ltac:(lra) HAsym HApsd HH).
    unfold A in Htr. rewrite mscale_trace, scatter_trace in Htr.
    rewrite Hrot.
    assert (Hden : rsum (map (fun p => dot p p) (centered P)) <> 0).
    { intros E. rewrite E in Htr. lra. }
    assert (Escale : (px sg + py sg + pz sg) / rsum (map (fun p => dot p p) (centered P)) = s).
    { rewrite <- Htr. now field. }
    rewrite Escale, centroid_similarity by assumption.
    assert (Et : psub (similarity s Rm t (centroid P)) (pscale s (mv Rm (centroid P))) = t).
    { unfold similarity. generalize (centroid P). clear. m3_ring. }
    rewrite Et. reflexivity.
  - apply residual_exact.
  - intros s' Rm' t'. rewrite residual_exact. apply residual_nonneg.
Qed.

Lemma quarter_turn_z_rotation : rotation quarter_turn_z.
Proof.
  unfold rotation, orthogonal, quarter_turn_z, mmul, mT, mI, mdet. cbn.
  repeat split; try (f_equal; ring); try ring.
Qed.

Lemma mI_orthogonal : orthogonal mI.
Proof. unfold orthogonal, mmul, mT, mI. cbn. split; f_equal; ring. Qed.

Lemma square_pts_noncollinear : noncollinear square_pts.
Proof.
  exists (1, 0, 0), (-1, 0, 0), (0, 1, 0). unfold square_pts.
  repeat split; try (simpl; tauto).
  unfold cross, psub, px, py, pz. cbn. intros H. injection H as _ _ H. lra.
Qed.

Lemma square_centroid : centroid square_pts = (0, 0, 0).
Proof.
  unfold centroid, square_pts, psum, pscale, padd, px, py, pz. cbn.
  f_equal; [f_equal |]; field.
Qed.

Lemma square_scatter : scatter (centered square_pts) = diag3 2 2 0.
Proof.
  unfold centered. rewrite square_centroid.
  unfold scatter, square_pts, msum, outer, psub, madd, mzero, diag3, px, py, pz. cbn.
  f_equal; ring.
Qed.

Lemma fit_similarity_round_trip_witness :
  fit_similarity square_svd square_pts
                 (map (similarity 2 quarter_turn_z (1, 2, 3)) square_pts)
  = ok (2, quarter_turn_z, (1, 2, 3),
        map (similarity 2 quarter_turn_z (1, 2, 3)) square_pts).
Proof.
  assert (Hsvd : is_svd (cross_cov (centered square_pts)
                           (centered (map (similarity 2 quarter_turn_z (1, 2, 3))
                                          square_pts)))
                        (square_svd
                           (cross_cov (centered square_pts)
                              (centered (map (similarity 2 quarter_turn_z (1, 2, 3))
                                             square_pts))))).
  { rewrite centered_similarity, cross_cov_similarity by discriminate.
    rewrite square_scatter. unfold square_svd, is_svd.
    split; [exact mI_orthogonal |].
    split; [exact (proj1 quarter_turn_z_rotation) |].
    unfold px, py, pz. cbn [fst snd].
    repeat split; try lra.
    unfold mmul, mscale, mT, diag3, mI, quarter_turn_z. cbn. f_equal; ring. }
  apply (proj1 (fit_similarity_round_trip square_svd 2 quarter_turn_z (1, 2, 3)
                  square_pts ltac:(lra) quarter_turn_z_rotation
                  square_pts_noncollinear Hsvd)).
Defined.

(** ** Cell 4: sorting *)

Lemma string_compare_lt_trans (s1 s2 s3 : String.string) :
  String.compare s1 s2 = Lt -> String.compare s2 s3 = Lt ->
  String.compare s1 s3 = Lt.
Proof.
  revert s2 s3.
  induction s1 as [| a s1 IH]; intros [| b s2] [| c s3]; simpl;
    try discriminate; try reflexivity.
  unfold Ascii.compare.
  destruct (N.compare_spec (Ascii.N_of_ascii a) (Ascii.N_of_ascii b)) as [E1 | L1 | G1];
    try discriminate;
    destruct (N.compare_spec (Ascii.N_of_ascii b) (Ascii.N_of_ascii c)) as [E2 | L2 | G2];
    try discriminate; intros H1 H2.
  - rewrite E1, E2, N.compare_refl. eapply IH; eassumption.
  - rewrite E1. now apply N.compare_lt_iff in L2 as ->.
  - rewrite <- E2. now apply N.compare_lt_iff in L1 as ->.
  - assert (L : (Ascii.N_of_ascii a < Ascii.N_of_ascii c)%N) by lia.
    now apply N.compare_lt_iff in L as ->.
Qed.

Lemma string_ltb_lt (s1 s2 : String.string) :
  String.ltb s1 s2 = true <-> String.compare s1 s2 = Lt.
Proof. unfold String.ltb. destruct (String.compare s1 s2); split; congruence. Qed.

Lemma string_compare_refl (s : String.string) : String.compare s s = Eq.
Proof.
  induction s as [| a s IH]; simpl; [reflexivity |].
  unfold Ascii.compare. now rewrite N.compare_refl.
Qed.

Lemma string_ltb_irrefl (s : String.string) : String.ltb s s = false.
Proof. unfold String.ltb. now rewrite string_compare_refl. Qed.

Lemma string_ltb_asym (s1 s2 : String.string) :
  String.ltb s1 s2 = true -> String.ltb s2 s1 = false.
Proof.
  unfold String.ltb. rewrite (String.compare_antisym s1 s2).
  destruct (String.compare s2 s1); simpl; congruence.
Qed.

Lemma string_ltb_total (s1 s2 : String.string) :
  String.ltb s1 s2 = false -> String.ltb s2 s1 = false -> s1 = s2.
Proof.
  unfold String.ltb. rewrite (String.compare_antisym s1 s2).
  destruct (String.compare s2 s1) eqn:E; simpl; try discriminate.
  intros _ _. symmetry. now apply String.compare_eq_iff.
Qed.

Lemma key_le_trans {A : Type} (key : A -> String.string) (a b c : A) :
  key_le key a b -> key_le key b c -> key_le key a c.
Proof.
  unfold key_le. intros Hab Hbc.
  destruct (String.ltb (key c) (key a)) eqn:Hca; [| reflexivity].
  destruct (String.ltb (key a) (key b)) eqn:Hlab.
  - (* c < a < b *)
    apply string_ltb_lt in Hca, Hlab.
    pose proof (string_compare_lt_trans _ _ _ Hca Hlab) as H.
    apply string_ltb_lt in H. congruence.
  - pose proof (string_ltb_total _ _ Hlab Hab) as E. rewrite E in Hca. congruence.
Qed.

Lemma sorted_insert_perm {A : Type} (key : A -> String.string) (x : A) (l : list A) :
  Permutation (sorted_insert key x l) (x :: l).
Proof.
  induction l as [| y tl IH]; simpl; [apply Permutation_refl |].
  destruct (String.ltb (key y) (key x)).
  - eapply perm_trans; [apply perm_skip, IH | apply perm_swap].
  - apply Permutation_refl.
Qed.

Lemma sorted_perm {A : Type} (key : A -> String.string) (l : list A) :
  Permutation (sorted key l) l.
Proof.
  induction l as [| x l IH]; simpl; [constructor |].
  eapply perm_trans; [apply sorted_insert_perm | now apply perm_skip].
Qed.

Lemma sorted_insert_ordered {A : Type} (key : A -> String.string) (x : A) (l : list A) :
  StronglySorted (key_le key) l ->
  StronglySorted (key_le key) (sorted_insert key x l).
Proof.
  induction l as [| y tl IH]; intros Hs; simpl.
  - constructor; constructor.
  - inversion Hs as [| ? ? Htl Hall]; subst.
    destruct (String.ltb (key y) (key x)) eqn:Hyx.
    + constructor; [now apply IH |].
      apply Forall_forall. intros z Hz.
      apply (Permutation_in _ (sorted_insert_perm key x tl)) in Hz.
      destruct Hz as [<- | Hz].
      * unfold key_le. now apply string_ltb_asym.
      * rewrite Forall_forall in Hall. now apply Hall.
    + constructor; [assumption |].
      constructor; [exact Hyx |].
      apply Forall_forall. intros z Hz. rewrite Forall_forall in Hall.
      eapply key_le_trans; [exact Hyx | now apply Hall].
Qed.

Lemma sorted_ordered {A : Type} (key : A -> String.string) (l : list A) :
  StronglySorted (key_le key) (sorted key l).
Proof.
  induction l as [| x l IH]; simpl; [constructor |].
  now apply sorted_insert_ordered.
Qed.

Lemma sorted_insert_filter {A : Type} (key : A -> String.string) (s : String.string)
      (x : A) (l : list A) :
  filter (fun a => String.eqb (key a) s) (sorted_insert key x l) =
  filter (fun a => String.eqb (key a) s) (x :: l).
Proof.
  induction l as [| y tl IH]; [reflexivity |].
  cbn [sorted_insert].
  destruct (String.ltb (key y) (key x)) eqn:Hyx; [| reflexivity].
  cbn [filter] in *. rewrite IH.
  destruct (String.eqb (key x) s) eqn:Ex; [| reflexivity].
  destruct (String.eqb (key y) s) eqn:Ey; [| reflexivity].
  apply String.eqb_eq in Ex, Ey. rewrite Ex, Ey, string_ltb_irrefl in Hyx.
  discriminate.
Qed.

Lemma sorted_stable {A : Type} (key : A -> String.string) (s : String.string)
      (l : list A) :
  filter (fun a => String.eqb (key a) s) (sorted key l) =
  filter (fun a => String.eqb (key a) s) l.
Proof.
  induction l as [| x l IH]; [reflexivity |].
  cbn [sorted fold_right]. rewrite sorted_insert_filter.
  cbn [filter]. fold (sorted key l). now rewrite IH.
Qed.

(** two ordered lists with the same elements and distinct keys are equal *)
Lemma ordered_unique {A : Type} (key : A -> String.string) (l1 l2 : list A) :
  NoDup (map key l1) ->
  StronglySorted (key_le key) l1 -> StronglySorted (key_le key) l2 ->
  Permutation l1 l2 -> l1 = l2.
Proof.
  revert l2. induction l1 as [| a l1 IH]; intros l2 Hnd H1 H2 Hp.
  - now apply Permutation_nil in Hp.
  - destruct l2 as [| b l2].
    + apply Permutation_sym, Permutation_nil in Hp. discriminate.
    + inversion H1 as [| ? ? H1' Ha]; subst.
      inversion H2 as [| ? ? H2' Hb]; subst.
      rewrite Forall_forall in Ha, Hb.
      assert (Eab : a = b).
      { assert (Hb1 : In b (a :: l1))
          by (apply (Permutation_in _ (Permutation_sym Hp)); now left).
        assert (Ha2 : In a (b :: l2))
          by (apply (Permutation_in _ Hp); now left).
        destruct Hb1 as [E | Hb1]; [assumption |].
        destruct Ha2 as [E | Ha2]; [now symmetry |].
        pose proof (Ha b Hb1) as Hab. pose proof (Hb a Ha2) as Hba.
        unfold key_le in Hab, Hba.
        pose proof (string_ltb_total _ _ Hba Hab) as Ek.
        inversion Hnd as [| ? ? Hnin _]; subst.
        exfalso. apply Hnin. rewrite Ek. now apply in_map. }
      subst b. f_equal.
      apply IH; [now inversion Hnd | assumption | assumption |].
      now apply Permutation_cons_inv in Hp.
Qed.

(** X1: cell 4 puts the frames in ascending order of file path without
    adding, dropping or changing any: the frame list is a permutation of
    the input, no frame comes after one of a larger path, frames that share
    a path keep their input order, and Ts holds the matrices of the input.
    *)
Theorem frames_sorted_by_path (frames : list frame) :
  Permutation (fst (cell4 frames)) frames
  /\ StronglySorted (key_le file_path) (fst (cell4 frames))
  /\ (forall s, with_path s (fst (cell4 frames)) = with_path s frames)
  /\ Permutation (snd (cell4 frames)) (map transform_matrix frames)
  /\ length (snd (cell4 frames)) = length frames.
Proof.
  unfold cell4. cbn [fst snd].
  split; [apply sorted_perm |].
  split; [apply sorted_ordered |].
  split; [intros s; apply sorted_stable |].
  split.
  - apply Permutation_map, sorted_perm.
  - rewrite length_map. apply Permutation_length, sorted_perm.
Qed.

(** X2: when the file paths are pairwise distinct, the Pose Set built by
    cell 4 does not depend on the order in which the file lists its
    frames. *)
Theorem frame_order_is_irrelevant (frames frames' : list frame) :
  NoDup (map file_path frames) ->
  Permutation frames frames' ->
  cell4 frames' = cell4 frames.
Proof.
  intros Hnd Hp. unfold cell4.
  assert (E : sorted file_path frames' = sorted file_path frames).
  { symmetry. apply (ordered_unique file_path).
    - eapply Permutation_NoDup; [| exact Hnd].
      apply Permutation_map, Permutation_sym, sorted_perm.
    - apply sorted_ordered.
    - apply sorted_ordered.
    - eapply perm_trans; [apply sorted_perm |].
      eapply perm_trans; [exact Hp |].
      apply Permutation_sym, sorted_perm. }
  now rewrite E.
Qed.

Lemma frame_order_is_irrelevant_witness :
  cell4 [frame_c; frame_a; frame_b] = cell4 [frame_a; frame_b; frame_c]
  /\ fst (cell4 [frame_c; frame_a; frame_b]) = [frame_a; frame_b; frame_c].
Proof.
  split; [| reflexivity].
  apply (frame_order_is_irrelevant [frame_a; frame_b; frame_c]
                                   [frame_c; frame_a; frame_b]).
  - repeat constructor; simpl; intuition discriminate.
  - apply Permutation_sym, Permutation_cons_append.
Defined.

(** ** Cell 6: the farthest pose *)

Lemma np_argmax_from_spec (tl : list R) (k : nat) (b : R) (bk : nat) :
  (np_argmax_from (map Fin tl) k (Fin b) bk = bk
   /\ Forall (fun x => x <= b) tl)
  \/ exists i,
      np_argmax_from (map Fin tl) k (Fin b) bk = (k + i)%nat
      /\ (i < length tl)%nat
      /\ b < nth i tl 0
      /\ (forall j, (j < i)%nat -> nth j tl 0 < nth i tl 0)
      /\ Forall (fun x => x <= nth i tl 0) tl.
Proof.
  revert k b bk. induction tl as [| x tl IH]; intros k b bk.
  - left. split; [reflexivity | constructor].
  - cbn [map np_argmax_from is_nan orb np_gtb np_ltb].
    unfold Rltb. destruct (Rlt_dec b x) as [Hlt | Hge].
    + right. destruct (IH (S k) x k) as [[E Hall] | [i [E [Hi [Hb [Hfirst Hall]]]]]].
      * exists 0%nat. cbn [nth length]. rewrite E.
        split; [lia |]. split; [lia |]. split; [assumption |].
        split; [intros j Hj; lia |].
        constructor; [lra | assumption].
      * exists (S i). cbn [nth length]. rewrite E.
        split; [lia |]. split; [lia |]. split; [lra |].
        split.
        -- intros [| j] Hj; cbn [nth]; [assumption | apply Hfirst; lia].
        -- constructor; [lra | assumption].
    + destruct (IH (S k) b bk) as [[E Hall] | [i [E [Hi [Hb [Hfirst Hall]]]]]].
      * left. split; [assumption |]. constructor; [lra | assumption].
      * right. exists (S i). cbn [nth length]. rewrite E.
        split; [lia |]. split; [lia |]. split; [assumption |].
        split.
        -- intros [| j] Hj; cbn [nth]; [lra | apply Hfirst; lia].
        -- constructor; [lra | assumption].
Qed.

(** the first index of the largest entry of a non-empty finite list *)
Lemma np_argmax_Fin (l : list R) :
  l <> [] ->
  exists k,
    np_argmax (map Fin l) = ok k
    /\ (k < length l)%nat
    /\ (forall j, (j < length l)%nat -> nth j l 0 <= nth k l 0)
    /\ (forall j, (j < k)%nat -> nth j l 0 < nth k l 0).
Proof.
  destruct l as [| x tl]; [congruence |]. intros _.
  cbn [map np_argmax].
  destruct (np_argmax_from_spec tl 1 x 0)
    as [[E Hall] | [i [E [Hi [Hb [Hfirst Hall]]]]]]; rewrite E.
  - exists 0%nat. split; [reflexivity |]. cbn [length nth].
    split; [lia |]. split; [| intros j Hj; lia].
    rewrite Forall_forall in Hall.
    intros [| j] Hj; cbn [nth]; [lra |]. apply Hall, nth_In. lia.
  - exists (S i). split; [reflexivity |]. cbn [length nth].
    split; [lia |]. rewrite Forall_forall in Hall. split.
    + intros [| j] Hj; cbn [nth]; [lra |]. apply Hall, nth_In. lia.
    + intros [| j] Hj; cbn [nth]; [assumption | apply Hfirst; lia].
Qed.

(** X3: on a non-empty Pose Set with finite translations, cell 6 returns
    an index among the first 25 poses whose distance to pose 0 is the
    largest among them, and the first such index. *)
Theorem farthest_image_is_first_maximum (Ts : list mat) (ps : list pt) :
  Ts <> [] ->
  translations Ts = map vec_of_pt ps ->
  exists k,
    cell6 Ts = ok k
    /\ (k < Nat.min 25 (length Ts))%nat
    /\ (forall j, (j < Nat.min 25 (length Ts))%nat -> rraw ps 0 j <= rraw ps 0 k)
    /\ (forall j, (j < k)%nat -> rraw ps 0 j < rraw ps 0 k).
Proof.
  intros Hne Hts.
  assert (Hlen : length ps = length Ts).
  { rewrite <- (translations_length Ts), Hts. now rewrite length_map. }
  unfold cell6.
  replace (index_poses Ts) with (@ok unit tt)
    by (destruct Ts; [contradiction | reflexivity]).
  cbn [bind ok]. rewrite Hts, length_map, Hlen.
  set (row := firstn 25 (map (rraw ps 0) (seq 0 (length Ts)))).
  assert (E : firstn 25 (map (raw_dists (map vec_of_pt ps) 0) (seq 0 (length Ts)))
              = map Fin row).
  { unfold row. rewrite <- firstn_map, map_map. f_equal.
    apply map_ext. intros j. apply raw_dists_pts. }
  rewrite E.
  assert (Hrow_len : length row = Nat.min 25 (length Ts)).
  { unfold row. now rewrite length_firstn, length_map, length_seq. }
  assert (Hrow_nth : forall j, (j < Nat.min 25 (length Ts))%nat ->
                               nth j row 0 = rraw ps 0 j).
  { intros j Hj. unfold row. rewrite nth_firstn.
    replace (j <? 25)%nat with true by (symmetry; apply Nat.ltb_lt; lia).
    rewrite (nth_indep _ 0 (rraw ps 0 0)) by (rewrite length_map, length_seq; lia).
    rewrite (map_nth (rraw ps 0)). now rewrite seq_nth by lia. }
  assert (Hrow_ne : row <> []).
  { intros H0. rewrite H0 in Hrow_len. simpl in Hrow_len.
    destruct Ts; [contradiction | simpl in Hrow_len; lia]. }
  destruct (np_argmax_Fin row Hrow_ne) as [k [Ek [Hk [Hmax Hfirst]]]].
  exists k. rewrite Hrow_len in Hk, Hmax.
  split; [exact Ek |]. split; [exact Hk |]. split.
  - intros j Hj. rewrite <- (Hrow_nth j Hj), <- (Hrow_nth k Hk). now apply Hmax.
  - intros j Hj. rewrite <- (Hrow_nth j), <- (Hrow_nth k Hk) by lia. now apply Hfirst.
Qed.

Lemma farthest_image_is_first_maximum_witness :
  exists k,
    cell6 (map pose_of_zpt chain_pts) = ok k
    /\ (k < Nat.min 25 (length (map pose_of_zpt chain_pts)))%nat
    /\ (forall j, (j < Nat.min 25 (length (map pose_of_zpt chain_pts)))%nat ->
          rraw (map pt_of_zpt chain_pts) 0 j <= rraw (map pt_of_zpt chain_pts) 0 k)
    /\ (forall j, (j < k)%nat ->
          rraw (map pt_of_zpt chain_pts) 0 j < rraw (map pt_of_zpt chain_pts) 0 k).
Proof.
  apply (farthest_image_is_first_maximum (map pose_of_zpt chain_pts)
                                         (map pt_of_zpt chain_pts)).
  - discriminate.
  - reflexivity.
Defined.

(** ** Cells 8 and 9: shape of the duplicate filter *)

Lemma np_square_sub_sym (a b : npfloat) :
  np_square (np_sub a b) = np_square (np_sub b a).
Proof.
  destruct a as [x | | |], b as [y | | |]; cbn; try reflexivity.
  f_equal. ring.
Qed.

Lemma dist_sym (p q : vec3) : dist p q = dist q p.
Proof.
  unfold dist.
  now rewrite (np_square_sub_sym (vx p)), (np_square_sub_sym (vy p)),
              (np_square_sub_sym (vz p)).
Qed.

Lemma normalize_fill_sym (A : nat -> nat -> npfloat) (m : npfloat) (i j : nat) :
  A i j = A j i -> normalize_fill A m i j = normalize_fill A m j i.
Proof.
  intros H. unfold normalize_fill. rewrite (Nat.eqb_sym j i), H. reflexivity.
Qed.

(** X4: the normalised distance matrix of cell 8 is symmetric and its
    diagonal is never flagged, so [np.argwhere] lists every flagged pair in
    both orders and never a pair (i, i); the test [dup[0] < dup[1]] of cell 9
    therefore visits each flagged unordered pair exactly once. *)
Theorem duplicate_mask_is_symmetric (Ts : list mat) (dists : nat -> nat -> npfloat) :
  dists_of (translations Ts) = ok dists ->
  (forall i j, dists i j = dists j i)
  /\ (forall i, dup_mask dists i i = false)
  /\ (forall i j,
        In (i, j) (argwhere (length Ts) (dup_mask dists)) ->
        i <> j /\ In (j, i) (argwhere (length Ts) (dup_mask dists)))
  /\ (forall i j,
        In (i, j) (argwhere (length Ts) (dup_mask dists)) ->
        (In (i, j) (upper_pairs (argwhere (length Ts) (dup_mask dists)))
         /\ ~ In (j, i) (upper_pairs (argwhere (length Ts) (dup_mask dists))))
        \/ (In (j, i) (upper_pairs (argwhere (length Ts) (dup_mask dists)))
            /\ ~ In (i, j) (upper_pairs (argwhere (length Ts) (dup_mask dists))))).
Proof.
  intros Hd. apply dists_of_inv in Hd. destruct Hd as [m [_ ->]].
  assert (Hsym : forall i j,
             normalize_fill (raw_dists (translations Ts)) m i j =
             normalize_fill (raw_dists (translations Ts)) m j i).
  { intros i j. apply normalize_fill_sym. apply dist_sym. }
  assert (Hdiag : forall i,
             dup_mask (normalize_fill (raw_dists (translations Ts)) m) i i = false).
  { intros i. unfold dup_mask, normalize_fill. rewrite Nat.eqb_refl.
    apply threshold_below_one. }
  assert (Hpair : forall i j,
             In (i, j) (argwhere (length Ts)
                          (dup_mask (normalize_fill (raw_dists (translations Ts)) m))) ->
             i <> j /\
             In (j, i) (argwhere (length Ts)
                          (dup_mask (normalize_fill (raw_dists (translations Ts)) m)))).
  { intros i j Hin. apply argwhere_In in Hin. destruct Hin as [Hi [Hj Hm]].
    split.
    - intros ->. rewrite Hdiag in Hm. discriminate.
    - apply argwhere_In. split; [assumption |]. split; [assumption |].
      unfold dup_mask in *. now rewrite Hsym. }
  split; [exact Hsym |]. split; [exact Hdiag |]. split; [exact Hpair |].
  intros i j Hin. destruct (Hpair i j Hin) as [Hne Hji].
  apply argwhere_In in Hin. destruct Hin as [Hi [Hj Hm]].
  apply argwhere_In in Hji. destruct Hji as [_ [_ Hm']].
  destruct (Nat.lt_ge_cases i j) as [Hlt | Hge].
  - left. split.
    + apply upper_pairs_In. auto.
    + intros H. apply upper_pairs_In in H. lia.
  - right. split.
    + apply upper_pairs_In. split; [lia | auto].
    + intros H. apply upper_pairs_In in H. lia.
Qed.

Lemma duplicate_mask_is_symmetric_witness :
  (forall i j, zdists chain_pts i j = zdists chain_pts j i)
  /\ (forall i, dup_mask (zdists chain_pts) i i = false).
Proof.
  pose proof (duplicate_mask_is_symmetric
                (map pose_of_zpt chain_pts) (zdists chain_pts)
                (dists_of_zpts chain_pts ltac:(discriminate))) as [H1 [H2 _]].
  split; assumption.
Defined.

Lemma list_remove_length (x : nat) (l l' : list nat) :
  list_remove x l = ok l' -> length l = S (length l').
Proof.
  revert l'. induction l as [| y tl IH]; intros l'; simpl; [discriminate |].
  destruct (Nat.eqb y x).
  - intros H. unfold ok in H. now inversion H.
  - intros H. apply bind_ok in H. destruct H as [tl' [Htl H]].
    unfold ok in H. inversion H; subst. simpl. f_equal. now apply IH.
Qed.

Lemma remove_loop_length (pairs : list (nat * nat)) (l out : list nat) :
  remove_loop pairs l = ok out ->
  (length out + length pairs = length l)%nat.
Proof.
  revert l. induction pairs as [| [i x] rest IH]; intros l; simpl.
  - intros H. unfold ok in H. inversion H. lia.
  - intros H. apply bind_ok in H. destruct H as [l' [Hl' H]].
    apply IH in H. apply list_remove_length in Hl'. lia.
Qed.

Lemma seq_increasing (a n : nat) : StronglySorted lt (seq a n).
Proof.
  revert a. induction n as [| n IH]; intros a; simpl; constructor.
  - apply IH.
  - apply Forall_forall. intros x Hx. apply in_seq in Hx. lia.
Qed.

Lemma filter_increasing (f : nat -> bool) (l : list nat) :
  StronglySorted lt l -> StronglySorted lt (filter f l).
Proof.
  induction 1 as [| a l Hl IH Ha]; simpl; [constructor |].
  destruct (f a); [| assumption].
  constructor; [assumption |].
  rewrite Forall_forall in *. intros x Hx. apply filter_In in Hx. now apply Ha.
Qed.

(** X5: when the duplicate filter completes, the indices it keeps are in
    strictly increasing order and start with index 0 (the first pose is
    never removed), and their number is the number of poses minus the
    number of flagged pairs (i, j) with i < j: every such pair costs exactly
    one pose. *)
Theorem kept_indices_are_increasing (Ts : list mat) (out : list nat) :
  remove_duplicates Ts = ok out ->
  exists dists,
    dists_of (translations Ts) = ok dists
    /\ StronglySorted lt out
    /\ hd_error out = Some 0%nat
    /\ (length out
        + length (upper_pairs (argwhere (length Ts) (dup_mask dists)))
        = length Ts)%nat.
Proof.
  intros H. unfold remove_duplicates in H.
  apply bind_ok in H. destruct H as [[] [Hidx H]].
  apply bind_ok in H. destruct H as [dists [Hd H]].
  exists dists. split; [assumption |].
  pose proof (remove_duplicates_mask_complete _ _ _ H) as [_ Hout].
  split; [| split].
  - rewrite Hout. apply filter_increasing, seq_increasing.
  - assert (H0 : In 0%nat out).
    { apply (remove_duplicates_mask_In _ _ _ 0%nat H).
      split; [| intros i Hi; lia].
      destruct Ts; [discriminate | simpl; lia]. }
    assert (Hs : StronglySorted lt out)
      by (rewrite Hout; apply filter_increasing, seq_increasing).
    destruct out as [| a tl]; [contradiction |].
    destruct H0 as [-> | Htl]; [reflexivity |].
    inversion Hs as [| ? ? _ Ha]; subst. rewrite Forall_forall in Ha.
    apply Ha in Htl. lia.
  - unfold remove_duplicates_mask in H. apply remove_loop_length in H.
    now rewrite length_seq in H.
Qed.

Lemma kept_indices_are_increasing_witness :
  exists dists,
    dists_of (translations (map pose_of_zpt chain_pts)) = ok dists
    /\ StronglySorted lt [0; 3]%nat
    /\ hd_error [0; 3]%nat = Some 0%nat
    /\ (length [0; 3]%nat
        + length (upper_pairs (argwhere (length (map pose_of_zpt chain_pts))
                                        (dup_mask dists)))
        = length (map pose_of_zpt chain_pts))%nat.
Proof.
  exact (kept_indices_are_increasing (map pose_of_zpt chain_pts) [0; 3]%nat
                                     chain_filter).
Defined.

(** ** The duplicate filter on finite positions *)

Lemma rflat_In (ps : list pt) (i j : nat) :
  (i < length ps)%nat -> (j < length ps)%nat -> In (rraw ps i j) (rflat ps).
Proof.
  intros Hi Hj. unfold rflat. apply in_flat_map.
  exists i. split; [apply in_seq; lia |]. apply in_map, in_seq. lia.
Qed.

Lemma rmax_dist_ge (ps : list pt) (i j : nat) :
  (i < length ps)%nat -> (j < length ps)%nat -> rraw ps i j <= rmax_dist ps.
Proof.
  intros Hi Hj. pose proof (rflat_In ps i j Hi Hj) as Hin.
  unfold rmax_dist. destruct (rflat ps) as [| x tl]; [contradiction |].
  destruct (fold_Rmax_ge tl x) as [H1 H2].
  destruct Hin as [<- | Hin]; [exact H1 | now apply H2].
Qed.

Lemma rraw_nonneg (ps : list pt) (i j : nat) : 0 <= rraw ps i j.
Proof. unfold rraw, rdist. apply sqrt_pos. Qed.

Lemma np_max_rflat (ps : list pt) :
  ps <> [] ->
  np_max (flatten (length ps) (raw_dists (map vec_of_pt ps)))
  = ok (Fin (rmax_dist ps)).
Proof.
  intros Hne.
  assert (E : flatten (length ps) (raw_dists (map vec_of_pt ps)) =
              map Fin (rflat ps)).
  { unfold flatten, rflat. rewrite map_of_flat_map. apply flat_map_ext_in.
    intros i _. rewrite map_map. apply map_ext. intros j. apply raw_dists_pts. }
  rewrite E. unfold rmax_dist.
  destruct (rflat ps) as [| x tl] eqn:El.
  - exfalso. destruct ps as [| p ps]; [now apply Hne |].
    pose proof (rflat_In (p :: ps) 0 0) as Hin. rewrite El in Hin.
    apply Hin; simpl; lia.
  - simpl. now rewrite fold_maximum_Fin.
Qed.

(** on finite positions the filter runs on the mask [rmask] *)
Lemma remove_duplicates_pts (Ts : list mat) (ps : list pt) :
  Ts <> [] ->
  translations Ts = map vec_of_pt ps ->
  remove_duplicates Ts = remove_duplicates_mask (length Ts) (rmask ps).
Proof.
  intros Hne Hts.
  assert (Hlen : length ps = length Ts).
  { rewrite <- (translations_length Ts), Hts. now rewrite length_map. }
  assert (Hps : ps <> []) by (intros ->; destruct Ts; [contradiction | discriminate]).
  assert (Hd : dists_of (translations Ts)
               = ok (normalize_fill (raw_dists (map vec_of_pt ps)) (Fin (rmax_dist ps)))).
  { rewrite Hts. unfold dists_of. rewrite length_map, np_max_rflat by assumption.
    reflexivity. }
  rewrite (remove_duplicates_unfold Ts _ Hd).
  unfold remove_duplicates_mask. f_equal. f_equal.
  apply argwhere_ext. intros i j _ _.
  unfold rmask, dup_mask, normalize_fill. now rewrite raw_dists_pts.
Qed.

Lemma nth_map_const {A B : Type} (c d : B) (l : list A) (i : nat) :
  (i < length l)%nat -> nth i (map (fun _ => c) l) d = c.
Proof.
  revert i. induction l as [| a l IH]; intros [| i] Hi; simpl in *; try lia.
  - reflexivity.
  - apply IH. lia.
Qed.

Lemma argwhere_none (n : nat) (mask : nat -> nat -> bool) :
  (forall i j, (i < n)%nat -> (j < n)%nat -> mask i j = false) ->
  argwhere n mask = [].
Proof.
  intros H. destruct (argwhere n mask) as [| [i j] tl] eqn:E; [reflexivity |].
  assert (Hin : In (i, j) (argwhere n mask)) by (rewrite E; now left).
  apply argwhere_In in Hin. destruct Hin as [Hi [Hj Hm]].
  rewrite H in Hm by assumption. discriminate.
Qed.

(** X6: when all poses sit at one finite position, the largest distance is
    zero, the normalisation divides zero by zero, every off-diagonal entry
    is NaN and nothing is flagged: the filter keeps every pose, duplicates
    included. *)
Theorem coincident_poses_are_all_kept (Ts : list mat) (p : pt) :
  Ts <> [] ->
  (forall T, In T Ts -> translation_of T = vec_of_pt p) ->
  exists dists,
    dists_of (translations Ts) = ok dists
    /\ (forall i j, (i < length Ts)%nat -> (j < length Ts)%nat -> i <> j ->
                    dists i j = NaN)
    /\ remove_duplicates Ts = ok (seq 0 (length Ts)).
Proof.
  intros Hne Hall.
  set (ps := map (fun _ : mat => p) Ts).
  assert (Hts : translations Ts = map vec_of_pt ps).
  { unfold translations, ps. rewrite map_map. apply map_ext_in. exact Hall. }
  assert (Hlen : length ps = length Ts) by (unfold ps; apply length_map).
  assert (Hps : ps <> []) by (intros E; rewrite E in Hlen; destruct Ts;
                              [contradiction | discriminate]).
  assert (Hraw : forall i j, (i < length Ts)%nat -> (j < length Ts)%nat ->
                             rraw ps i j = 0).
  { intros i j Hi Hj. unfold rraw, ps.
    rewrite !nth_map_const by assumption. apply rdist_refl. }
  assert (Hmax : rmax_dist ps = 0).
  { unfold rmax_dist. pose proof (fun i j Hi Hj => rflat_In ps i j Hi Hj) as Hin.
    assert (Hz : forall x, In x (rflat ps) -> x = 0).
    { intros x Hx. unfold rflat in Hx. apply in_flat_map in Hx.
      destruct Hx as [i [Hi Hx]]. apply in_map_iff in Hx.
      destruct Hx as [j [<- Hj]]. apply in_seq in Hi, Hj.
      apply Hraw; lia. }
    destruct (rflat ps) as [| x tl]; [reflexivity |].
    assert (Hx : x = 0) by (apply Hz; now left).
    assert (Htl : forall y, In y tl -> y = 0) by (intros y Hy; apply Hz; now right).
    clear Hz Hin. subst x. induction tl as [| y tl IH]; [reflexivity |].
    simpl. rewrite (Htl y) by now left.
    rewrite Rmax_left by lra. apply IH. intros z Hz. apply Htl. now right. }
  eexists. split; [| split].
  - rewrite Hts. unfold dists_of. rewrite length_map, np_max_rflat by assumption.
    reflexivity.
  - intros i j Hi Hj Hij. unfold normalize_fill.
    apply Nat.eqb_neq in Hij. rewrite Hij, raw_dists_pts, Hraw, Hmax by assumption.
    simpl. now rewrite Reqb_true.
  - rewrite (remove_duplicates_pts Ts ps Hne Hts).
    unfold remove_duplicates_mask. rewrite argwhere_none; [reflexivity |].
    intros i j Hi Hj. unfold rmask, dup_mask, normalize_fill.
    destruct (Nat.eqb i j) eqn:Hij; [apply threshold_below_one |].
    rewrite Hraw, Hmax by assumption. simpl. now rewrite Reqb_true.
Qed.

Lemma coincident_poses_are_all_kept_witness :
  remove_duplicates [lift cam_c; lift cam_c; lift cam_c] = ok [0; 1; 2]%nat.
Proof.
  destruct (coincident_poses_are_all_kept
              [lift cam_c; lift cam_c; lift cam_c] (- 2, - 1, 1))
    as [dists [_ [_ H]]].
  - discriminate.
  - intros T [<- | [<- | [<- | []]]]; reflexivity.
  - exact H.
Defined.

(** ** Distances under a similarity *)

Lemma fold_Rmax_scale (k : R) (l : list R) (x : R) :
  0 <= k ->
  fold_left Rmax (map (Rmult k) l) (k * x) = k * fold_left Rmax l x.
Proof.
  intros Hk. revert x. induction l as [| y l IH]; intros x; simpl; [reflexivity |].
  rewrite RmaxRmult by assumption. apply IH.
Qed.

Lemma rflat_scaled (k : R) (ps ps' : list pt) :
  length ps' = length ps ->
  (forall i j, (i < length ps)%nat -> (j < length ps)%nat ->
               rraw ps' i j = k * rraw ps i j) ->
  rflat ps' = map (Rmult k) (rflat ps).
Proof.
  intros Hlen H. unfold rflat. rewrite Hlen, map_of_flat_map.
  apply flat_map_ext_in. intros i Hi. rewrite map_map.
  apply map_ext_in. intros j Hj. apply in_seq in Hi, Hj. apply H; lia.
Qed.

Lemma rmax_dist_scaled (k : R) (ps ps' : list pt) :
  0 <= k ->
  length ps' = length ps ->
  (forall i j, (i < length ps)%nat -> (j < length ps)%nat ->
               rraw ps' i j = k * rraw ps i j) ->
  rmax_dist ps' = k * rmax_dist ps.
Proof.
  intros Hk Hlen H. unfold rmax_dist. rewrite (rflat_scaled k ps ps' Hlen H).
  destruct (rflat ps) as [| x tl]; simpl; [ring |].
  now apply fold_Rmax_scale.
Qed.

Lemma rmask_scaled (k : R) (ps ps' : list pt) (i j : nat) :
  0 < k ->
  length ps' = length ps ->
  (forall i j, (i < length ps)%nat -> (j < length ps)%nat ->
               rraw ps' i j = k * rraw ps i j) ->
  (i < length ps)%nat -> (j < length ps)%nat ->
  rmask ps' i j = rmask ps i j.
Proof.
  intros Hk Hlen H Hi Hj. unfold rmask, dup_mask, normalize_fill.
  destruct (Nat.eqb i j); [reflexivity |].
  rewrite (rmax_dist_scaled k ps ps') by (assumption || lra).
  rewrite H by assumption.
  pose proof (rmax_dist_ge ps i j Hi Hj) as Hle.
  pose proof (rraw_nonneg ps i j) as Hpos.
  destruct (Req_dec_T (rmax_dist ps) 0) as [Hz | Hnz].
  - assert (Hd : rraw ps i j = 0) by lra. rewrite Hz, Hd.
    replace (k * 0) with 0 by ring. reflexivity.
  - rewrite !np_div_Fin by nra. do 2 f_equal. field. split; lra.
Qed.

Lemma rdist_similar (s : R) (Rm : rmat) (tv p q : pt) :
  0 <= s ->
  (forall i j, (i < 3)%nat -> (j < 3)%nat -> mul3 (transpose Rm) Rm i j = kron i j) ->
  rdist (similar_pt s Rm tv p) (similar_pt s Rm tv q) = s * rdist p q.
Proof.
  intros Hs Ho.
  pose proof (Ho 0%nat 0%nat ltac:(lia) ltac:(lia)) as H00.
  pose proof (Ho 0%nat 1%nat ltac:(lia) ltac:(lia)) as H01.
  pose proof (Ho 0%nat 2%nat ltac:(lia) ltac:(lia)) as H02.
  pose proof (Ho 1%nat 1%nat ltac:(lia) ltac:(lia)) as H11.
  pose proof (Ho 1%nat 2%nat ltac:(lia) ltac:(lia)) as H12.
  pose proof (Ho 2%nat 2%nat ltac:(lia) ltac:(lia)) as H22.
  unfold mul3, transpose, kron in *. simpl in *.
  destruct p as [[x y] z], q as [[x' y'] z'].
  unfold rdist, similar_pt. cbn [fst snd].
  rewrite <- sqrt_scale.
  - f_equal.
    set (a00 := Rm 0%nat 0%nat) in *. set (a01 := Rm 0%nat 1%nat) in *.
    set (a02 := Rm 0%nat 2%nat) in *. set (a10 := Rm 1%nat 0%nat) in *.
    set (a11 := Rm 1%nat 1%nat) in *. set (a12 := Rm 1%nat 2%nat) in *.
    set (a20 := Rm 2%nat 0%nat) in *. set (a21 := Rm 2%nat 1%nat) in *.
    set (a22 := Rm 2%nat 2%nat) in *.
    set (u := x - x'). set (v := y - y'). set (w := z - z').
    transitivity
      (s * s *
       (u * u * (a00 * a00 + a10 * a10 + a20 * a20)
        + v * v * (a01 * a01 + a11 * a11 + a21 * a21)
        + w * w * (a02 * a02 + a12 * a12 + a22 * a22)
        + 2 * u * v * (a00 * a01 + a10 * a11 + a20 * a21)
        + 2 * u * w * (a00 * a02 + a10 * a12 + a20 * a22)
        + 2 * v * w * (a01 * a02 + a11 * a12 + a21 * a22))).
    + unfold u, v, w. ring.
    + rewrite H00, H01, H02, H11, H12, H22. unfold u, v, w. ring.
  - assumption.
  - pose proof (diff_sq_nonneg x x'). pose proof (diff_sq_nonneg y y').
    pose proof (diff_sq_nonneg z z'). lra.
Qed.

Lemma translation_of_similar (s : R) (Rm P : rmat) (tv : pt) :
  P 3%nat 3%nat = 1 ->
  translation_of (matmul (assemble_T (scale_mat s (lift Rm)) (vec_of_pt tv)) (lift P))
  = vec_of_pt (similar_pt s Rm tv (position P)).
Proof.
  intros H33. unfold translation_of.
  rewrite !matmul_assemble_lift by lia.
  unfold vec_of_pt at 1, similar_pt, position. cbn [fst snd pt_nth].
  unfold mul3. rewrite H33.
  repeat (f_equal; try ring).
Qed.

(** the duplicate filter depends on the positions only through the ratios
    of their distances *)
Lemma remove_duplicates_scaled (k : R) (Ts Ts' : list mat) (ps ps' : list pt) :
  0 < k ->
  Ts <> [] ->
  translations Ts = map vec_of_pt ps ->
  translations Ts' = map vec_of_pt ps' ->
  length ps' = length ps ->
  (forall i j, (i < length ps)%nat -> (j < length ps)%nat ->
               rraw ps' i j = k * rraw ps i j) ->
  remove_duplicates Ts' = remove_duplicates Ts.
Proof.
  intros Hk Hne Hts Hts' Hlen Hraw.
  assert (Hn : length ps = length Ts).
  { rewrite <- (translations_length Ts), Hts. now rewrite length_map. }
  assert (Hn' : length Ts' = length Ts).
  { rewrite <- (translations_length Ts'), Hts', length_map. congruence. }
  assert (Hne' : Ts' <> []).
  { intros E. rewrite E in Hn'. destruct Ts; [contradiction | discriminate]. }
  rewrite (remove_duplicates_pts Ts' ps' Hne' Hts').
  rewrite (remove_duplicates_pts Ts ps Hne Hts).
  rewrite Hn'. unfold remove_duplicates_mask. f_equal. f_equal.
  apply argwhere_ext. intros i j Hi Hj.
  apply (rmask_scaled k); (assumption || lia).
Qed.

(** X7: the canonicalising similarity does not change which poses are
    duplicates.  For a positive scale s and an orthogonal R, cell 10 turns
    every distance between two camera positions into s times itself, the
    normalisation of cell 8 cancels the factor, and the duplicate filter of
    cells 8 and 9 gives on the transformed Pose Set the result it gives on
    the original one. *)
Theorem similarity_keeps_duplicate_filter
        (s : R) (Rm : rmat) (tv : pt) (Ps : list rmat) :
  0 < s ->
  (forall i j, (i < 3)%nat -> (j < 3)%nat -> mul3 (transpose Rm) Rm i j = kron i j) ->
  Ps <> [] ->
  (forall P, In P Ps -> is_pose P) ->
  exists new_Ts,
    cell10 (scale_mat s (lift Rm)) (vec_of_pt tv) (map lift Ps) = ok new_Ts
    /\ (forall a b, (a < length Ps)%nat -> (b < length Ps)%nat ->
          raw_dists (translations new_Ts) a b
          = np_mul (Fin s) (raw_dists (translations (map lift Ps)) a b))
    /\ remove_duplicates new_Ts = remove_duplicates (map lift Ps).
Proof.
  intros Hs Ho Hne Hpose.
  set (T := assemble_T (scale_mat s (lift Rm)) (vec_of_pt tv)).
  exists (map (matmul T) (map lift Ps)).
  set (ps := map position Ps).
  set (ps' := map (fun P => similar_pt s Rm tv (position P)) Ps).
  assert (Hts : translations (map lift Ps) = map vec_of_pt ps).
  { unfold translations, ps. rewrite !map_map. reflexivity. }
  assert (Hts' : translations (map (matmul T) (map lift Ps)) = map vec_of_pt ps').
  { unfold translations, ps'. rewrite !map_map. apply map_ext_in. intros P HP.
    apply translation_of_similar. now destruct (Hpose P HP) as [_ [_ [_ H33]]]. }
  assert (Hlen : length ps = length Ps) by apply length_map.
  assert (Hlen' : length ps' = length ps) by (unfold ps', ps; now rewrite !length_map).
  assert (Hraw : forall a b, (a < length ps)%nat -> (b < length ps)%nat ->
                             rraw ps' a b = s * rraw ps a b).
  { intros a b Ha Hb. unfold rraw, ps', ps.
    rewrite !(nth_map_in _ Ps _ pt_0 identity4) by lia.
    apply rdist_similar; [lra | assumption]. }
  split; [| split].
  - unfold cell10. destruct Ps; [contradiction | reflexivity].
  - intros a b Ha Hb. rewrite Hts, Hts', !raw_dists_pts.
    rewrite Hraw by lia. reflexivity.
  - apply (remove_duplicates_scaled s _ _ ps ps'); try assumption.
    destruct Ps; [contradiction | discriminate].
Qed.

Lemma similarity_keeps_duplicate_filter_witness :
  exists new_Ts,
    cell10 (scale_mat 2 (lift turn_z)) (vec_of_pt (1, 2, 3))
           (map lift [cam_a; cam_b; cam_c; cam_d]) = ok new_Ts
    /\ remove_duplicates new_Ts
       = remove_duplicates (map lift [cam_a; cam_b; cam_c; cam_d]).
Proof.
  destruct (similarity_keeps_duplicate_filter
              2 turn_z (1, 2, 3) [cam_a; cam_b; cam_c; cam_d])
    as [new_Ts [H1 [_ H2]]].
  - lra.
  - intros i j Hi Hj.
    destruct i as [| [| [| i]]]; destruct j as [| [| [| j]]]; try lia;
      unfold mul3, transpose, kron, turn_z, rmat_of_rows; simpl; ring.
  - discriminate.
  - intros P [<- | [<- | [<- | [<- | []]]]]; repeat split; reflexivity.
  - exists new_Ts. split; assumption.
Defined.

(** ** Cell 10: the product on finite matrices *)

Lemma assemble_T_lift (M : rmat) (tv : pt) (i j : nat) :
  assemble_T (lift M) (vec_of_pt tv) i j = Fin (assemble_r M tv i j).
Proof.
  unfold assemble_T, assemble_r, lift, zeros.
  destruct (Nat.eqb i 3 && Nat.eqb j 3); [reflexivity |].
  destruct (Nat.ltb i 3 && Nat.eqb j 3); [apply vec_nth_pt |].
  destruct (Nat.ltb i 3 && Nat.ltb j 3); reflexivity.
Qed.

Lemma matmul_Fin (A B : mat) (a b : rmat) (i j : nat) :
  (forall k, A i k = Fin (a i k)) ->
  (forall k, B k j = Fin (b k j)) ->
  matmul A B i j = Fin (mul4 a b i j).
Proof.
  intros HA HB. unfold matmul, np_sum, mul4. simpl.
  rewrite !HA, !HB. simpl. f_equal. ring.
Qed.

Lemma matmul_assemble_Fin (M : rmat) (tv : pt) (B : mat) (b : rmat) (i j : nat) :
  (forall k, B k j = Fin (b k j)) ->
  matmul (assemble_T (lift M) (vec_of_pt tv)) B i j
  = Fin (mul4 (assemble_r M tv) b i j).
Proof.
  intros HB. apply matmul_Fin; [| exact HB].
  intros k. apply assemble_T_lift.
Qed.

(** X8: cell 10 needs at least one pose (the product of a 4x4 matrix and an
    empty array raises [ValueError]); on a non-empty Pose Set of finite
    matrices it returns as many poses as it was given, and the bottom row of
    every pose is left as it was, whatever the block [sR] and the offset [t]
    (even non-finite ones), because the bottom row of [T] is always
    [0, 0, 0, 1]: a pose with bottom row [0, 0, 0, 1] keeps it. *)
Theorem transform_keeps_bottom_row (sR : mat) (t : vec3) (Ps : list rmat) :
  (Ps = [] -> cell10 sR t (map lift Ps) = raise ValueError)
  /\ (Ps <> [] ->
      exists new_Ts,
        cell10 sR t (map lift Ps) = ok new_Ts
        /\ length new_Ts = length Ps
        /\ (forall n j, (n < length Ps)%nat ->
              nth n new_Ts zeros 3%nat j = Fin (nth n Ps identity4 3%nat j))).
Proof.
  split.
  - intros ->. reflexivity.
  - intros Hne. exists (map (matmul (assemble_T sR t)) (map lift Ps)).
    split; [destruct Ps; [contradiction | reflexivity] |].
    split; [now rewrite !length_map |].
    intros n j Hn. rewrite map_map.
    rewrite (nth_map_in _ Ps n zeros identity4) by assumption.
    unfold matmul, np_sum, assemble_T, lift, zeros. simpl.
    f_equal. ring.
Qed.

Lemma transform_keeps_bottom_row_witness :
  exists new_Ts,
    cell10 (scale_mat 2 (lift turn_z)) (vec_of_pt (1, 2, 3))
           (map lift [cam_a; cam_b]) = ok new_Ts
    /\ length new_Ts = 2%nat
    /\ (forall n j, (n < 2)%nat ->
          nth n new_Ts zeros 3%nat j = Fin (nth n [cam_a; cam_b] identity4 3%nat j)).
Proof.
  apply (proj2 (transform_keeps_bottom_row
                  (scale_mat 2 (lift turn_z)) (vec_of_pt (1, 2, 3))
                  [cam_a; cam_b])).
  discriminate.
Defined.

(** X9: two successive runs of cell 10 compose as similarities do.  On
    finite matrices, applying (M1, t1) and then (M2, t2) gives, entry by
    entry, the Pose Set that one run with the block M2.M1 and the offset
    M2.t1 + t2 gives. *)
Theorem transforms_compose (M1 M2 : rmat) (t1 t2 : pt) (Ps : list rmat) :
  Ps <> [] ->
  exists Ts1 Ts2 Ts12,
    cell10 (lift M1) (vec_of_pt t1) (map lift Ps) = ok Ts1
    /\ cell10 (lift M2) (vec_of_pt t2) Ts1 = ok Ts2
    /\ cell10 (lift (mul3 M2 M1)) (vec_of_pt (similar_pt 1 M2 t2 t1)) (map lift Ps)
       = ok Ts12
    /\ length Ts2 = length Ps
    /\ length Ts12 = length Ps
    /\ forall n i j, nth n Ts2 zeros i j = nth n Ts12 zeros i j.
Proof.
  intros Hne.
  set (T1 := assemble_T (lift M1) (vec_of_pt t1)).
  set (T2 := assemble_T (lift M2) (vec_of_pt t2)).
  set (T12 := assemble_T (lift (mul3 M2 M1)) (vec_of_pt (similar_pt 1 M2 t2 t1))).
  exists (map (matmul T1) (map lift Ps)),
         (map (matmul T2) (map (matmul T1) (map lift Ps))),
         (map (matmul T12) (map lift Ps)).
  split; [destruct Ps; [contradiction | reflexivity] |].
  split; [destruct Ps; [contradiction | reflexivity] |].
  split; [destruct Ps; [contradiction | reflexivity] |].
  split; [now rewrite !length_map |].
  split; [now rewrite !length_map |].
  intros n i j. rewrite !map_map.
  destruct (Nat.lt_ge_cases n (length Ps)) as [Hn | Hn].
  - rewrite (nth_map_in _ Ps n zeros identity4) by assumption.
    rewrite (nth_map_in _ Ps n zeros identity4) by assumption.
    set (P := nth n Ps identity4).
    unfold T2, T1, T12.
    rewrite (matmul_assemble_Fin M2 t2 _ (mul4 (assemble_r M1 t1) P))
      by (intros k; now apply matmul_assemble_Fin).
    rewrite (matmul_assemble_Fin _ _ _ P) by reflexivity.
    f_equal. unfold mul4, assemble_r, similar_pt, mul3.
    destruct i as [| [| [| [| i]]]]; simpl; ring.
  - rewrite !nth_overflow by (rewrite length_map; lia). reflexivity.
Qed.

Lemma transforms_compose_witness :
  exists Ts1 Ts2 Ts12,
    cell10 (lift turn_z) (vec_of_pt (1, 2, 3)) (map lift [cam_a; cam_b]) = ok Ts1
    /\ cell10 (lift turn_z) (vec_of_pt (0, 0, 1)) Ts1 = ok Ts2
    /\ cell10 (lift (mul3 turn_z turn_z))
              (vec_of_pt (similar_pt 1 turn_z (0, 0, 1) (1, 2, 3)))
              (map lift [cam_a; cam_b]) = ok Ts12
    /\ forall n i j, nth n Ts2 zeros i j = nth n Ts12 zeros i j.
Proof.
  destruct (transforms_compose turn_z turn_z (1, 2, 3) (0, 0, 1) [cam_a; cam_b])
    as [Ts1 [Ts2 [Ts12 [H1 [H2 [H3 [_ [_ H4]]]]]]]].
  - discriminate.
  - exists Ts1, Ts2, Ts12. repeat split; assumption.
Defined.

(** ** Cell 17 on matrices with finite entries *)

Lemma height_ratios_reads (T : mat) (P : rmat) :
  reads_as T P -> height_ratios T = height_ratios (lift P).
Proof.
  intros H. unfold height_ratios, ray_dir_of, translation_of, vx, vy, vz, lift.
  cbn [fst snd]. now rewrite !H.
Qed.

Lemma camera_height_reads (T : mat) (P : rmat) :
  reads_as T P -> camera_height T = camera_height (lift P).
Proof.
  intros H. unfold camera_height. rewrite (height_ratios_reads T P H).
  unfold ray_dir_of, translation_of, vx, vy, vz, lift. cbn [fst snd].
  now rewrite !H.
Qed.

Lemma reads_as_lift (Ps : list rmat) : Forall2 reads_as (map lift Ps) Ps.
Proof. induction Ps; simpl; constructor; [intros i j; reflexivity | assumption]. Qed.

Lemma reads_as_shift (z : R) (T : mat) (P : rmat) :
  reads_as T P -> reads_as (recenter_z (Fin z) T) (shift_z z P).
Proof.
  intros H i j. unfold recenter_z, shift_z.
  destruct (Nat.eqb i 2 && Nat.eqb j 3); [| apply H].
  rewrite H. reflexivity.
Qed.

Lemma reads_as_scale (s : R) (T : mat) (P : rmat) :
  reads_as T P -> reads_as (rescale_pose s T) (scale_t s P).
Proof.
  intros H i j. unfold rescale_pose, scale_t.
  destruct (Nat.ltb i 3 && Nat.eqb j 3); [| apply H].
  rewrite H. reflexivity.
Qed.

Lemma reads_as_map (f : mat -> mat) (g : rmat -> rmat) (Ts : list mat)
      (Ps : list rmat) :
  (forall T P, reads_as T P -> reads_as (f T) (g P)) ->
  Forall2 reads_as Ts Ps -> Forall2 reads_as (map f Ts) (map g Ps).
Proof. intros H. induction 1; simpl; constructor; auto. Qed.

Lemma np_mean_Fin (l : list R) :
  l <> [] -> np_mean (map Fin l) = Fin (mean_r l).
Proof.
  intros Hne. unfold np_mean, np_sum, mean_r.
  rewrite fold_add_Fin, length_map.
  apply np_div_Fin. apply not_0_INR. destruct l; [contradiction | discriminate].
Qed.

Lemma fold_plus_acc (l : list R) (acc : R) :
  fold_left Rplus l acc = acc + fold_left Rplus l 0.
Proof.
  revert acc. induction l as [| a l IH]; intros acc; simpl; [ring |].
  rewrite (IH (acc + a)), (IH (0 + a)). ring.
Qed.

Lemma mean_r_shift (z : R) (l : list R) :
  l <> [] -> mean_r (map (fun h => h - z) l) = mean_r l - z.
Proof.
  intros Hne. unfold mean_r. rewrite length_map.
  assert (Hn : INR (length l) <> 0)
    by (apply not_0_INR; destruct l; [contradiction | discriminate]).
  assert (E : fold_left Rplus (map (fun h => h - z) l) 0
              = fold_left Rplus l 0 - INR (length l) * z).
  { clear. induction l as [| a l IH]; [simpl; ring |].
    cbn [map fold_left]. rewrite (fold_plus_acc _ (0 + (a - z))), IH.
    rewrite (fold_plus_acc l (0 + a)).
    replace (INR (length (a :: l))) with (INR (length l) + 1)
      by (cbn [length]; now rewrite S_INR).
    ring. }
  rewrite E. now field.
Qed.

Lemma mean_r_scale (s : R) (l : list R) :
  l <> [] -> mean_r (map (fun h => h * s) l) = mean_r l * s.
Proof.
  intros Hne. unfold mean_r. rewrite length_map.
  assert (Hn : INR (length l) <> 0)
    by (apply not_0_INR; destruct l; [contradiction | discriminate]).
  assert (E : fold_left Rplus (map (fun h => h * s) l) 0
              = fold_left Rplus l 0 * s).
  { clear. induction l as [| a l IH]; [simpl; ring |].
    cbn [map fold_left]. rewrite (fold_plus_acc _ (0 + a * s)), IH.
    rewrite (fold_plus_acc l (0 + a)). ring. }
  rewrite E. now field.
Qed.

(** cell 17 on regular cameras: it completes, and its height is the mean of
    the per-camera heights *)
Lemma cell17_regular (Ts : list mat) (Ps : list rmat) :
  Ps <> [] ->
  Forall2 reads_as Ts Ps ->
  (forall P, In P Ps -> regular P) ->
  cell17 Ts = ok (Fin (mean_r (map height_r Ps)),
                  map (recenter_z (Fin (mean_r (map height_r Ps)))) Ts).
Proof.
  intros Hne HF Hreg.
  assert (Hratios : map height_ratios Ts = map height_ratios (map lift Ps)).
  { clear Hne Hreg. induction HF as [| T P Ts Ps HTP _ IH]; [reflexivity |].
    simpl. now rewrite (height_ratios_reads T P HTP), IH. }
  assert (Hheights : per_camera_heights Ts = map Fin (map height_r Ps)).
  { unfold per_camera_heights. clear Hne Hratios.
    induction HF as [| T P Ts Ps HTP _ IH]; [reflexivity |].
    simpl. rewrite (camera_height_reads T P HTP).
    rewrite camera_height_regular by (apply Hreg; now left).
    f_equal. apply IH. intros Q HQ. apply Hreg. now right. }
  unfold cell17.
  replace (index_poses Ts) with (@ok unit tt)
    by (inversion HF; subst; [contradiction | reflexivity]).
  cbn [bind ok]. rewrite Hratios.
  rewrite allclose_regular_or_vertical by (intros P HP; left; now apply Hreg).
  cbn [bind ok]. rewrite Hheights.
  rewrite np_mean_Fin by (destruct Ps; [contradiction | discriminate]).
  reflexivity.
Qed.

Lemma height_r_shift (z : R) (P : rmat) : height_r (shift_z z P) = height_r P - z.
Proof. unfold height_r, ray_abscissa, shift_z. simpl. ring. Qed.

Lemma height_r_scale (s : R) (P : rmat) : height_r (scale_t s P) = height_r P * s.
Proof. unfold height_r, ray_abscissa, scale_t. simpl. unfold Rdiv. ring. Qed.

Lemma half_horizontal_ratios (P : rmat) :
  half_horizontal P ->
  allclose_entry (fst (height_ratios (lift P))) (snd (height_ratios (lift P))) = false.
Proof.
  unfold height_ratios, ray_dir_of, translation_of, lift, vx, vy, vz.
  cbn [fst snd np_neg np_mul np_add np_square].
  intros [[H0 H1] | [H0 H1]].
  - rewrite H0.
    assert (Hden : 0 * 0 + P 1%nat 2%nat * P 1%nat 2%nat <> 0) by nra.
    rewrite !(np_div_Fin _ (0 * 0 + P 1%nat 2%nat * P 1%nat 2%nat)) by assumption.
    rewrite (np_div_Fin _ (P 1%nat 2%nat)) by assumption.
    unfold np_div. rewrite (Reqb_true 0 0) by reflexivity.
    rewrite Reqb_true by (unfold Rdiv; ring). reflexivity.
  - rewrite H1.
    assert (Hden : P 0%nat 2%nat * P 0%nat 2%nat + 0 * 0 <> 0) by nra.
    rewrite !(np_div_Fin _ (P 0%nat 2%nat * P 0%nat 2%nat + 0 * 0)) by assumption.
    rewrite (np_div_Fin _ (P 0%nat 2%nat)) by assumption.
    unfold np_div. rewrite (Reqb_true 0 0) by reflexivity.
    rewrite Reqb_true by (unfold Rdiv; ring). reflexivity.
Qed.

Lemma regular_vertical_or_half (P : rmat) :
  regular P \/ vertical P \/ half_horizontal P.
Proof.
  unfold regular, vertical, half_horizontal.
  destruct (Req_dec_T (P 0%nat 2%nat) 0), (Req_dec_T (P 1%nat 2%nat) 0); tauto.
Qed.

(** X10: on a non-empty Pose Set of finite matrices, the projection check of
    cell 17 fails, with [AssertionError], exactly when some camera has
    exactly one of its two horizontal ray components equal to zero (one ratio
    is then 0/0 = NaN and the other finite); in every other case cell 17
    completes. *)
Theorem projection_check_fails_iff (Ps : list rmat) :
  Ps <> [] ->
  (cell17 (map lift Ps) = raise AssertionError
   <-> exists P, In P Ps /\ half_horizontal P)
  /\ ((forall P, In P Ps -> ~ half_horizontal P) ->
      exists z new_Ts, cell17 (map lift Ps) = ok (z, new_Ts)).
Proof.
  intros Hne.
  assert (Hok : (forall P, In P Ps -> ~ half_horizontal P) ->
                exists z new_Ts, cell17 (map lift Ps) = ok (z, new_Ts)).
  { intros Hno. rewrite cell17_unfold; [eauto | assumption |].
    intros P HP. destruct (regular_vertical_or_half P) as [H | [H | H]];
      [now left | now right | exfalso; now apply (Hno P)]. }
  split; [| exact Hok].
  split.
  - intros Hfail.
    assert (Hdec : forall P, half_horizontal P \/ ~ half_horizontal P).
    { intros P. unfold half_horizontal.
      destruct (Req_dec_T (P 0%nat 2%nat) 0), (Req_dec_T (P 1%nat 2%nat) 0); tauto. }
    assert (Hex : forall l : list rmat,
               (exists P, In P l /\ half_horizontal P)
               \/ (forall P, In P l -> ~ half_horizontal P)).
    { induction l as [| Q l [[P [HP Hh]] | IH]].
      - right. intros P [].
      - left. exists P. split; [now right | assumption].
      - destruct (Hdec Q) as [HQ | HQ].
        + left. exists Q. split; [now left | assumption].
        + right. intros P [<- | HP]; [assumption | now apply IH]. }
    destruct (Hex Ps) as [H | H]; [assumption |].
    destruct (Hok H) as [z [new_Ts E]]. rewrite E in Hfail. discriminate.
  - intros [P [HP Hh]]. unfold cell17.
    replace (index_poses (map lift Ps)) with (@ok unit tt)
      by (destruct Ps; [contradiction | reflexivity]).
    cbn [bind ok]. unfold assert_allclose.
    replace (forallb (fun p => allclose_entry (fst p) (snd p))
                     (map height_ratios (map lift Ps))) with false; [reflexivity |].
    symmetry. apply not_true_is_false. intros Hall.
    rewrite forallb_forall in Hall.
    specialize (Hall (height_ratios (lift P))).
    rewrite half_horizontal_ratios in Hall by assumption.
    apply Bool.diff_false_true, Hall.
    apply in_map, in_map, HP.
Qed.

Lemma projection_check_fails_iff_witness :
  cell17 (map lift [cam_c; cam_y]) = raise AssertionError.
Proof.
  apply (proj1 (projection_check_fails_iff [cam_c; cam_y] ltac:(discriminate))).
  exists cam_y. split; [right; now left |].
  left. unfold cam_y, rmat_of_rows. simpl. split; [reflexivity | lra].
Defined.

(** X11: cell 17 centres the subject.  On a non-empty Pose Set of finite
    regular cameras, a second run of cell 17 on the re-centred Pose Set
    finds the height 0 and changes no entry: shifting every camera by z
    shifts every per-camera height, hence their mean, by z. *)
Theorem recentred_height_is_zero (Ps : list rmat) :
  Ps <> [] ->
  (forall P, In P Ps -> regular P) ->
  exists z Ts1 Ts2,
    cell17 (map lift Ps) = ok (Fin z, Ts1)
    /\ cell17 Ts1 = ok (Fin 0, Ts2)
    /\ length Ts2 = length Ps
    /\ forall n i j, nth n Ts2 zeros i j = nth n Ts1 zeros i j.
Proof.
  intros Hne Hreg.
  set (z := mean_r (map height_r Ps)).
  set (Ts1 := map (recenter_z (Fin z)) (map lift Ps)).
  assert (H1 : cell17 (map lift Ps) = ok (Fin z, Ts1))
    by (apply cell17_regular; [assumption | apply reads_as_lift | assumption]).
  assert (HF : Forall2 reads_as Ts1 (map (shift_z z) Ps)).
  { unfold Ts1. apply reads_as_map; [apply reads_as_shift | apply reads_as_lift]. }
  assert (H2 : cell17 Ts1 = ok (Fin 0, map (recenter_z (Fin 0)) Ts1)).
  { rewrite (cell17_regular Ts1 (map (shift_z z) Ps)).
    - assert (E : mean_r (map height_r (map (shift_z z) Ps)) = 0).
      { rewrite map_map.
        rewrite (map_ext _ (fun P => height_r P - z)) by (intros P; apply height_r_shift).
        rewrite <- (map_map height_r (fun h => h - z)).
        rewrite mean_r_shift by (destruct Ps; [contradiction | discriminate]).
        unfold z. ring. }
      now rewrite E.
    - destruct Ps; [contradiction | discriminate].
    - exact HF.
    - intros P HP. apply in_map_iff in HP. destruct HP as [Q [<- HQ]].
      exact (Hreg Q HQ). }
  exists z, Ts1, (map (recenter_z (Fin 0)) Ts1).
  split; [exact H1 |]. split; [exact H2 |].
  split; [unfold Ts1; now rewrite !length_map |].
  intros n i j.
  destruct (Nat.lt_ge_cases n (length Ts1)) as [Hn | Hn].
  - rewrite (nth_map_in _ Ts1 n zeros zeros) by assumption.
    unfold recenter_z at 1.
    destruct (Nat.eqb i 2 && Nat.eqb j 3) eqn:Hij; [| reflexivity].
    unfold Ts1 in *. rewrite length_map in Hn.
    rewrite (nth_map_in _ (map lift Ps) n zeros zeros) by assumption.
    apply andb_true_iff in Hij. destruct Hij as [Hi Hj].
    apply Nat.eqb_eq in Hi, Hj. subst i j.
    rewrite length_map in Hn.
    rewrite (nth_map_in _ Ps n zeros identity4) by assumption.
    unfold recenter_z, lift. simpl. f_equal. ring.
  - rewrite !nth_overflow by (rewrite ?length_map; lia). reflexivity.
Qed.

Lemma recentred_height_is_zero_witness :
  exists z Ts1 Ts2,
    cell17 (map lift [cam_a; cam_b; cam_c]) = ok (Fin z, Ts1)
    /\ cell17 Ts1 = ok (Fin 0, Ts2)
    /\ forall n i j, nth n Ts2 zeros i j = nth n Ts1 zeros i j.
Proof.
  destruct (recentred_height_is_zero [cam_a; cam_b; cam_c])
    as [z [Ts1 [Ts2 [H1 [H2 [_ H3]]]]]].
  - discriminate.
  - intros P [<- | [<- | [<- | []]]];
      [apply cam_a_regular | apply cam_b_regular | apply cam_c_regular].
  - exists z, Ts1, Ts2. repeat split; assumption.
Defined.

(** X12: the rescale of cell 20 keeps the subject centred.  On a non-empty
    Pose Set of finite regular cameras, rescaling the translations by s
    multiplies the height found by cell 17 by s; so in the order of the
    notebook (cell 17, then cell 20) a further run of cell 17 on the rescaled
    Pose Set finds the height 0. *)
Theorem rescale_keeps_subject_centred (fx fy cx cy s : R) (Ps : list rmat) :
  Ps <> [] ->
  (forall P, In P Ps -> regular P) ->
  scale_factor fx fy cx cy = ok s ->
  exists z Ts1 Ts2 Ts3,
    cell17 (map lift Ps) = ok (Fin z, Ts1)
    /\ cell20 fx fy cx cy Ts1 = ok Ts2
    /\ cell17 Ts2 = ok (Fin 0, Ts3)
    /\ exists Ts4 Ts5,
        cell20 fx fy cx cy (map lift Ps) = ok Ts4
        /\ cell17 Ts4 = ok (Fin (z * s), Ts5).
Proof.
  intros Hne Hreg Hs.
  assert (Hne' : map height_r Ps <> [])
    by (destruct Ps; [contradiction | discriminate]).
  set (z := mean_r (map height_r Ps)).
  set (Ts1 := map (recenter_z (Fin z)) (map lift Ps)).
  assert (Hscaled : forall Qs : list rmat,
             map height_r (map (scale_t s) Qs)
             = map (fun h => h * s) (map height_r Qs)).
  { intros Qs. rewrite !map_map. apply map_ext. intros Q. apply height_r_scale. }
  assert (Hreg_scale : forall Qs : list rmat,
             (forall Q, In Q Qs -> regular Q) ->
             forall Q, In Q (map (scale_t s) Qs) -> regular Q).
  { intros Qs HQs Q HQ. apply in_map_iff in HQ. destruct HQ as [Q' [<- HQ']].
    exact (HQs Q' HQ'). }
  assert (Hreg_shift : forall Q, In Q (map (shift_z z) Ps) -> regular Q).
  { intros Q HQ. apply in_map_iff in HQ. destruct HQ as [Q' [<- HQ']].
    exact (Hreg Q' HQ'). }
  exists z, Ts1, (map (rescale_pose s) Ts1),
         (map (recenter_z (Fin 0)) (map (rescale_pose s) Ts1)).
  split; [| split; [| split]].
  - apply cell17_regular; [assumption | apply reads_as_lift | assumption].
  - unfold cell20. rewrite Hs. reflexivity.
  - rewrite (cell17_regular _ (map (scale_t s) (map (shift_z z) Ps))).
    + assert (E : mean_r (map height_r (map (scale_t s) (map (shift_z z) Ps))) = 0).
      { rewrite Hscaled, mean_r_scale
          by (destruct Ps; [contradiction | discriminate]).
        rewrite map_map.
        rewrite (map_ext _ (fun P => height_r P - z))
          by (intros P; apply height_r_shift).
        rewrite <- (map_map height_r (fun h => h - z)).
        rewrite mean_r_shift by assumption.
        unfold z. ring. }
      now rewrite E.
    + destruct Ps; [contradiction | discriminate].
    + unfold Ts1. apply reads_as_map; [apply reads_as_scale |].
      apply reads_as_map; [apply reads_as_shift | apply reads_as_lift].
    + apply Hreg_scale, Hreg_shift.
  - exists (map (rescale_pose s) (map lift Ps)),
           (map (recenter_z (Fin (z * s))) (map (rescale_pose s) (map lift Ps))).
    split; [unfold cell20; rewrite Hs; reflexivity |].
    rewrite (cell17_regular _ (map (scale_t s) Ps)).
    + rewrite Hscaled, mean_r_scale by assumption. reflexivity.
    + destruct Ps; [contradiction | discriminate].
    + apply reads_as_map; [apply reads_as_scale | apply reads_as_lift].
    + now apply Hreg_scale.
Qed.

Lemma scale_factor_2211 : scale_factor 2 2 1 1 = ok 1.
Proof.
  unfold scale_factor, radius. rewrite !py_div_ok by lra. cbn [bind ok].
  rewrite py_max_Rmax, Rmax_left by lra.
  rewrite py_div_ok by lra. unfold ok. f_equal. field.
Qed.

Lemma rescale_keeps_subject_centred_witness :
  exists z Ts1 Ts2 Ts3,
    cell17 (map lift [cam_a; cam_b; cam_c]) = ok (Fin z, Ts1)
    /\ cell20 2 2 1 1 Ts1 = ok Ts2
    /\ cell17 Ts2 = ok (Fin 0, Ts3).
Proof.
  destruct (rescale_keeps_subject_centred 2 2 1 1 1 [cam_a; cam_b; cam_c])
    as [z [Ts1 [Ts2 [Ts3 [H1 [H2 [H3 _]]]]]]].
  - discriminate.
  - intros P [<- | [<- | [<- | []]]];
      [apply cam_a_regular | apply cam_b_regular | apply cam_c_regular].
  - apply scale_factor_2211.
  - exists z, Ts1, Ts2, Ts3. repeat split; assumption.
Defined.

(** ** Cells 15 and 16 on a finite first pose *)

Lemma ray_sq_nonneg (P : rmat) : 0 <= ray_sq P.
Proof.
  unfold ray_sq.
  pose proof (Rle_0_sqr (P 0%nat 2%nat)). pose proof (Rle_0_sqr (P 1%nat 2%nat)).
  pose proof (Rle_0_sqr (P 2%nat 2%nat)). unfold Rsqr in *. lra.
Qed.

Lemma np_norm_ray (T : mat) (P : rmat) :
  reads_as T P -> np_norm (ray_dir_of T) = Fin (sqrt (ray_sq P)).
Proof.
  intros H. unfold np_norm, ray_dir_of, np_sum, vx, vy, vz. cbn [fst snd fold_left].
  rewrite !H. cbn [np_square np_mul np_add np_sqrt].
  rewrite Rltb_false.
  - f_equal. f_equal. unfold ray_sq. ring.
  - pose proof (ray_sq_nonneg P). unfold ray_sq in *. lra.
Qed.

Lemma normalize_ray_other (T : mat) (i j : nat) :
  j <> 2%nat \/ (3 <= i)%nat -> normalize_ray T i j = T i j.
Proof.
  intros H. unfold normalize_ray.
  replace (Nat.ltb i 3 && Nat.eqb j 2) with false; [reflexivity |].
  symmetry. apply andb_false_iff. destruct H as [H | H].
  - right. now apply Nat.eqb_neq.
  - left. apply Nat.ltb_ge. lia.
Qed.

Lemma normalize_ray_column (T : mat) (P : rmat) (i : nat) :
  reads_as T P -> (i < 3)%nat ->
  normalize_ray T i 2%nat = np_div (Fin (P i 2%nat)) (Fin (sqrt (ray_sq P))).
Proof.
  intros H Hi. unfold normalize_ray.
  replace (Nat.ltb i 3) with true by (symmetry; now apply Nat.ltb_lt).
  cbn [andb Nat.eqb]. now rewrite (np_norm_ray T P H), H.
Qed.

Lemma normalize_ray_zero (T : mat) (P : rmat) (i : nat) :
  reads_as T P -> ray_sq P = 0 -> (i < 3)%nat -> normalize_ray T i 2%nat = NaN.
Proof.
  intros HP H0 Hi. rewrite (normalize_ray_column _ P i HP Hi), H0, sqrt_0.
  assert (HPi : P i 2%nat = 0).
  { unfold ray_sq in H0.
    pose proof (Rle_0_sqr (P 0%nat 2%nat)). pose proof (Rle_0_sqr (P 1%nat 2%nat)).
    pose proof (Rle_0_sqr (P 2%nat 2%nat)). unfold Rsqr in *.
    destruct i as [| [| [| i]]]; try lia; apply Rsqr_0_uniq; unfold Rsqr; lra. }
  rewrite HPi. unfold np_div. now rewrite Reqb_true.
Qed.

(** X13: cell 15 needs a first pose ([IndexError] on an empty Pose Set) and
    rewrites only the third column of its rotation block, in place: a
    finite non-zero column is divided by its length and has length 1
    afterwards, a column that already has length 1 (as in every rigid pose)
    is left as it is, and a zero column becomes NaN; every other entry of
    the first pose and every other pose are untouched. *)
Theorem first_ray_is_normalised (P : rmat) (rest : list mat) :
  cell15 [] = raise IndexError
  /\ exists T0 t r,
      cell15 (lift P :: rest) = ok (T0 :: rest, t, r)
      /\ t = translation_of (lift P)
      /\ r = ray_dir_of T0
      /\ (forall i j, j <> 2%nat \/ (3 <= i)%nat -> T0 i j = Fin (P i j))
      /\ (0 < ray_sq P ->
          (forall i, (i < 3)%nat -> T0 i 2%nat = Fin (P i 2%nat / sqrt (ray_sq P)))
          /\ np_norm r = Fin 1)
      /\ (ray_sq P = 1 -> forall i j, T0 i j = Fin (P i j))
      /\ (ray_sq P = 0 -> forall i, (i < 3)%nat -> T0 i 2%nat = NaN).
Proof.
  split; [reflexivity |].
  exists (normalize_ray (lift P)), (translation_of (normalize_ray (lift P))),
         (ray_dir_of (normalize_ray (lift P))).
  assert (HP : reads_as (lift P) P) by (intros i j; reflexivity).
  split; [reflexivity |]. split; [reflexivity |]. split; [reflexivity |].
  split; [intros i j H; now rewrite normalize_ray_other |].
  assert (Hcol : 0 < ray_sq P -> forall i, (i < 3)%nat ->
                 normalize_ray (lift P) i 2%nat = Fin (P i 2%nat / sqrt (ray_sq P))).
  { intros Hpos i Hi. rewrite (normalize_ray_column _ P i HP Hi).
    apply np_div_Fin. pose proof (sqrt_lt_R0 _ Hpos). lra. }
  split; [| split].
  - intros Hpos. split; [now apply Hcol |].
    unfold np_norm, ray_dir_of, np_sum, vx, vy, vz. cbn [fst snd fold_left].
    rewrite !Hcol by (assumption || lia).
    cbn [np_square np_mul np_add np_sqrt].
    pose proof (sqrt_lt_R0 _ Hpos) as Hn.
    pose proof (sqrt_sqrt (ray_sq P) ltac:(lra)) as Hnn.
    assert (E : 0 + P 0%nat 2%nat / sqrt (ray_sq P) * (P 0%nat 2%nat / sqrt (ray_sq P))
                + P 1%nat 2%nat / sqrt (ray_sq P) * (P 1%nat 2%nat / sqrt (ray_sq P))
                + P 2%nat 2%nat / sqrt (ray_sq P) * (P 2%nat 2%nat / sqrt (ray_sq P))
                = 1).
    { transitivity (ray_sq P / (sqrt (ray_sq P) * sqrt (ray_sq P))).
      - set (n := sqrt (ray_sq P)) in *. unfold ray_sq. field. lra.
      - rewrite Hnn. field. lra. }
    rewrite E, Rltb_false by lra. now rewrite sqrt_1.
  - intros H1 i j.
    destruct (Nat.eq_dec j 2) as [-> | Hj];
      [| now rewrite normalize_ray_other by (now left)].
    destruct (Nat.lt_ge_cases i 3) as [Hi | Hi];
      [| now rewrite normalize_ray_other by (now right)].
    rewrite Hcol by (assumption || lra). rewrite H1, sqrt_1. f_equal. field.
  - intros H0 i Hi. now apply (normalize_ray_zero _ P).
Qed.

Lemma cam_a_ray_sq : ray_sq cam_a = 1.
Proof. unfold ray_sq, cam_a, rmat_of_rows. simpl. field. Qed.

Lemma first_ray_is_normalised_witness :
  exists T0 t r,
    cell15 [lift cam_a; lift cam_b] = ok ([T0; lift cam_b], t, r)
    /\ np_norm r = Fin 1
    /\ forall i j, T0 i j = Fin (cam_a i j).
Proof.
  destruct (proj2 (first_ray_is_normalised cam_a [lift cam_b]))
    as [T0 [t [r [H1 [_ [_ [_ [H2 [H3 _]]]]]]]]].
  exists T0, t, r. split; [exact H1 |]. split.
  - apply H2. rewrite cam_a_ray_sq. lra.
  - apply H3, cam_a_ray_sq.
Defined.

Lemma cell16_regular (float_eq : R -> R -> bool) (t r : pt) :
  fst (fst r) <> 0 -> snd (fst r) <> 0 ->
  let a := (- fst (fst t) * fst (fst r) + - snd (fst t) * snd (fst r))
           / (fst (fst r) * fst (fst r) + snd (fst r) * snd (fst r)) in
  cell16 float_eq (vec_of_pt t) (vec_of_pt r)
  = if float_eq a a
    then ok (Fin (snd r * a + snd t),
             vec_of_pt (a * fst (fst r), a * snd (fst r), snd r * a),
             vec_of_pt (fst (fst t) + a * fst (fst r), snd (fst t) + a * snd (fst r),
                        snd t + snd r * a))
    else raise AssertionError.
Proof.
  destruct t as [[t0 t1] t2], r as [[r0 r1] r2]. cbn [fst snd]. cbv zeta.
  intros H0 H1.
  pose proof (sum_sq_pos r0 r1 H0) as Hden.
  set (a := (- t0 * r0 + - t1 * r1) / (r0 * r0 + r1 * r1)).
  unfold cell16, vec_of_pt, vx, vy, vz.
  cbn [fst snd np_neg np_mul np_add np_square].
  rewrite !(np_div_Fin _ (r0 * r0 + r1 * r1)) by lra.
  rewrite !(np_div_Fin _ r0), !(np_div_Fin _ r1) by assumption.
  cbn [np_eqb].
  replace ((- t0 * r0 + - t1 * r1) * r0 / (r0 * r0 + r1 * r1) / r0) with a
    by (unfold a; field; repeat split; (assumption || lra)).
  replace ((- t0 * r0 + - t1 * r1) * r1 / (r0 * r0 + r1 * r1) / r1) with a
    by (unfold a; field; repeat split; (assumption || lra)).
  destruct (float_eq a a); [| reflexivity].
  cbn [py_assert bind ok np_add].
  unfold ok. apply f_equal. repeat apply f_equal2; apply f_equal;
    unfold a; field; repeat split; (assumption || lra).
Qed.

Lemma cell16_zero_component (float_eq : R -> R -> bool) (t r : pt) :
  fst (fst r) = 0 \/ snd (fst r) = 0 ->
  cell16 float_eq (vec_of_pt t) (vec_of_pt r) = raise AssertionError.
Proof.
  destruct t as [[t0 t1] t2], r as [[r0 r1] r2]. cbn [fst snd].
  intros H.
  unfold cell16, vec_of_pt, vx, vy, vz.
  cbn [fst snd np_neg np_mul np_add np_square].
  assert (E : np_eqb float_eq
                (np_div (np_div (Fin ((- t0 * r0 + - t1 * r1) * r0))
                                (Fin (r0 * r0 + r1 * r1))) (Fin r0))
                (np_div (np_div (Fin ((- t0 * r0 + - t1 * r1) * r1))
                                (Fin (r0 * r0 + r1 * r1))) (Fin r1)) = false).
  { destruct (Req_dec_T r0 0) as [Z0 | N0].
    - subst r0.
      destruct (Req_dec_T r1 0) as [Z1 | N1].
      + subst r1. unfold np_div at 2.
        rewrite (Reqb_true (0 * 0 + 0 * 0) 0) by ring.
        rewrite Reqb_true by ring. reflexivity.
      + rewrite (np_div_Fin _ (0 * 0 + r1 * r1)) by nra.
        unfold np_div at 1. rewrite (Reqb_true 0 0) by reflexivity.
        rewrite Reqb_true by (unfold Rdiv; ring). reflexivity.
    - destruct H as [H | H]; [contradiction |]. subst r1.
      rewrite !(np_div_Fin _ (r0 * r0 + 0 * 0)) by nra.
      rewrite (np_div_Fin _ r0) by assumption.
      unfold np_div. rewrite (Reqb_true 0 0) by reflexivity.
      rewrite Reqb_true by (unfold Rdiv; ring). reflexivity. }
  rewrite E. reflexivity.
Qed.

Lemma cell16_NaN (float_eq : R -> R -> bool) (t : vec3) (r2 : npfloat) :
  cell16 float_eq t (NaN, NaN, r2) = raise AssertionError.
Proof.
  destruct t as [[t0 t1] t2]. unfold cell16, vx, vy, vz. cbn [fst snd].
  destruct t0, t1; reflexivity.
Qed.

(** X14: the single-camera estimate of cells 15 and 16 on a finite first
    pose.  Whenever a horizontal component of the first camera's ray is zero
    (a vertical ray included), cell 16 raises [AssertionError]: a ratio is
    NaN and [==] is false on NaN, whereas the tolerance check of cell 17 lets
    the NaN ratios of a vertical ray through.  When both components are
    non-zero the two compared quotients have one exact value q, and the
    outcome of [==] on their floats, which rounding decides, is all that is
    left open: if it holds, cell 16 returns, as [z_height], the per-camera
    height of cell 17 for that pose (the normalisation of cell 15 does not
    change it) and, as [end_of_ray], the point of the viewing ray whose
    horizontal part is orthogonal to the horizontal ray direction, the point
    nearest to the vertical axis; if not, it raises [AssertionError].  Cell
    16 raises no other exception. *)
Theorem first_camera_estimate
        (float_eq : R -> R -> bool) (P : rmat) (rest : list mat) :
  exists Ts1 t r,
    cell15 (lift P :: rest) = ok (Ts1, t, r)
    /\ (~ regular P -> cell16 float_eq t r = raise AssertionError)
    /\ (regular P ->
        let q := ray_abscissa P * sqrt (ray_sq P) in
        exists v,
          cell16 float_eq t r
          = (if float_eq q q
             then ok (camera_height (lift P), v, vec_of_pt (ray_foot P))
             else raise AssertionError)
          /\ camera_height (lift P) = Fin (snd (ray_foot P))
          /\ fst (fst (ray_foot P)) * P 0%nat 2%nat
             + snd (fst (ray_foot P)) * P 1%nat 2%nat = 0)
    /\ (forall e, cell16 float_eq t r = raise e -> e = AssertionError).
Proof.
  assert (HP : reads_as (lift P) P) by (intros i j; reflexivity).
  exists (normalize_ray (lift P) :: rest), (translation_of (normalize_ray (lift P))),
         (ray_dir_of (normalize_ray (lift P))).
  split; [reflexivity |].
  assert (Ht : translation_of (normalize_ray (lift P))
               = vec_of_pt (P 0%nat 3%nat, P 1%nat 3%nat, P 2%nat 3%nat)).
  { unfold translation_of. now rewrite !normalize_ray_other by (left; lia). }
  rewrite Ht.
  destruct (Req_dec_T (ray_sq P) 0) as [Hz | Hnz].
  - (* a zero ray *)
    assert (Hr : ray_dir_of (normalize_ray (lift P)) = (NaN, NaN, NaN)).
    { unfold ray_dir_of.
      rewrite !(normalize_ray_zero _ P) by (assumption || lia). reflexivity. }
    rewrite Hr, cell16_NaN. split; [reflexivity |]. split.
    + intros [H0 _]. exfalso. unfold ray_sq in Hz.
      pose proof (Rle_0_sqr (P 1%nat 2%nat)). pose proof (Rle_0_sqr (P 2%nat 2%nat)).
      pose proof (diff_sq_pos (P 0%nat 2%nat) 0 H0). unfold Rsqr in *.
      replace ((P 0%nat 2%nat - 0) * (P 0%nat 2%nat - 0))
        with (P 0%nat 2%nat * P 0%nat 2%nat) in * by ring.
      lra.
    + intros e He. unfold raise in He. now inversion He.
  - assert (Hpos : 0 < ray_sq P) by (pose proof (ray_sq_nonneg P); lra).
    pose proof (sqrt_lt_R0 _ Hpos) as Hn.
    set (n := sqrt (ray_sq P)) in *.
    assert (Hr : ray_dir_of (normalize_ray (lift P))
                 = vec_of_pt (P 0%nat 2%nat / n, P 1%nat 2%nat / n, P 2%nat 2%nat / n)).
    { unfold ray_dir_of, vec_of_pt. cbn [fst snd].
      rewrite !(normalize_ray_column _ P) by (assumption || lia).
      fold n. now rewrite !np_div_Fin by lra. }
    rewrite Hr.
    assert (Hnot : ~ regular P ->
                   cell16 float_eq
                     (vec_of_pt (P 0%nat 3%nat, P 1%nat 3%nat, P 2%nat 3%nat))
                     (vec_of_pt (P 0%nat 2%nat / n, P 1%nat 2%nat / n,
                                 P 2%nat 2%nat / n))
                   = raise AssertionError).
    { intros Hno. apply cell16_zero_component. cbn [fst snd].
      destruct (Req_dec_T (P 0%nat 2%nat) 0) as [Z0 | N0];
        [left; rewrite Z0; unfold Rdiv; ring |].
      destruct (Req_dec_T (P 1%nat 2%nat) 0) as [Z1 | N1];
        [right; rewrite Z1; unfold Rdiv; ring |].
      exfalso. apply Hno. split; assumption. }
    assert (Hreg : regular P ->
              cell16 float_eq
                (vec_of_pt (P 0%nat 3%nat, P 1%nat 3%nat, P 2%nat 3%nat))
                (vec_of_pt (P 0%nat 2%nat / n, P 1%nat 2%nat / n, P 2%nat 2%nat / n))
              = (if float_eq (ray_abscissa P * n) (ray_abscissa P * n)
                 then ok (camera_height (lift P),
                          vec_of_pt (ray_abscissa P * P 0%nat 2%nat,
                                     ray_abscissa P * P 1%nat 2%nat,
                                     P 2%nat 2%nat * ray_abscissa P),
                          vec_of_pt (ray_foot P))
                 else raise AssertionError)).
    { intros [H0 H1].
      pose proof (sum_sq_pos _ (P 1%nat 2%nat) H0) as Hden.
      assert (H0n : P 0%nat 2%nat / n <> 0).
      { intros E. apply H0. apply (Rmult_eq_reg_r (/ n)); [| apply Rinv_neq_0_compat; lra].
        rewrite Rmult_0_l. exact E. }
      assert (H1n : P 1%nat 2%nat / n <> 0).
      { intros E. apply H1. apply (Rmult_eq_reg_r (/ n)); [| apply Rinv_neq_0_compat; lra].
        rewrite Rmult_0_l. exact E. }
      rewrite cell16_regular by (cbn [fst snd]; assumption).
      cbn [fst snd].
      replace ((- P 0%nat 3%nat * (P 0%nat 2%nat / n)
                + - P 1%nat 3%nat * (P 1%nat 2%nat / n))
               / (P 0%nat 2%nat / n * (P 0%nat 2%nat / n)
                  + P 1%nat 2%nat / n * (P 1%nat 2%nat / n)))
        with (ray_abscissa P * n)
        by (unfold ray_abscissa; field; repeat split; (assumption || lra)).
      destruct (float_eq (ray_abscissa P * n) (ray_abscissa P * n)); [| reflexivity].
      rewrite camera_height_regular by (split; assumption).
      unfold ok, ray_foot, vec_of_pt. cbn [fst snd].
      apply f_equal. repeat apply f_equal2; try reflexivity; apply f_equal;
        field; repeat split; (assumption || lra). }
    split; [exact Hnot |]. split.
    + intros Hr'. cbv zeta. eexists. split; [apply (Hreg Hr') |].
      destruct Hr' as [H0 H1].
      pose proof (sum_sq_pos _ (P 1%nat 2%nat) H0) as Hden.
      split.
      * rewrite camera_height_regular by (split; assumption).
        unfold ray_foot. cbn [snd]. f_equal. ring.
      * unfold ray_foot, ray_abscissa. cbn [fst snd]. field. lra.
    + intros e He.
      destruct (regular_vertical_or_half P) as [Hr' | Hno].
      * rewrite (Hreg Hr') in He.
        destruct (float_eq _ _); [discriminate |].
        unfold raise in He. now inversion He.
      * rewrite Hnot in He; [unfold raise in He; now inversion He |].
        intros [H0 H1]. destruct Hno as [[Z0 Z1] | [[Z0 _] | [_ Z1]]]; contradiction.
Qed.

Lemma first_camera_estimate_witness :
  (exists Ts1 t r,
      cell15 [lift cam_down] = ok (Ts1, t, r)
      /\ cell16 (fun _ _ => true) t r = raise AssertionError)
  /\ (exists Ts1 t r v,
         cell15 [lift cam_c] = ok (Ts1, t, r)
         /\ cell16 (fun _ _ => true) t r
            = ok (camera_height (lift cam_c), v, vec_of_pt (ray_foot cam_c))).
Proof.
  split.
  - destruct (first_camera_estimate (fun _ _ => true) cam_down [])
      as [Ts1 [t [r [H1 [H2 _]]]]].
    exists Ts1, t, r. split; [exact H1 |]. apply H2.
    intros [H0 _]. apply H0. reflexivity.
  - destruct (first_camera_estimate (fun _ _ => true) cam_c [])
      as [Ts1 [t [r [H1 [_ [H2 _]]]]]].
    destruct (H2 cam_c_regular) as [v [H3 _]].
    exists Ts1, t, r, v. split; assumption.
Defined.

(** ** Cell 15 followed by cell 17 *)

Lemma regular_ray_sq_pos (P : rmat) : regular P -> 0 < ray_sq P.
Proof.
  intros [H0 _]. unfold ray_sq.
  pose proof (sum_sq_pos _ (P 1%nat 2%nat) H0).
  pose proof (Rle_0_sqr (P 2%nat 2%nat)). unfold Rsqr in *. lra.
Qed.

Lemma reads_as_unit_ray (T : mat) (P : rmat) :
  reads_as T P -> 0 < ray_sq P -> reads_as (normalize_ray T) (unit_ray P).
Proof.
  intros H Hpos i j. unfold unit_ray.
  destruct (Nat.ltb i 3 && Nat.eqb j 2) eqn:E.
  - apply andb_true_iff in E. destruct E as [Hi Hj].
    apply Nat.ltb_lt in Hi. apply Nat.eqb_eq in Hj. subst j.
    rewrite (normalize_ray_column T P i H Hi).
    apply np_div_Fin. pose proof (sqrt_lt_R0 _ Hpos). lra.
  - rewrite normalize_ray_other; [apply H |].
    apply andb_false_iff in E. destruct E as [E | E].
    + right. now apply Nat.ltb_ge in E.
    + left. now apply Nat.eqb_neq in E.
Qed.

Lemma unit_ray_regular (P : rmat) : regular P -> regular (unit_ray P).
Proof.
  intros Hreg. pose proof (regular_ray_sq_pos P Hreg) as Hpos.
  pose proof (sqrt_lt_R0 _ Hpos) as Hn.
  destruct Hreg as [H0 H1]. unfold regular, unit_ray. simpl. split; intros E.
  - apply H0. apply (Rmult_eq_reg_r (/ sqrt (ray_sq P)));
      [| apply Rinv_neq_0_compat; lra]. rewrite Rmult_0_l. exact E.
  - apply H1. apply (Rmult_eq_reg_r (/ sqrt (ray_sq P)));
      [| apply Rinv_neq_0_compat; lra]. rewrite Rmult_0_l. exact E.
Qed.

Lemma height_r_unit_ray (P : rmat) : regular P -> height_r (unit_ray P) = height_r P.
Proof.
  intros Hreg. pose proof (regular_ray_sq_pos P Hreg) as Hpos.
  pose proof (sqrt_lt_R0 _ Hpos) as Hn.
  destruct Hreg as [H0 H1].
  pose proof (sum_sq_pos _ (P 1%nat 2%nat) H0) as Hden.
  unfold height_r, ray_abscissa, unit_ray. simpl.
  set (n := sqrt (ray_sq P)) in *.
  field. repeat split; lra.
Qed.

(** X15: the in-place normalisation of cell 15 does not disturb cell 17,
    which reads the same array afterwards.  On a non-empty Pose Set of finite
    regular cameras, cell 17 run on the Pose Set that cell 15 leaves behind
    completes and finds the height it finds on the original Pose Set. *)
Theorem normalised_ray_keeps_height (Ps : list rmat) :
  Ps <> [] ->
  (forall P, In P Ps -> regular P) ->
  exists z Ts15 t r Ts17 Ts17',
    cell15 (map lift Ps) = ok (Ts15, t, r)
    /\ length Ts15 = length Ps
    /\ cell17 (map lift Ps) = ok (Fin z, Ts17)
    /\ cell17 Ts15 = ok (Fin z, Ts17').
Proof.
  intros Hne Hreg.
  destruct Ps as [| P rest]; [contradiction |].
  set (z := mean_r (map height_r (P :: rest))).
  assert (HP : regular P) by (apply Hreg; now left).
  exists z, (normalize_ray (lift P) :: map lift rest),
         (translation_of (normalize_ray (lift P))),
         (ray_dir_of (normalize_ray (lift P))),
         (map (recenter_z (Fin z)) (map lift (P :: rest))),
         (map (recenter_z (Fin z)) (normalize_ray (lift P) :: map lift rest)).
  split; [reflexivity |].
  split; [simpl; now rewrite length_map |].
  split; [apply cell17_regular; [assumption | apply reads_as_lift | assumption] |].
  assert (Ez : z = mean_r (map height_r (unit_ray P :: rest))).
  { unfold z. cbn [map]. now rewrite height_r_unit_ray. }
  rewrite Ez. apply cell17_regular.
  - discriminate.
  - constructor; [| apply reads_as_lift].
    apply reads_as_unit_ray; [intros i j; reflexivity | now apply regular_ray_sq_pos].
  - intros Q [<- | HQ]; [now apply unit_ray_regular | apply Hreg; now right].
Qed.

Lemma normalised_ray_keeps_height_witness :
  exists z Ts15 t r Ts17 Ts17',
    cell15 (map lift [cam_a; cam_b; cam_c]) = ok (Ts15, t, r)
    /\ cell17 (map lift [cam_a; cam_b; cam_c]) = ok (Fin z, Ts17)
    /\ cell17 Ts15 = ok (Fin z, Ts17').
Proof.
  destruct (normalised_ray_keeps_height [cam_a; cam_b; cam_c])
    as [z [Ts15 [t [r [Ts17 [Ts17' [H1 [_ [H2 H3]]]]]]]]].
  - discriminate.
  - intros P [<- | [<- | [<- | []]]];
      [apply cam_a_regular | apply cam_b_regular | apply cam_c_regular].
  - exists z, Ts15, t, r, Ts17, Ts17'. repeat split; assumption.
Defined.

(** ** Cell 20: when the scale factor exists *)

Lemma scale_factor_cases (fx fy cx cy : R) :
  ((fx = 0 \/ fy = 0
    \/ (fx <> 0 /\ fy <> 0 /\ Rmax (radius * cx / fx) (radius * cy / fy) = 0))
   /\ scale_factor fx fy cx cy = raise ZeroDivisionError)
  \/ (fx <> 0 /\ fy <> 0 /\ Rmax (radius * cx / fx) (radius * cy / fy) <> 0
      /\ scale_factor fx fy cx cy
         = ok (5 / 10 / Rmax (radius * cx / fx) (radius * cy / fy))).
Proof.
  unfold scale_factor.
  destruct (Req_dec_T fx 0) as [Zx | Nx].
  { left. split; [now left |].
    unfold py_div at 1. now rewrite (Reqb_true fx 0) by assumption. }
  rewrite (py_div_ok _ fx) by assumption. cbn [bind ok].
  destruct (Req_dec_T fy 0) as [Zy | Ny].
  { left. split; [right; now left |].
    unfold py_div at 1. now rewrite (Reqb_true fy 0) by assumption. }
  rewrite (py_div_ok _ fy) by assumption. cbn [bind ok].
  rewrite py_max_Rmax.
  destruct (Req_dec_T (Rmax (radius * cx / fx) (radius * cy / fy)) 0) as [Zm | Nm].
  { left. split; [right; right; auto |].
    unfold py_div. now rewrite Reqb_true by assumption. }
  right. rewrite py_div_ok by assumption. auto.
Qed.

(** X16: the only exception the rescale of cell 20 can raise is
    [ZeroDivisionError], and it raises it exactly when a focal length is zero
    or the larger of the two ratios radius.cx/fx and radius.cy/fy is zero; no
    Pose Set is produced in that case, whatever the poses are. *)
Theorem rescale_raises_iff (fx fy cx cy : R) (Ts : list mat) :
  (forall e, cell20 fx fy cx cy Ts = raise e -> e = ZeroDivisionError)
  /\ (cell20 fx fy cx cy Ts = raise ZeroDivisionError
      <-> fx = 0 \/ fy = 0
          \/ (fx <> 0 /\ fy <> 0 /\ Rmax (radius * cx / fx) (radius * cy / fy) = 0)).
Proof.
  unfold cell20.
  destruct (scale_factor_cases fx fy cx cy) as [[Hz E] | [Nx [Ny [Nm E]]]];
    rewrite E; cbn [bind raise ok].
  - split; [intros e H; now inversion H |].
    split; [intros _; exact Hz | reflexivity].
  - split; [intros e H; discriminate |].
    split; [intros H; discriminate |].
    intros [H | [H | [_ [_ H]]]]; contradiction.
Qed.

Lemma rescale_raises_iff_witness :
  cell20 0 2 1 1 [lift cam_a] = raise ZeroDivisionError
  /\ cell20 2 2 0 0 [lift cam_a] = raise ZeroDivisionError.
Proof.
  split.
  - apply (proj2 (proj2 (rescale_raises_iff 0 2 1 1 [lift cam_a]))).
    now left.
  - apply (proj2 (proj2 (rescale_raises_iff 2 2 0 0 [lift cam_a]))).
    right. right. split; [lra |]. split; [lra |].
    unfold radius. rewrite Rmax_left by lra. field.
Defined.

(** X17: with positive focal lengths and a positive principal point the
    rescale never raises, its factor is positive, and both scaled frustum
    half-widths s.radius.cx/fx and s.radius.cy/fy lie in (0, 0.5]: the field
    of view fits the block from -0.5 to 0.5. *)
Theorem positive_intrinsics_fit_unit_block (fx fy cx cy : R) :
  0 < fx -> 0 < fy -> 0 < cx -> 0 < cy ->
  exists s,
    scale_factor fx fy cx cy = ok s
    /\ 0 < s
    /\ 0 < s * (radius * cx / fx) <= 5 / 10
    /\ 0 < s * (radius * cy / fy) <= 5 / 10.
Proof.
  intros Hfx Hfy Hcx Hcy. unfold scale_factor, radius.
  rewrite !py_div_ok by lra. cbn [bind ok]. rewrite py_max_Rmax.
  assert (Hx : 0 < 1 * cx / fx)
    by (unfold Rdiv; rewrite Rmult_1_l; apply Rmult_lt_0_compat;
        [assumption | now apply Rinv_0_lt_compat]).
  assert (Hy : 0 < 1 * cy / fy)
    by (unfold Rdiv; rewrite Rmult_1_l; apply Rmult_lt_0_compat;
        [assumption | now apply Rinv_0_lt_compat]).
  set (mx := 1 * cx / fx) in *. set (my := 1 * cy / fy) in *.
  assert (Hm : 0 < Rmax mx my) by (pose proof (Rmax_l mx my); lra).
  rewrite py_div_ok by lra.
  exists (5 / 10 / Rmax mx my). split; [reflexivity |].
  assert (Hs : 0 < 5 / 10 / Rmax mx my)
    by (apply Rdiv_lt_0_compat; lra).
  split; [exact Hs |].
  assert (Hbound : forall m, 0 < m -> m <= Rmax mx my ->
                             0 < 5 / 10 / Rmax mx my * m <= 5 / 10).
  { intros m Hm0 Hle. split; [now apply Rmult_lt_0_compat |].
    replace (5 / 10 / Rmax mx my * m) with (5 / 10 * (m / Rmax mx my))
      by (field; lra).
    assert (m / Rmax mx my <= 1).
    { apply (Rmult_le_reg_r (Rmax mx my)); [assumption |].
      replace (m / Rmax mx my * Rmax mx my) with m by (field; lra). lra. }
    lra. }
  split; apply Hbound; try assumption; [apply Rmax_l | apply Rmax_r].
Qed.

Lemma positive_intrinsics_fit_unit_block_witness :
  exists s,
    scale_factor 2 3 1 1 = ok s
    /\ 0 < s
    /\ 0 < s * (radius * 1 / 2) <= 5 / 10
    /\ 0 < s * (radius * 1 / 3) <= 5 / 10.
Proof.
  apply (positive_intrinsics_fit_unit_block 2 3 1 1); lra.
Defined.

(** ** Cell 9: what can go wrong *)

Lemma dists_of_nonempty (ts : list vec3) :
  ts <> [] -> exists dists, dists_of ts = ok dists.
Proof.
  intros Hne. unfold dists_of.
  destruct ts as [| p ts]; [contradiction |].
  cbn [length]. unfold flatten. cbn [seq flat_map map app np_max bind ok].
  eexists. reflexivity.
Qed.

Lemma take_rows_nth (Ts : list mat) (big : list nat) (k : nat) :
  (k < length big)%nat ->
  nth k (take_rows (translations Ts) big) vec3_0
  = translation_of (nth (nth k big 0%nat) Ts zeros).
Proof.
  intros Hk. unfold take_rows.
  rewrite (nth_map_in _ big k vec3_0 0%nat) by assumption.
  unfold translations. change vec3_0 with (translation_of zeros).
  apply map_nth.
Qed.

(** X18: the exceptions of cell 9.  On an empty Pose Set it raises
    [IndexError].  On a non-empty one, one of three things happens:
    the removal loop raises and cell 9 raises [ValueError]; or the loop
    keeps a number of poses other than 48 and cell 9 raises
    [AssertionError]; or it keeps 48 and the aligner is called with
    the reference ring and 24 rows, row k being the position of the pose
    whose index is the k-th of the first 24 or of the last 24 kept indices,
    and cell 9 raises what the aligner raises, or completes when it does.
    Hence cell 9 raises no [IndexError] of its own on a non-empty Pose Set:
    the indexing [to_take[35]] is reached only with 48 kept poses. *)
Theorem cell9_exceptions {Aligned : Type}
        (ICP : list vec3 -> list vec3 -> result (Aligned * mat * vec3))
        (Ts : list mat) :
  (Ts = [] -> cell9 ICP Ts = raise IndexError)
  /\ (Ts <> [] ->
      (remove_duplicates Ts = raise ValueError
       /\ cell9 ICP Ts = raise ValueError)
      \/ (exists kept,
             remove_duplicates Ts = ok kept
             /\ length kept <> 48%nat
             /\ cell9 ICP Ts = raise AssertionError)
      \/ (exists kept big rows,
             remove_duplicates Ts = ok kept
             /\ length kept = 48%nat
             /\ (big = firstn 24 kept \/ big = skipn 24 kept)
             /\ length rows = 24%nat
             /\ (forall k, (k < 24)%nat ->
                   nth k rows vec3_0
                   = translation_of (nth (nth k big 0%nat) Ts zeros))
             /\ ((exists e, ICP rows expected = raise e
                            /\ cell9 ICP Ts = raise e)
                 \/ (exists fit,
                        ICP rows expected = ok fit
                        /\ cell9 ICP Ts
                           = ok {| to_take := kept; big_circle := big;
                                   sR := snd (fst fit); t_fit := snd fit |}))))
  /\ (Ts <> [] ->
      cell9 ICP Ts = raise IndexError ->
      exists rows, length rows = 24%nat /\ ICP rows expected = raise IndexError).
Proof.
  assert (Hmain :
    Ts <> [] ->
    (remove_duplicates Ts = raise ValueError
     /\ cell9 ICP Ts = raise ValueError)
    \/ (exists kept,
           remove_duplicates Ts = ok kept
           /\ length kept <> 48%nat
           /\ cell9 ICP Ts = raise AssertionError)
    \/ (exists kept big rows,
           remove_duplicates Ts = ok kept
           /\ length kept = 48%nat
           /\ (big = firstn 24 kept \/ big = skipn 24 kept)
           /\ length rows = 24%nat
           /\ (forall k, (k < 24)%nat ->
                 nth k rows vec3_0
                 = translation_of (nth (nth k big 0%nat) Ts zeros))
           /\ ((exists e, ICP rows expected = raise e
                          /\ cell9 ICP Ts = raise e)
               \/ (exists fit,
                      ICP rows expected = ok fit
                      /\ cell9 ICP Ts
                         = ok {| to_take := kept; big_circle := big;
                                 sR := snd (fst fit); t_fit := snd fit |})))).
  { intros Hne. unfold cell9.
    replace (index_poses Ts) with (@ok unit tt)
      by (destruct Ts; [contradiction | reflexivity]).
    cbn [bind ok].
    destruct (dists_of_nonempty (translations Ts)) as [dists Hd].
    { destruct Ts; [contradiction | discriminate]. }
    rewrite Hd. cbn [bind ok].
    rewrite (remove_duplicates_unfold Ts dists Hd).
    destruct (remove_duplicates_mask (length Ts) (dup_mask dists))
      as [e' | kept] eqn:Hk.
    - left. unfold remove_duplicates_mask in Hk.
      pose proof (remove_loop_error _ _ _ Hk) as ->. split; reflexivity.
    - right. cbn [bind]. unfold check_and_fit.
      destruct (Nat.eqb (length kept) 48) eqn:Hlen.
      + right. apply Nat.eqb_eq in Hlen.
        cbn [py_assert bind ok].
        rewrite (select_big_circle_ok dists kept Hlen). cbn [bind ok].
        set (big := if np_gtb (dists (nth 0 kept 0%nat) (nth 11 kept 0%nat))
                              (dists (nth 24 kept 0%nat) (nth 35 kept 0%nat))
                    then firstn 24 kept else skipn 24 kept).
        assert (Hbig : length big = 24%nat).
        { unfold big. destruct (np_gtb _ _);
            [rewrite length_firstn | rewrite length_skipn]; lia. }
        exists kept, big, (take_rows (translations Ts) big).
        split; [reflexivity |]. split; [assumption |].
        split; [unfold big; destruct (np_gtb _ _); auto |].
        split; [unfold take_rows; now rewrite length_map |].
        split; [intros k Hk'; apply take_rows_nth; lia |].
        destruct (ICP (take_rows (translations Ts) big) expected) as [e' | fit].
        * left. exists e'. split; reflexivity.
        * right. exists fit. split; reflexivity.
      + left. exists kept. split; [reflexivity |].
        split; [now apply Nat.eqb_neq | reflexivity]. }
  split; [intros ->; reflexivity |].
  split; [exact Hmain |].
  intros Hne Hidx.
  destruct (Hmain Hne) as [[_ H] | [[kept [_ [_ H]]] | H]].
  - rewrite H in Hidx. discriminate.
  - rewrite H in Hidx. discriminate.
  - destruct H as [kept [big [rows [_ [_ [_ [Hlen [_ [[e [He H]] | [fit [_ H]]]]]]]]]]].
    + rewrite H in Hidx. unfold raise in Hidx. inversion Hidx; subst e.
      exists rows. split; assumption.
    + rewrite H in Hidx. discriminate.
Qed.

Lemma cell9_exceptions_witness :
  cell9 trivial_fit (@nil mat) = raise IndexError
  /\ cell9 trivial_fit (map pose_of_zpt cluster_pts) = raise ValueError
  /\ cell9 trivial_fit (map pose_of_zpt chain_pts) = raise AssertionError
  /\ exists out,
       cell9 trivial_fit (map pose_of_zpt grid48_pts) = ok out
       /\ length (big_circle out) = 24%nat.
Proof.
  split; [| split; [| split]].
  - apply (proj1 (cell9_exceptions trivial_fit [])). reflexivity.
  - destruct (proj1 (proj2 (cell9_exceptions trivial_fit (map pose_of_zpt cluster_pts))))
      as [[_ H] | [[kept [H _]] | [kept [big [rows [H _]]]]]].
    + discriminate.
    + exact H.
    + rewrite cluster_filter in H. discriminate.
    + rewrite cluster_filter in H. discriminate.
  - destruct (proj1 (proj2 (cell9_exceptions trivial_fit (map pose_of_zpt chain_pts))))
      as [[H _] | [[kept [_ [_ H]]] | [kept [big [rows [H [Hlen _]]]]]]].
    + discriminate.
    + rewrite chain_filter in H. discriminate.
    + exact H.
    + rewrite chain_filter in H. unfold ok in H. inversion H; subst kept.
      simpl in Hlen. discriminate.
  - destruct (proj1 (proj2 (cell9_exceptions trivial_fit (map pose_of_zpt grid48_pts))))
      as [[H _] | [[kept [H [Hlen _]]] | [kept [big [rows [H [Hlen [Hbig [_ [_ Hrun]]]]]]]]]].
    + discriminate.
    + rewrite grid48_filter in H. discriminate.
    + rewrite grid48_filter in H. unfold ok in H. inversion H; subst kept.
      exfalso. apply Hlen. reflexivity.
    + destruct Hrun as [[e [He _]] | [fit [_ Hrun]]]; [discriminate |].
      eexists. split; [exact Hrun |]. cbn [big_circle].
      rewrite grid48_filter in H. unfold ok in H. inversion H; subst kept.
      destruct Hbig as [-> | ->]; reflexivity.
Defined.

(** ** Cells 18 and 21: where the plotted rays end *)

Lemma v_xy_of_regular (P : rmat) :
  regular P ->
  v_xy_of (lift P)
  = vec_of_pt (ray_abscissa P * P 0%nat 2%nat, ray_abscissa P * P 1%nat 2%nat,
               P 2%nat 2%nat * ray_abscissa P).
Proof.
  intros [H0 H1].
  pose proof (sum_sq_pos _ (P 1%nat 2%nat) H0) as Hden.
  unfold v_xy_of, ray_dir_of, translation_of, lift, vx, vy, vz, vec_of_pt.
  cbn [fst snd np_neg np_mul np_add np_square].
  rewrite !(np_div_Fin _ (P 0%nat 2%nat * P 0%nat 2%nat + P 1%nat 2%nat * P 1%nat 2%nat))
    by lra.
  rewrite (np_div_Fin _ (P 0%nat 2%nat)) by assumption.
  cbn [np_mul]. unfold ray_abscissa.
  repeat apply f_equal2; apply f_equal; field; repeat split; (assumption || lra).
Qed.

Lemma map_combine_maps {A B C D : Type} (h : B * C -> D) (f : A -> B) (g : A -> C)
      (l : list A) :
  map h (combine (map f l) (map g l)) = map (fun a => h (f a, g a)) l.
Proof. induction l as [| a l IH]; simpl; [reflexivity | now rewrite IH]. Qed.

Lemma ray_foot_through_axis (P : rmat) (h : R) :
  regular P -> ray_through P (0, 0, h) -> ray_foot P = (0, 0, h).
Proof.
  intros [H0 H1] [lam [Hx [Hy Hz]]]. simpl in Hx, Hy, Hz.
  assert (E : ray_abscissa P = lam).
  { unfold ray_abscissa.
    replace (P 0%nat 3%nat) with (- lam * P 0%nat 2%nat) by lra.
    replace (P 1%nat 3%nat) with (- lam * P 1%nat 2%nat) by lra.
    field. pose proof (sum_sq_pos _ (P 1%nat 2%nat) H0). lra. }
  unfold ray_foot. rewrite E. repeat apply f_equal2; lra.
Qed.

(** X19: the green points of the two ray plots.  On a non-empty Pose Set of
    finite regular cameras, [end_of_ray] of cell 18 is, for every camera, the
    point of its ray nearest the vertical axis, lowered by the mean height
    (cell 18 reads the translations that cell 17 has already re-centred in
    place), and [end_of_ray] of cell 21 is that point times the scale factor;
    when all rays pass through one point of the vertical axis, every such
    point is the origin in both plots. *)
Theorem plotted_ray_ends (fx fy cx cy s : R) (Ps : list rmat) :
  Ps <> [] ->
  (forall P, In P Ps -> regular P) ->
  scale_factor fx fy cx cy = ok s ->
  cell18 (map lift Ps)
  = ok (map (fun P => vec_of_pt (plot_end (mean_r (map height_r Ps)) P)) Ps)
  /\ cell21 fx fy cx cy (map lift Ps)
     = ok (map (fun P => vec_of_pt (pscale s (plot_end (mean_r (map height_r Ps)) P)))
               Ps)
  /\ forall h, (forall P, In P Ps -> ray_through P (0, 0, h)) ->
               forall P, In P Ps ->
                         plot_end (mean_r (map height_r Ps)) P = (0, 0, 0).
Proof.
  intros Hne Hreg Hs.
  set (z := mean_r (map height_r Ps)).
  assert (H17 : cell17 (map lift Ps)
                = ok (Fin z, map (recenter_z (Fin z)) (map lift Ps)))
    by (apply cell17_regular; [assumption | apply reads_as_lift | assumption]).
  split; [| split].
  - unfold cell18. rewrite H17. cbn [bind ok snd].
    unfold translations. rewrite !map_map.
    rewrite (map_combine_maps _ _ _ Ps). f_equal.
    apply map_ext_in. intros P HP. cbn [fst snd].
    rewrite (v_xy_of_regular P (Hreg P HP)).
    unfold vec_add, translation_of, recenter_z, lift, vec_of_pt, plot_end, ray_foot,
      vx, vy, vz.
    cbn [fst snd Nat.eqb andb np_sub np_neg np_add].
    repeat apply f_equal2; apply f_equal; ring.
  - unfold cell21, cell20. rewrite H17, Hs. cbn [bind ok snd].
    unfold translations. rewrite !map_map.
    rewrite (map_combine_maps _ _ _ Ps). f_equal.
    apply map_ext_in. intros P HP. cbn [fst snd].
    rewrite (v_xy_of_regular P (Hreg P HP)).
    unfold vec_add, vec_scale, translation_of, rescale_pose, recenter_z, lift,
      vec_of_pt, pscale, plot_end, ray_foot, px, py, pz, vx, vy, vz.
    cbn [fst snd Nat.eqb Nat.ltb Nat.leb andb np_sub np_neg np_add np_mul].
    repeat apply f_equal2; apply f_equal; ring.
  - intros h Hthrough P HP.
    assert (Hz : z = h).
    { unfold z, mean_r.
      rewrite (fold_plus_const _ h).
      - rewrite length_map. field. apply not_0_INR.
        destruct Ps; [contradiction | discriminate].
      - intros x Hx. apply in_map_iff in Hx. destruct Hx as [Q [<- HQ]].
        unfold height_r. apply ray_abscissa_through_axis; [now apply Hreg |].
        now apply Hthrough. }
    unfold plot_end. rewrite (ray_foot_through_axis P h) by auto.
    cbn [fst snd]. rewrite Hz. repeat apply f_equal2; ring.
Qed.

Lemma plotted_ray_ends_witness :
  cell18 (map lift [cam_c; cam_d]) = ok [vec3_0; vec3_0]
  /\ cell21 2 2 1 1 (map lift [cam_c; cam_d]) = ok [vec3_0; vec3_0].
Proof.
  assert (Hne : [cam_c; cam_d] <> []) by discriminate.
  assert (Hreg : forall P, In P [cam_c; cam_d] -> regular P)
    by (intros P [<- | [<- | []]]; [apply cam_c_regular | apply cam_d_regular]).
  destruct (plotted_ray_ends 2 2 1 1 1 [cam_c; cam_d] Hne Hreg scale_factor_2211)
    as [H18 [H21 Hax]].
  assert (Hc : plot_end (mean_r (map height_r [cam_c; cam_d])) cam_c = (0, 0, 0))
    by (apply (Hax 3);
        [intros P [<- | [<- | []]]; [apply cam_c_through_axis | apply cam_d_through_axis]
        | now left]).
  assert (Hd : plot_end (mean_r (map height_r [cam_c; cam_d])) cam_d = (0, 0, 0))
    by (apply (Hax 3);
        [intros P [<- | [<- | []]]; [apply cam_c_through_axis | apply cam_d_through_axis]
        | right; now left]).
  set (m := mean_r (map height_r [cam_c; cam_d])) in *.
  rewrite H18, H21. cbn [map]. rewrite Hc, Hd.
  unfold pscale, vec_of_pt, vec3_0, px, py, pz. cbn [fst snd].
  replace (1 * 0) with 0 by ring. split; reflexivity.
Defined.

(** ** The duplicate filter after the later stages *)

Lemma translation_reads (T : mat) (P : rmat) :
  reads_as T P -> translation_of T = vec_of_pt (position P).
Proof. intros H. unfold translation_of, vec_of_pt, position. now rewrite !H. Qed.

Lemma translations_reads (Ts : list mat) (Ps : list rmat) :
  Forall2 reads_as Ts Ps -> translations Ts = map vec_of_pt (map position Ps).
Proof.
  induction 1 as [| T P Ts Ps HTP _ IH]; [reflexivity |].
  simpl. now rewrite (translation_reads T P HTP), <- IH.
Qed.

Lemma rdist_shift_scale (s z : R) (P Q : rmat) :
  rdist (position (scale_t s (shift_z z P))) (position (scale_t s (shift_z z Q)))
  = Rabs s * rdist (position P) (position Q).
Proof.
  unfold rdist, position, scale_t, shift_z. simpl.
  rewrite <- sqrt_scale.
  - f_equal.
    replace (Rabs s * Rabs s) with (s * s)
      by (rewrite <- Rabs_mult; symmetry; apply Rabs_pos_eq, Rle_0_sqr).
    ring.
  - apply Rabs_pos.
  - pose proof (diff_sq_nonneg (P 0%nat 3%nat) (Q 0%nat 3%nat)).
    pose proof (diff_sq_nonneg (P 1%nat 3%nat) (Q 1%nat 3%nat)).
    pose proof (diff_sq_nonneg (P 2%nat 3%nat) (Q 2%nat 3%nat)). lra.
Qed.

Lemma rdist_shift (z : R) (P Q : rmat) :
  rdist (position (shift_z z P)) (position (shift_z z Q))
  = 1 * rdist (position P) (position Q).
Proof.
  unfold rdist, position, shift_z. simpl. rewrite Rmult_1_l. f_equal. ring.
Qed.

(** X20: re-centring and rescaling do not change which poses are
    duplicates.  On a non-empty Pose Set of finite regular cameras, the
    duplicate filter of cells 8 and 9 gives the same result on the Pose Set
    that cell 17 leaves, and on the Pose Set that cell 20 leaves after it, as
    on the original one: cell 17 keeps every distance, and cell 20 multiplies
    every distance by the absolute value of its (non-zero) factor. *)
Theorem later_stages_keep_duplicate_filter (fx fy cx cy s : R) (Ps : list rmat) :
  Ps <> [] ->
  (forall P, In P Ps -> regular P) ->
  scale_factor fx fy cx cy = ok s ->
  exists z Ts17 Ts20,
    cell17 (map lift Ps) = ok (z, Ts17)
    /\ cell20 fx fy cx cy Ts17 = ok Ts20
    /\ s <> 0
    /\ remove_duplicates Ts17 = remove_duplicates (map lift Ps)
    /\ remove_duplicates Ts20 = remove_duplicates (map lift Ps).
Proof.
  intros Hne Hreg Hs.
  set (z := mean_r (map height_r Ps)).
  set (Ts17 := map (recenter_z (Fin z)) (map lift Ps)).
  assert (Hs0 : s <> 0).
  { destruct (scale_factor_cases fx fy cx cy) as [[_ E] | [_ [_ [Nm E]]]];
      rewrite E in Hs; [discriminate |].
    unfold ok in Hs. inversion Hs. unfold Rdiv.
    apply Rmult_integral_contrapositive_currified;
      [lra | now apply Rinv_neq_0_compat]. }
  assert (Hmap : map lift Ps <> []) by (destruct Ps; [contradiction | discriminate]).
  assert (H0 : translations (map lift Ps) = map vec_of_pt (map position Ps))
    by (apply translations_reads, reads_as_lift).
  assert (H17 : Forall2 reads_as Ts17 (map (shift_z z) Ps))
    by (apply reads_as_map; [apply reads_as_shift | apply reads_as_lift]).
  assert (H20 : Forall2 reads_as (map (rescale_pose s) Ts17)
                        (map (scale_t s) (map (shift_z z) Ps)))
    by (apply reads_as_map; [apply reads_as_scale | exact H17]).
  exists (Fin z), Ts17, (map (rescale_pose s) Ts17).
  split; [apply cell17_regular; [assumption | apply reads_as_lift | assumption] |].
  split; [unfold cell20; rewrite Hs; reflexivity |].
  split; [exact Hs0 |].
  split.
  - apply (remove_duplicates_scaled 1 _ _ (map position Ps)
             (map position (map (shift_z z) Ps)));
      [lra | assumption | assumption | now apply translations_reads
      | now rewrite !length_map |].
    intros i j Hi Hj. rewrite length_map in Hi, Hj. unfold rraw.
    rewrite map_map.
    rewrite !(nth_map_in _ Ps _ pt_0 identity4) by assumption.
    apply rdist_shift.
  - apply (remove_duplicates_scaled (Rabs s) _ _ (map position Ps)
             (map position (map (scale_t s) (map (shift_z z) Ps))));
      [now apply Rabs_pos_lt | assumption | assumption | now apply translations_reads
      | now rewrite !length_map |].
    intros i j Hi Hj. rewrite length_map in Hi, Hj. unfold rraw.
    rewrite !map_map.
    rewrite !(nth_map_in _ Ps _ pt_0 identity4) by assumption.
    apply rdist_shift_scale.
Qed.

Lemma later_stages_keep_duplicate_filter_witness :
  exists z Ts17 Ts20,
    cell17 (map lift [cam_a; cam_b; cam_c]) = ok (z, Ts17)
    /\ cell20 2 2 1 1 Ts17 = ok Ts20
    /\ remove_duplicates Ts20 = remove_duplicates (map lift [cam_a; cam_b; cam_c]).
Proof.
  destruct (later_stages_keep_duplicate_filter 2 2 1 1 1 [cam_a; cam_b; cam_c])
    as [z [Ts17 [Ts20 [H1 [H2 [_ [_ H3]]]]]]].
  - discriminate.
  - intros P [<- | [<- | [<- | []]]];
      [apply cam_a_regular | apply cam_b_regular | apply cam_c_regular].
  - apply scale_factor_2211.
  - exists z, Ts17, Ts20. repeat split; assumption.
Defined.

